(** * mergekit/graph.py: scheduling and execution of task graphs

    A shallow embedding of [Task] and [Executor] from [mergekit/graph.py],
    together with the part of networkx that [Executor._make_schedule] calls,
    and the properties of the schedule, of the run and of the eviction of
    intermediate values. *)

From Stdlib Require Import ZArith Lia.
From stdpp Require Import base decidable option list relations orders.
From stdpp Require Import gmap strings fin_maps.

#[global] Set Warnings "-clear-no-such-hyp".

(** * Part I: the model *)

(** ** Python values and exceptions *)

(** The exceptions that the modelled code can raise.  [TaskExecutionError]
    stands for whatever a task's [execute] raises. *)
Inductive exn :=
  | KeyError
  | IndexError
  | RuntimeError
  | NetworkXUnfeasible
  | TaskExecutionError (msg : string).

Inductive res (A : Type) :=
  | Ok (a : A)
  | Raise (e : exn).
Arguments Ok {A} a.
Arguments Raise {A} e.

#[global] Instance exn_eq_dec : EqDecision exn.
Proof. solve_decision. Defined.

(** Values handled by tasks: tensors, the containers that [_move_tensors]
    goes through (dictionaries, lists and tuples), and the values that it
    returns as they are: integers, and any other object, such as a set, with
    the values that it holds.  A tensor is kept as a payload and the device
    that it was last moved to, under the name by which the device was asked
    for. *)
#[warnings="-register-all"]
Inductive value :=
  | VInt (z : Z)
  | VTensor (device : string) (data : list Z)
  | VDict (kvs : list (string * value))
  | VList (vs : list value)
  | VTuple (vs : list value)
  | VObject (held : list value).

(** [Executor._move_tensors].  [non_blocking] only chooses between a blocking
    and a non-blocking copy.  [Tensor.to] belongs to torch: the model records
    the device that was asked for and takes the copy to succeed; it says
    nothing of the name under which torch reports that device, of what the
    copy does to the data of the tensor, or of a copy that raises. *)
Fixpoint _move_tensors (v : value) (device : string) : value :=
  match v with
  | VTensor _ data => VTensor device data
  | VDict kvs => VDict (map (λ kv, (kv.1, _move_tensors kv.2 device)) kvs)
  | VList vs => VList (map (λ v, _move_tensors v device) vs)
  | VTuple vs => VTuple (map (λ v, _move_tensors v device) vs)
  | VInt _ | VObject _ => v
  end.

(** What a call of a task's [execute] does: it returns a value or raises. *)
Inductive outcome :=
  | Returns (v : value)
  | Raises (msg : string).

(** ** Python lists, dictionaries and sets *)

(** [enumerate(l)] *)
Definition enumerate {A} (l : list A) : list (nat * A) := imap pair l.

(** [l.pop()]: removes and returns the last element. *)
Definition list_pop {A} (l : list A) : option (A * list A) :=
  match reverse l with
  | [] => None
  | x :: r => Some (x, reverse r)
  end.

(** A [dict] whose iteration order matters is kept as the list of its items
    in insertion order. *)
Fixpoint alist_lookup {A B} `{EqDecision A} (k : A) (l : list (A * B))
    : option B :=
  match l with
  | [] => None
  | (k', v) :: l => if decide (k = k') then Some v else alist_lookup k l
  end.

(** Code that may raise, inside a loop that is run with fuel: [None] when the
    fuel runs out. *)
Definition fuel_bind {A B} (m : option (res A)) (f : A → option (res B))
    : option (res B) :=
  match m with
  | None => None
  | Some (Raise e) => Some (Raise e)
  | Some (Ok a) => f a
  end.
Notation "'let*' x := m 'in' k" := (fuel_bind m (λ x, k))
  (at level 10, x name, m at level 100, k at level 200).

(** A Python [set] is iterated in an order fixed by the hashes of its
    elements.  The model keeps a set as the list of its elements without
    repetition and leaves the iteration order open: any permutation. *)
Class SetOrder (A : Type) := {
  set_iter : list A → list A;
  set_iter_perm : ∀ l, set_iter l ≡ₚ l;
}.

(** [s.add(x)] *)
Definition set_add `{EqDecision A} (x : A) (s : list A) : list A :=
  if decide (x ∈ s) then s else s ++ [x].

(** ** Lexicographic comparison of tuples *)

(** Python compares tuples at the first position where they differ. *)
Definition lex_lt {A B} `{EqDecision A}
    (ltA : relation A) (ltB : relation B) : relation (A * B) :=
  λ a b, if decide (a.1 = b.1) then ltB a.2 b.2 else ltA a.1 b.1.

#[global] Instance lex_lt_dec {A B} `{EqDecision A}
    (ltA : relation A) (ltB : relation B)
    `{!RelDecision ltA, !RelDecision ltB} : RelDecision (lex_lt ltA ltB).
Proof. intros a b. unfold lex_lt. case_decide; apply _. Defined.

(** ** networkx *)

(** Modelled from the spec: networkx, the library that [_make_schedule] calls
    for the graph and its topological sort, is not in the repository.  The
    model follows the algorithm of the library, which is the one that the
    specification describes: a sort that "among all nodes whose predecessors
    are already placed at each step, selects the one with the
    lexicographically smallest key", and for which a cycle "must surface as a
    fatal graph contains a cycle error".  Nodes with equal keys are taken in
    the order in which they entered the graph. *)
Module networkx.

(** A directed graph on integer nodes: the nodes in insertion order, and for
    every node its successors and predecessors in insertion order. *)
Record DiGraph := mkDiGraph {
  _node : list nat;
  _succ : gmap nat (list nat);
  _pred : gmap nat (list nat);
}.

Definition succ (G : DiGraph) (u : nat) : list nat := default [] (_succ G !! u).
Definition pred (G : DiGraph) (v : nat) : list nat := default [] (_pred G !! v).

Definition empty_graph : DiGraph := mkDiGraph [] ∅ ∅.

Definition add_node (n : nat) (G : DiGraph) : DiGraph :=
  if decide (n ∈ _node G) then G
  else mkDiGraph (_node G ++ [n]) (<[n := []]> (_succ G)) (<[n := []]> (_pred G)).

(** One step of [add_edges_from]: both ends become nodes, then the edge is
    recorded on both sides; an edge that is already there changes nothing. *)
Definition add_edge (G : DiGraph) (e : nat * nat) : DiGraph :=
  let G := add_node e.1 G in
  let G := add_node e.2 G in
  mkDiGraph (_node G)
    (<[e.1 := set_add e.2 (succ G e.1)]> (_succ G))
    (<[e.2 := set_add e.1 (pred G e.2)]> (_pred G)).

(** Modelled from the spec: [networkx.DiGraph(edge_tups)], the graph "whose
    edges run from each dependency to its dependent"; an edge given twice is
    one edge. *)
Definition DiGraph_of (edge_tups : list (nat * nat)) : DiGraph :=
  foldl add_edge empty_graph edge_tups.

(** [G.in_degree()] *)
Definition in_degree (G : DiGraph) : list (nat * Z) :=
  map (λ v, (v, Z.of_nat (length (pred G v)))) (_node G).

Section sort.
Context {K : Type} `{EqDecision K} (K_lt : relation K) `{!RelDecision K_lt}.
Context (G : DiGraph) (key : nat → K).

(** The entries of the heap: [(key(node), nodeid_map[node], node)]. *)
Definition heap_item : Type := K * nat * nat.

Definition item_lt : relation heap_item := lex_lt (lex_lt K_lt lt) lt.

#[global] Instance item_lt_dec : RelDecision item_lt.
Proof. unfold item_lt. apply _. Defined.

(** [heapq] keeps the entries in a binary heap; what the sort observes is that
    [heappop] removes and returns the least entry.  The model keeps the
    entries in a list and takes the least one out. *)
Fixpoint extract_min (x : heap_item) (l : list heap_item)
    : heap_item * list heap_item :=
  match l with
  | [] => (x, [])
  | y :: l' =>
      if decide (item_lt y x)
      then let '(m, r) := extract_min y l' in (m, x :: r)
      else let '(m, r) := extract_min x l' in (m, y :: r)
  end.

Definition heappop (heap : list heap_item)
    : option (heap_item * list heap_item) :=
  match heap with
  | [] => None
  | x :: l => Some (extract_min x l)
  end.

Definition heappush (heap : list heap_item) (x : heap_item) : list heap_item :=
  heap ++ [x].

(** [nodeid_map = {n: i for i, n in enumerate(G)}] *)
Definition nodeid_map : gmap nat nat :=
  foldl (λ m '(i, n), <[n := i]> m) ∅ (enumerate (_node G)).

Definition create_tuple (node : nat) : heap_item :=
  (key node, nodeid_map !!! node, node).

(** The [for _, child in G.edges(node)] loop.  A child missing from
    [indegree_map] is the [KeyError] that the library turns into a
    [RuntimeError]. *)
Fixpoint process_children (children : list nat)
    (indegree_map : gmap nat Z) (zero_indegree : list heap_item)
    : res (gmap nat Z * list heap_item) :=
  match children with
  | [] => Ok (indegree_map, zero_indegree)
  | child :: rest =>
      match indegree_map !! child with
      | None => Raise RuntimeError
      | Some d =>
          let indegree_map := <[child := (d - 1)%Z]> indegree_map in
          if decide (d - 1 = 0)%Z
          then process_children rest (delete child indegree_map)
                 (heappush zero_indegree (create_tuple child))
          else process_children rest indegree_map zero_indegree
      end
  end.

(** The [while zero_indegree] loop; [out] collects the nodes yielded so far.
    When the heap is empty, nodes left in [indegree_map] mean a cycle. *)
Fixpoint sort_loop (fuel : nat) (indegree_map : gmap nat Z)
    (zero_indegree : list heap_item) (out : list nat)
    : option (res (list nat)) :=
  match fuel with
  | 0 => None
  | S fuel =>
      match heappop zero_indegree with
      | None =>
          if decide (indegree_map = ∅) then Some (Ok out)
          else Some (Raise NetworkXUnfeasible)
      | Some ((_, _, node), zero_indegree) =>
          if decide (node ∈ _node G) then
            match process_children (succ G node) indegree_map zero_indegree with
            | Raise e => Some (Raise e)
            | Ok (indegree_map, zero_indegree) =>
                sort_loop fuel indegree_map zero_indegree (out ++ [node])
            end
          else Some (Raise RuntimeError)
      end
  end.

(** Modelled from the spec: [networkx.lexicographical_topological_sort(G,
    key)], run to the end as the list comprehension of [_make_schedule] does.
    Every turn of the loop yields one more node, so one unit of fuel per node,
    and one for the last test, is enough (lemma [sort_loop_returns]). *)
Definition lexicographical_topological_sort : option (res (list nat)) :=
  let indegree_map : gmap nat Z :=
    list_to_map (filter (λ vd, 0 < vd.2)%Z (in_degree G)) in
  let zero_indegree :=
    map (λ vd, create_tuple vd.1) (filter (λ vd, vd.2 = 0%Z) (in_degree G)) in
  sort_loop (S (length (_node G))) indegree_map zero_indegree [].

End sort.
End networkx.

(** ** Task *)

(** The interface of [Task].  Tasks are frozen pydantic models: they are
    compared and hashed by their fields, hence the decidable equality and the
    use as keys.  [arguments] lists the items of the dictionary that the
    method returns, in its order; [execute] gets the keyword arguments as
    items.  The base class gives [priority] 0, [group_label] [None], and
    [False] for the two flags. *)
Class TaskClass (Task : Type) `{Countable Task} := {
  arguments : Task → list (string * Task);
  execute : Task → list (string * value) → outcome;
  priority : Task → Z;
  group_label : Task → option string;
  uses_accelerator : Task → bool;
  main_thread_only : Task → bool;
}.

(** ** Executor *)

(** Dictionaries that are shared by reference live in a heap of dictionary
    objects: the mapping given to [Executor] as [cached_values] and the
    [values] of a run. *)
Abbreviation loc := positive (only parsing).

Section executor.
Context {Task : Type} `{TaskClass Task} `{!SetOrder Task}.

Abbreviation pyheap := (gmap loc (gmap Task value)) (only parsing).

(** [d[k] = v], [del d[k]] and [d.update(other)] on the dictionary at [l]. *)
Definition dict_setitem (h : pyheap) (l : loc) (k : Task) (v : value) : pyheap :=
  <[l := <[k := v]> (h !!! l)]> h.
Definition dict_delitem (h : pyheap) (l : loc) (k : Task) : pyheap :=
  <[l := delete k (h !!! l)]> h.
Definition dict_update (h : pyheap) (l : loc) (other : gmap Task value) : pyheap :=
  <[l := other ∪ (h !!! l)]> h.

(** [self.cached_values or {}], read in heap [h]. *)
Definition cached_or_empty (h : pyheap) (cached_values : option loc)
    : gmap Task value :=
  match cached_values with
  | Some l => h !!! l
  | None => ∅
  end.

(** The nodes handed to [_index]: a task, or the string [DUMMY_TASK_VALUE]. *)
Inductive node :=
  | NTask (t : Task)
  | NDummy.

#[global] Instance node_eq_dec : EqDecision node.
Proof. solve_decision. Defined.

#[global] Instance node_countable : Countable node.
Proof.
  refine (inj_countable'
    (λ n, match n with NTask t => Some t | NDummy => None end)
    (λ o, match o with Some t => NTask t | None => NDummy end) _).
  by intros [].
Defined.

Record Executor := mkExecutor {
  math_device : string;
  storage_device : string;
  targets : list Task;
  schedule : list Task;
  dependencies : list (Task * list Task);
  cached_values : option loc;
}.

(** *** [_build_dependencies] *)

(** The [while to_process] loop.  [cached] is the dictionary read by
    [self.cached_values or {}]: nothing writes the heap while the executor is
    built. *)
Fixpoint _build_dependencies_loop (cached : gmap Task value) (fuel : nat)
    (task_dependencies : list (Task * list Task)) (to_process : list Task)
    : option (list (Task * list Task)) :=
  match fuel with
  | 0 => None
  | S fuel =>
      match list_pop to_process with
      | None => Some task_dependencies
      | Some (child, to_process) =>
          if decide (child ∈ task_dependencies.*1) then
            _build_dependencies_loop cached fuel task_dependencies to_process
          else if decide (is_Some (cached !! child)) then
            _build_dependencies_loop cached fuel
              (task_dependencies ++ [(child, [])]) to_process
          else
            let deps := (arguments child).*2 in
            _build_dependencies_loop cached fuel
              (task_dependencies ++ [(child, foldl (flip set_add) [] deps)])
              (to_process ++ deps)
      end
  end.

Definition _build_dependencies (cached : gmap Task value) (fuel : nat)
    (targets : list Task) : option (list (Task * list Task)) :=
  _build_dependencies_loop cached fuel [] targets.

(** *** [_make_schedule] *)

Record index_state := mkIndexState {
  node_indices : gmap node nat;
  node_values : list node;
}.

(** The closure [_index], with the two variables it updates. *)
Definition _index (n : node) (st : index_state) : nat * index_state :=
  match node_indices st !! n with
  | Some i => (i, st)
  | None =>
      (size (node_indices st),
       mkIndexState (<[n := size (node_indices st)]> (node_indices st))
                    (node_values st ++ [n]))
  end.

(** [edge_tups.append((_index(a), _index(b)))] *)
Definition append_edge (acc : list (nat * nat) * index_state) (ab : node * node)
    : list (nat * nat) * index_state :=
  let '(i, st) := _index ab.1 acc.2 in
  let '(j, st) := _index ab.2 st in
  (acc.1 ++ [(i, j)], st).

(** The two loops that fill [edge_tups], with the call
    [dummy_index = _index(DUMMY_TASK_VALUE)] between them. *)
Definition dependency_edges (dependencies : list (Task * list Task))
    : list (nat * nat) * index_state :=
  foldl (λ acc '(node, deps),
           foldl (λ acc dependency,
                    append_edge acc (NTask dependency, NTask node))
                 acc (set_iter deps))
        ([], mkIndexState ∅ []) dependencies.

Definition target_edges (dummy_index : nat) (targets : list Task)
    (acc : list (nat * nat) * index_state) : list (nat * nat) * index_state :=
  foldl (λ acc task,
           let '(j, st) := _index (NTask task) acc.2 in
           (acc.1 ++ [(dummy_index, j)], st))
        acc targets.

(** [_compare_key].  [node] is always an index handed out by [_index] (lemma
    [graph_nodes_in_range]), the lookup in [node_values] cannot fail. *)
Definition _compare_key (node_values : list node) (node : nat) : string * Z :=
  match node_values !! node with
  | Some (NTask task) => (default "" (group_label task), (- priority task)%Z)
  | _ => ("", 0%Z)
  end.

(** Python's order on the keys [(str, int)]. *)
Definition key_lt : relation (string * Z) := lex_lt (strict String.le) Z.lt.

#[global] Instance key_lt_dec : RelDecision key_lt.
Proof. unfold key_lt. apply _. Defined.

(** What [_make_schedule] builds before it sorts. *)
Record schedule_graph := mkScheduleGraph {
  sg_node_values : list node;
  sg_dummy_index : nat;
  sg_graph : networkx.DiGraph;
}.

Definition _make_graph (dependencies : list (Task * list Task))
    (targets : list Task) : schedule_graph :=
  let acc := dependency_edges dependencies in
  let '(dummy_index, st) := _index NDummy acc.2 in
  let acc := target_edges dummy_index targets (acc.1, st) in
  mkScheduleGraph (node_values acc.2) dummy_index (networkx.DiGraph_of acc.1).

(** The nodes in the order in which the sort yields them. *)
Definition _topological_order (sg : schedule_graph) : option (res (list nat)) :=
  networkx.lexicographical_topological_sort key_lt (sg_graph sg)
    (_compare_key (sg_node_values sg)).

(** The list comprehension that filters what the sort yields.  An index is
    kept when it is not [dummy_index] and its node is not cached.  The dummy
    node is at [dummy_index] and nowhere else (lemma
    [dummy_only_at_dummy_index]), so what is kept is a task. *)
Fixpoint _filter_schedule (cached : gmap Task value) (sg : schedule_graph)
    (order : list nat) : res (list Task) :=
  match order with
  | [] => Ok []
  | idx :: order =>
      match sg_node_values sg !! idx with
      | None => Raise IndexError
      | Some n =>
          match _filter_schedule cached sg order with
          | Raise e => Raise e
          | Ok rest =>
              match n with
              | NTask t =>
                  if decide (idx ≠ sg_dummy_index sg ∧ cached !! t = None)
                  then Ok (t :: rest) else Ok rest
              | NDummy => Ok rest
              end
          end
      end
  end.

Definition _make_schedule (cached : gmap Task value) (fuel : nat)
    (targets : list Task)
    : option (res (list (Task * list Task) * list Task)) :=
  let* dependencies := Ok <$> _build_dependencies cached fuel targets in
  let sg := _make_graph dependencies targets in
  let* order := _topological_order sg in
  let* schedule := Some (_filter_schedule cached sg order) in
  Some (Ok (dependencies, schedule)).

(** [Executor.__init__], in heap [h].  The devices are already
    [torch.device]s. *)
Definition __init__ (h : pyheap) (fuel : nat) (tasks : list Task)
    (math_device storage_device : string) (cached_values : option loc)
    : option (res Executor) :=
  let* ds := _make_schedule (cached_or_empty h cached_values) fuel tasks in
  Some (Ok (mkExecutor math_device storage_device tasks ds.2 ds.1
              cached_values)).

(** *** [run] *)

(** [if t not in last_use_index: last_use_index[t] = idx] *)
Definition set_last_use (idx : nat) (last_use_index : gmap Task nat) (t : Task)
    : gmap Task nat :=
  match last_use_index !! t with
  | Some _ => last_use_index
  | None => <[t := idx]> last_use_index
  end.

(** The tasks that [for t in self.dependencies.get(task, [])] goes
    through. *)
Definition dependencies_get (dependencies : list (Task * list Task))
    (task : Task) : list Task :=
  from_option set_iter [] (alist_lookup task dependencies).

(** One turn of the loop over the reversed schedule. *)
Definition last_use_turn (dependencies : list (Task * list Task))
    (last_use_index : gmap Task nat) (it : nat * Task) : gmap Task nat :=
  let '(idx, task) := it in
  let last_use_index :=
    foldl (set_last_use idx) last_use_index
      (dependencies_get dependencies task) in
  set_last_use idx last_use_index task.

(** The first loops of [run]: the last use of every value. *)
Definition last_use_index (self : Executor) (h : pyheap) : gmap Task nat :=
  let lui :=
    foldl (last_use_turn (dependencies self)) ∅
      (reverse (enumerate (schedule self))) in
  foldl (set_last_use (length (schedule self) + 1)) lui
    (map_to_list (cached_or_empty h (cached_values self))).*1.

(** What a run has done so far: the heap, the pairs yielded to the consumer,
    the tasks whose [execute] was called, and the exception that ended the
    run, if any. *)
Record run_state := mkRunState {
  st_heap : pyheap;
  st_yielded : list (Task * value);
  st_executed : list Task;
  st_raised : option exn;
}.

(** The loop that fills [arguments]: [values[dep]] raises [KeyError] when the
    value is missing. *)
Fixpoint resolve_arguments (self : Executor) (values : gmap Task value)
    (use_math_device : bool) (args : list (string * Task))
    : res (list (string * value)) :=
  match args with
  | [] => Ok []
  | (name, dep) :: args =>
      match values !! dep with
      | None => Raise KeyError
      | Some value =>
          let value :=
            if use_math_device then _move_tensors value (math_device self)
            else value in
          match resolve_arguments self values use_math_device args with
          | Raise e => Raise e
          | Ok arguments => Ok ((name, value) :: arguments)
          end
      end
  end.

(** The loop that fills [expired]: [last_use_index[key]] raises [KeyError]
    when [key] has no last use. *)
Fixpoint expired_keys (last_use_index : gmap Task nat) (idx : nat)
    (keys : list Task) : res (list Task) :=
  match keys with
  | [] => Ok []
  | key :: keys =>
      match last_use_index !! key with
      | None => Raise KeyError
      | Some last =>
          match expired_keys last_use_index idx keys with
          | Raise e => Raise e
          | Ok expired =>
              Ok (if decide (last ≤ idx) then key :: expired else expired)
          end
      end
  end.

(** One turn of the main loop of [run], on the dictionary [values] at
    [vloc]. *)
Definition run_step (self : Executor) (last_use_index : gmap Task nat)
    (vloc : loc) (st : run_state) (it : nat * Task) : run_state :=
  let '(idx, task) := it in
  let use_math_device := uses_accelerator task in
  match resolve_arguments self (st_heap st !!! vloc) use_math_device
          (arguments task) with
  | Raise e =>
      mkRunState (st_heap st) (st_yielded st) (st_executed st) (Some e)
  | Ok arguments =>
      let executed := st_executed st ++ [task] in
      match execute task arguments with
      | Raises msg =>
          mkRunState (st_heap st) (st_yielded st) executed
            (Some (TaskExecutionError msg))
      | Returns res =>
          let res := _move_tensors res (storage_device self) in
          let h := dict_setitem (st_heap st) vloc task res in
          let yielded :=
            if decide (task ∈ targets self)
            then st_yielded st ++ [(task, res)] else st_yielded st in
          match expired_keys last_use_index idx (map_to_list (h !!! vloc)).*1 with
          | Raise e => mkRunState h yielded executed (Some e)
          | Ok expired =>
              let h := foldl (λ h key, dict_delitem h vloc key) h expired in
              mkRunState h yielded executed None
          end
      end
  end.

(** Once an exception is raised the loop is over. *)
Definition run_turn (self : Executor) (last_use_index : gmap Task nat)
    (vloc : loc) (st : run_state) (it : nat * Task) : run_state :=
  match st_raised st with
  | Some _ => st
  | None => run_step self last_use_index vloc st it
  end.

(** [values = {}] is a new dictionary, filled with a copy of the items of
    [cached_values] when there are any. *)
Definition values_loc (h : pyheap) : loc := fresh (dom h).

Definition run_start (self : Executor) (h : pyheap) : run_state :=
  let vloc := values_loc h in
  let h' := <[vloc := ∅]> h in
  let h' :=
    match cached_values self with
    | Some l =>
        if decide (h !!! l = (∅ : gmap Task value)) then h'
        else dict_update h' vloc (h' !!! l)
    | None => h'
    end in
  mkRunState h' [] [] None.

(** The state of [run] at the end of the first [n] turns of its main loop.
    The generator is driven by its consumer: it stops at a [yield], in the
    middle of a turn, and ends that turn, with its eviction, when it is asked
    for the next pair; a consumer may leave it there. *)
Definition run_upto (self : Executor) (h : pyheap) (n : nat) : run_state :=
  foldl (run_turn self (last_use_index self h) (values_loc h))
    (run_start self h) (take n (enumerate (schedule self))).

(** [run], driven to its end (as [execute] does). *)
Definition run (self : Executor) (h : pyheap) : run_state :=
  run_upto self h (length (schedule self)).

(** The calls of [execute] made by [Executor(tasks, ...).execute()]: none
    when the executor cannot be built. *)
Definition executed_tasks (h : pyheap) (fuel : nat) (tasks : list Task)
    (math_device storage_device : string) (cached_values : option loc)
    : list Task :=
  match __init__ h fuel tasks math_device storage_device cached_values with
  | Some (Ok self) => st_executed (run self h)
  | _ => []
  end.

(** The dictionary [values] of the run after [n] turns. *)
Definition values_after (self : Executor) (h : pyheap) (n : nat)
    : gmap Task value :=
  st_heap (run_upto self h n) !!! values_loc h.

(** [Executor.execute]: the run is driven to its end and every pair is
    discarded.  The call returns [None], or raises what the run raised; the
    heap that it leaves is returned with the result. *)
Definition Executor_execute (self : Executor) (h : pyheap)
    : pyheap * res unit :=
  let st := run self h in
  (st_heap st,
   match st_raised st with
   | Some e => Raise e
   | None => Ok tt
   end).

End executor.

(** ** Vocabulary of the properties *)

(** What it means for [G] to be the graph of the edges [es]. *)
Record graph_of (es : list (nat * nat)) (G : networkx.DiGraph) : Prop := {
  go_nodes_nodup : NoDup (networkx._node G);
  go_nodes : ∀ n, n ∈ networkx._node G ↔ ∃ e, e ∈ es ∧ (n = e.1 ∨ n = e.2);
  go_succ : ∀ u v, v ∈ networkx.succ G u ↔ (u, v) ∈ es;
  go_pred : ∀ u v, u ∈ networkx.pred G v ↔ (u, v) ∈ es;
  go_succ_nodup : ∀ u, NoDup (networkx.succ G u);
  go_pred_nodup : ∀ v, NoDup (networkx.pred G v);
}.


(** The edges of a graph, as a relation. *)
Definition edge (G : networkx.DiGraph) (u v : nat) : Prop := v ∈ networkx.succ G u.

(** The number of predecessors of [v] that are not yet in [out]. *)
Definition waiting (G : networkx.DiGraph) (out : list nat) (v : nat) : nat :=
  length (filter (.∉ out) (networkx.pred G v)).

(** [m] is ready once [placed] has been yielded: it is a node that is not
    placed, and all its predecessors are. *)
Definition ready (G : networkx.DiGraph) (placed : list nat) (m : nat) : Prop :=
  m ∈ networkx._node G ∧ (m ∉ placed) ∧
  (∀ p, p ∈ networkx.pred G m → p ∈ placed).

(** The invariant of the loop of the sort. *)
Record sort_inv {K} `{EqDecision K} (K_lt : relation K)
    (G : networkx.DiGraph) (key : nat → K)
    (indegree_map : gmap nat Z) (zero_indegree : list (networkx.heap_item (K:=K)))
    (out : list nat) : Prop := {
  si_nodup : NoDup (zero_indegree.*2 ++ out);
  si_heap : ∀ x, x ∈ zero_indegree →
    x = networkx.create_tuple G key x.2 ∧ x.2 ∈ networkx._node G;
  si_out : ∀ v, v ∈ out → v ∈ networkx._node G;
  si_imap : ∀ v, v ∈ networkx._node G →
    indegree_map !! v =
      if decide (waiting G out v = 0) then None
      else Some (Z.of_nat (waiting G out v));
  si_imap_dom : ∀ v, is_Some (indegree_map !! v) → v ∈ networkx._node G;
  si_ready : ∀ v, v ∈ networkx._node G →
    waiting G out v = 0 ↔ (v ∈ zero_indegree.*2 ∨ v ∈ out);
  si_topo : ∀ i v p, out !! i = Some v → p ∈ networkx.pred G v → p ∈ take i out;
  si_least : ∀ i n m, out !! i = Some n → ready G (take i out) m →
    ¬ networkx.item_lt K_lt (networkx.create_tuple G key m)
        (networkx.create_tuple G key n);
}.

(** What the loop of the sort returns: the nodes yielded, when the map is
    empty at the end, and otherwise the cycle error, with nodes that never
    became ready. *)
Definition sort_outcome {K} `{EqDecision K} (K_lt : relation K)
    (G : networkx.DiGraph) (key : nat → K) (r : res (list nat)) : Prop :=
  match r with
  | Ok order => sort_inv K_lt G key ∅ [] order
  | Raise e =>
      e = NetworkXUnfeasible ∧
      ∃ indegree_map out,
        indegree_map ≠ ∅ ∧ sort_inv K_lt G key indegree_map [] out
  end.

Section vocabulary.
Context {Task : Type} `{TaskClass Task} `{!SetOrder Task}.

(** The tasks that [_build_dependencies] visits: the targets, and the
    arguments of the visited tasks that are not cached. *)
Inductive reachable (cached : gmap Task value) (targets : list Task)
    : Task → Prop :=
  | reachable_target t :
      t ∈ targets → reachable cached targets t
  | reachable_dep t d :
      reachable cached targets t → cached !! t = None →
      d ∈ (arguments t).*2 → reachable cached targets d.

(** [d] is a dependency of [t], a visited task that is not cached. *)
Definition depends_on (cached : gmap Task value) (targets : list Task)
    (d t : Task) : Prop :=
  reachable cached targets t ∧ cached !! t = None ∧ d ∈ (arguments t).*2.

(** The dependency relation has no cycle. *)
Definition acyclic (cached : gmap Task value) (targets : list Task) : Prop :=
  ∀ t, ¬ tc (depends_on cached targets) t t.

(** What [_build_dependencies] returns: one entry for every visited task,
    with the set of its arguments, empty for a cached task. *)
Record deps_spec (cached : gmap Task value) (targets : list Task)
    (deps : list (Task * list Task)) : Prop := {
  ds_keys_nodup : NoDup deps.*1;
  ds_keys : ∀ t, t ∈ deps.*1 ↔ reachable cached targets t;
  ds_sets_nodup : ∀ t ds, (t, ds) ∈ deps → NoDup ds;
  ds_sets : ∀ t ds d, (t, ds) ∈ deps →
    d ∈ ds ↔ cached !! t = None ∧ d ∈ (arguments t).*2;
}.

(** The invariant of the loop of [_build_dependencies]. *)
Record deps_inv (cached : gmap Task value) (targets : list Task)
    (deps : list (Task * list Task)) (to_process : list Task) : Prop := {
  di_keys_nodup : NoDup deps.*1;
  di_sets_nodup : ∀ t ds, (t, ds) ∈ deps → NoDup ds;
  di_sets : ∀ t ds d, (t, ds) ∈ deps →
    d ∈ ds ↔ cached !! t = None ∧ d ∈ (arguments t).*2;
  di_keys_reachable : ∀ t, t ∈ deps.*1 → reachable cached targets t;
  di_stack_reachable : ∀ t, t ∈ to_process → reachable cached targets t;
  di_targets : ∀ t, t ∈ targets → t ∈ deps.*1 ∨ t ∈ to_process;
  di_closed : ∀ t ds d, (t, ds) ∈ deps → d ∈ ds →
    d ∈ deps.*1 ∨ d ∈ to_process;
}.

(** The work that is left to the loop of [_build_dependencies], when all the
    tasks it can visit are in [universe]. *)
Definition deps_measure (universe : list Task)
    (deps : list (Task * list Task)) (to_process : list Task) : nat :=
  length to_process +
  sum_list (map (λ t, S (length (arguments t)))
                (filter (.∉ deps.*1) universe)).

(** [node_indices] and [node_values] are inverse to each other. *)
Record index_inv (st : index_state (Task:=Task)) : Prop := {
  ii_nodup : NoDup (node_values st);
  ii_size : size (node_indices st) = length (node_values st);
  ii_lookup : ∀ n i,
    node_indices st !! n = Some i ↔ node_values st !! i = Some n;
}.

(** The edges that [_make_schedule] gives to the graph, between nodes:
    from every dependency to its dependent, and from the dummy node to every
    target. *)
Definition node_pairs (dependencies : list (Task * list Task))
    (targets : list Task) : list (node (Task:=Task) * node (Task:=Task)) :=
  flat_map (λ '(t, ds), map (λ d, (NTask d, NTask t)) (set_iter ds))
           dependencies
  ++ map (λ t, (NDummy, NTask t)) targets.

(** The edges in [edge_tups] are the [pairs], through [node_values]. *)
Record edges_inv (pairs : list (node (Task:=Task) * node (Task:=Task)))
    (acc : list (nat * nat) * index_state (Task:=Task)) : Prop := {
  ei_index : index_inv acc.2;
  ei_edges : ∀ i j, (i, j) ∈ acc.1 ↔
    ∃ a b, (a, b) ∈ pairs ∧
           node_values acc.2 !! i = Some a ∧ node_values acc.2 !! j = Some b;
  ei_nodes : ∀ a b, (a, b) ∈ pairs →
    a ∈ node_values acc.2 ∧ b ∈ node_values acc.2;
}.

(** What [_make_graph] returns. *)
Record make_graph_spec (dependencies : list (Task * list Task))
    (targets : list Task) (sg : schedule_graph (Task:=Task)) : Prop := {
  mg_nodup : NoDup (sg_node_values sg);
  mg_dummy : sg_node_values sg !! sg_dummy_index sg = Some NDummy;
  mg_graph : ∃ es, graph_of es (sg_graph sg);
  mg_edges : ∀ i j, edge (sg_graph sg) i j ↔
    ∃ a b, (a, b) ∈ node_pairs dependencies targets ∧
           sg_node_values sg !! i = Some a ∧ sg_node_values sg !! j = Some b;
  mg_nodes : ∀ a b, (a, b) ∈ node_pairs dependencies targets →
    a ∈ sg_node_values sg ∧ b ∈ sg_node_values sg;
}.

(** [task] reads the value of [k], or is [k] itself. *)
Definition uses (dependencies : list (Task * list Task)) (task k : Task)
    : Prop :=
  k = task ∨ k ∈ dependencies_get dependencies task.

(** [v] is the last index of [sched] whose task uses [k]. *)
Definition is_last_use (dependencies : list (Task * list Task))
    (sched : list Task) (k : Task) (v : nat) : Prop :=
  (∃ task, sched !! v = Some task ∧ uses dependencies task k) ∧
  ∀ j task, v < j → sched !! j = Some task → ¬ uses dependencies task k.

(** What the list comprehension of [_make_schedule] keeps of an index. *)
Definition keep (cached : gmap Task value) (sg : schedule_graph (Task:=Task))
    (idx : nat) : option Task :=
  match sg_node_values sg !! idx with
  | Some (NTask t) =>
      if decide (idx ≠ sg_dummy_index sg ∧ cached !! t = None) then Some t
      else None
  | _ => None
  end.

(** What [_make_schedule] returns as the schedule. *)
Record schedule_spec (cached : gmap Task value) (targets : list Task)
    (sched : list Task) : Prop := {
  ss_nodup : NoDup sched;
  ss_elem : ∀ t, t ∈ sched ↔ reachable cached targets t ∧ cached !! t = None;
  ss_order : ∀ i t d, sched !! i = Some t → d ∈ (arguments t).*2 →
    cached !! d = None → ∃ j, j < i ∧ sched !! j = Some d;
}.

(** What is known of an executor that was built in heap [h]. *)
Record executor_wf (h : gmap loc (gmap Task value)) (self : Executor) : Prop := {
  ew_deps : deps_spec (cached_or_empty h (cached_values self)) (targets self)
              (dependencies self);
  ew_sched : schedule_spec (cached_or_empty h (cached_values self))
               (targets self) (schedule self);
}.

(** [k] has been put into [values] before turn [n]: it was cached, or it is
    one of the first [n] tasks of the schedule. *)
Definition stored_by (h : gmap loc (gmap Task value)) (self : Executor)
    (n : nat) (k : Task) : Prop :=
  is_Some (cached_or_empty h (cached_values self) !! k) ∨
  ∃ i, i < n ∧ schedule self !! i = Some k.

(** The invariant of the main loop of [run], before turn [n]. *)
Record run_inv (h : gmap loc (gmap Task value)) (self : Executor) (n : nat)
    (st : run_state) : Prop := {
  ri_frame : ∀ l, l ≠ values_loc h → st_heap st !! l = h !! l;
  ri_raised : ∀ e, st_raised st = Some e → ∃ msg, e = TaskExecutionError msg;
  ri_values : st_raised st = None → ∀ k,
    is_Some ((st_heap st !!! values_loc h) !! k) ↔
    stored_by h self n k ∧
    ∃ last, last_use_index self h !! k = Some last ∧ n ≤ last;
  ri_cached : st_raised st = None → ∀ k v,
    cached_or_empty h (cached_values self) !! k = Some v →
    is_Some ((st_heap st !!! values_loc h) !! k) →
    (st_heap st !!! values_loc h) !! k = Some v;
  ri_yielded : st_raised st = None →
    (st_yielded st).*1 = filter (.∈ targets self) (take n (schedule self));
  ri_yielded_values : ∀ t v, (t, v) ∈ st_yielded st →
    ∃ arguments r,
      execute t arguments = Returns r ∧
      v = _move_tensors r (storage_device self);
  ri_executed : st_raised st = None →
    st_executed st = take n (schedule self);
}.

End vocabulary.

(** [x] comes before [y] in [l]. *)
Definition before {A} (l : list A) (x y : A) : Prop :=
  ∃ l1 l2 l3, l = l1 ++ x :: l2 ++ y :: l3.

(** ** Scenarios *)

(** Sets iterated in insertion order. *)
Definition insertion_order (A : Type) : SetOrder A :=
  {| set_iter := id; set_iter_perm := λ l, Permutation_refl l |}.

(** Tasks named by a string.  [args] gives the dependencies of a task, each
    passed under its own name; [prio] gives the priorities that are not 0;
    there are no group labels.  A task returns one more than the sum of the
    integers it is given. *)
Definition sum_plus_one (arguments : list (string * value)) : outcome :=
  Returns (VInt (foldr (λ kv acc,
                     match kv.2 with VInt z => (z + acc)%Z | _ => acc end)
                  1%Z arguments)).

Definition demo_tasks (args : list (string * list string))
    (prio : list (string * Z)) : TaskClass string :=
  {| arguments t := map (λ d, (d, d)) (default [] (alist_lookup t args));
     execute _ arguments := sum_plus_one arguments;
     priority t := default 0%Z (alist_lookup t prio);
     group_label _ := None;
     uses_accelerator _ := false;
     main_thread_only _ := false |}.

(** A -> B -> C -> D *)
Definition chain_tasks : TaskClass string :=
  demo_tasks [("B", ["A"]); ("C", ["B"]); ("D", ["C"])] [].

(** B and C depend on A. *)
Definition fanout_tasks : TaskClass string :=
  demo_tasks [("B", ["A"]); ("C", ["A"])] [].

(** B depends on A and computes A + 1. *)
Definition cached_tasks : TaskClass string :=
  demo_tasks [("B", ["A"])] [].

(** Z depends on the leaves X (priority 1) and Y (priority 5). *)
Definition hints_tasks : TaskClass string :=
  demo_tasks [("Z", ["X"; "Y"])] [("X", 1%Z); ("Y", 5%Z)].

(** A depends on B and B depends on A. *)
Definition cycle_tasks : TaskClass string :=
  demo_tasks [("A", ["B"]); ("B", ["A"])] [].

(** The scenarios run on the cpu, with sets iterated in insertion order. *)
Definition demo_init (tasks : TaskClass string)
    (h : gmap loc (gmap string value)) (fuel : nat) (targets : list string)
    (cached_values : option loc) : option (res Executor) :=
  __init__ (H0 := tasks) (SetOrder0 := insertion_order string)
    h fuel targets "cpu" "cpu" cached_values.

Definition demo_values (tasks : TaskClass string) (self : Executor)
    (h : gmap loc (gmap string value)) (n : nat) : gmap string value :=
  values_after (H0 := tasks) (SetOrder0 := insertion_order string) self h n.

Definition demo_run (tasks : TaskClass string) (self : Executor)
    (h : gmap loc (gmap string value)) : run_state :=
  run (H0 := tasks) (SetOrder0 := insertion_order string) self h.

(** A heap without dictionaries, and one where the dictionary at 1 holds the
    value 5 for A. *)
Definition no_heap : gmap loc (gmap string value) := ∅.
Definition cached_heap : gmap loc (gmap string value) :=
  {[ 1%positive := {[ "A" := VInt 5 ]} ]}.

(** A heap where the dictionary at 1 holds the value 5 for A and the value 9
    for U, a task that no task reads. *)
Definition cached_unread_heap : gmap loc (gmap string value) :=
  {[ 1%positive := {[ "A" := VInt 5; "U" := VInt 9 ]} ]}.

(** ** The claims that do not hold as they are stated *)

Section stated_claims.
Context {Task : Type} `{TaskClass Task} `{!SetOrder Task}.

(** Exactly one pair is yielded for every requested target. *)
Definition yields_each_target (self : Executor (Task:=Task))
    (st : run_state (Task:=Task)) : Prop :=
  ∀ t, t ∈ targets self →
       length (filter (λ p, p.1 = t) (st_yielded st)) = 1.

(** The dummy node has the key ("", 0), and it is the node placed whenever
    it is ready. *)
Definition root_sorts_first (sg : schedule_graph (Task:=Task))
    (order : list nat) : Prop :=
  _compare_key (sg_node_values sg) (sg_dummy_index sg) = ("", 0%Z) ∧
  ∀ i n, order !! i = Some n →
         ready (sg_graph sg) (take i order) (sg_dummy_index sg) →
         n = sg_dummy_index sg.


End stated_claims.

(** ** Vocabulary of the further properties *)



Section further_vocabulary.
Context {Task : Type} `{TaskClass Task} `{!SetOrder Task}.

(** The state of [_index] after it was called on the nodes [ns], one after
    the other, starting with empty [node_indices] and [node_values]. *)
Definition index_calls (ns : list (node (Task:=Task)))
    : index_state (Task:=Task) :=
  foldl (λ st n, (_index n st).2) (mkIndexState ∅ []) ns.

(** The value that the graph gives to a task, by plain recursion over its
    arguments, without a schedule and without a store: a cached task has its
    cached value; any other task has what its [execute] returns on the values
    of its arguments, moved as [run] moves them.  [None] when a call of
    [execute] raises, or when [fuel] nested calls are not enough. *)
Fixpoint value_of (md sd : string) (cached : gmap Task value) (fuel : nat)
    (t : Task) : option value :=
  match fuel with
  | 0 => None
  | S fuel =>
      match cached !! t with
      | Some v => Some v
      | None =>
          match mapM (λ a : string * Task,
                        match value_of md sd cached fuel a.2 with
                        | Some v =>
                            Some (a.1, if uses_accelerator t
                                       then _move_tensors v md else v)
                        | None => None
                        end) (arguments t) with
          | Some arguments =>
              match execute t arguments with
              | Returns r => Some (_move_tensors r sd)
              | Raises _ => None
              end
          | None => None
          end
      end
  end.

(** What [value_of] gives [t] for its argument [a]: the name of the
    argument, with the value of the task behind it. *)
Definition argument_of (md sd : string) (cached : gmap Task value) (t : Task)
    (fuel : nat) (a : string * Task) (nv : string * value) : Prop :=
  ∃ w, value_of md sd cached fuel a.2 = Some w ∧
       nv = (a.1, if uses_accelerator t then _move_tensors w md else w).


End further_vocabulary.

(** ** Further scenarios *)

(** A -> B -> C, where the [execute] of B raises. *)
Definition failing_tasks : TaskClass string :=
  {| arguments t :=
       map (λ d, (d, d))
           (default [] (alist_lookup t [("B", ["A"]); ("C", ["B"])]));
     execute t arguments :=
       if decide (t = "B") then Raises "boom" else sum_plus_one arguments;
     priority _ := 0%Z;
     group_label _ := None;
     uses_accelerator _ := false;
     main_thread_only _ := false |}.
(** * Part II: properties *)

#[global] Instance lex_lt_strict {A B} `{EqDecision A}
    (ltA : relation A) (ltB : relation B)
    `{!StrictOrder ltA, !StrictOrder ltB} : StrictOrder (lex_lt ltA ltB).
Proof.
  split.
  - intros [a b]. unfold complement, lex_lt. simpl.
    rewrite decide_True by done. apply irreflexivity, _.
  - intros [a1 b1] [a2 b2] [a3 b3]. unfold lex_lt. simpl.
    repeat case_decide; subst; try done.
    + by etrans.
    + intros H1 H2. destruct (irreflexivity ltA a3). by etrans.
    + by etrans.
Qed.

#[global] Instance lex_lt_trichotomy {A B} `{EqDecision A}
    (ltA : relation A) (ltB : relation B)
    `{!Trichotomy ltA, !Trichotomy ltB} : Trichotomy (lex_lt ltA ltB).
Proof.
  intros [a1 b1] [a2 b2]. unfold lex_lt. simpl.
  destruct (decide (a1 = a2)) as [->|Hne].
  - rewrite decide_True by done.
    destruct (trichotomy ltB b1 b2) as [?|[->|?]]; auto.
  - rewrite (decide_False (P := a2 = a1)) by done.
    destruct (trichotomy ltA a1 a2) as [?|[?|?]]; auto. done.
Qed.

(** In a strict total order, "not greater" is transitive. *)
Lemma not_lt_trans {A} (lt : relation A) `{!StrictOrder lt, !Trichotomy lt}
    (x y z : A) :
  ¬ lt y x → ¬ lt z y → ¬ lt z x.
Proof.
  intros Hyx Hzy Hzx.
  destruct (trichotomy lt x y) as [Hxy|[->|Hxy]]; [|done..].
  apply Hzy. by etrans.
Qed.

#[global] Instance nat_lt_trichotomy : Trichotomy Nat.lt.
Proof. intros x y. unfold Nat.lt. lia. Qed.
#[global] Instance Z_lt_trichotomy : Trichotomy Z.lt.
Proof. intros x y. lia. Qed.
#[global] Instance string_lt_trichotomy : Trichotomy (strict String.le).
Proof.
  intros s1 s2. destruct (decide (s1 = s2)) as [|Hne]; [by auto|].
  destruct (total String.le s1 s2).
  - left. by apply strict_spec_alt.
  - right; right. by apply strict_spec_alt.
Qed.
(** ** Graphs built from a list of edges *)

Lemma elem_of_set_add `{EqDecision A} (x y : A) (s : list A) :
  y ∈ set_add x s ↔ y = x ∨ y ∈ s.
Proof.
  unfold set_add. case_decide; [set_solver|].
  rewrite elem_of_app, list_elem_of_singleton. tauto.
Qed.

Lemma NoDup_set_add `{EqDecision A} (x : A) (s : list A) :
  NoDup s → NoDup (set_add x s).
Proof.
  intros Hs. unfold set_add. case_decide; [done|].
  apply NoDup_app. split_and!; [done| |apply NoDup_singleton].
  intros y Hy ->%list_elem_of_singleton. done.
Qed.

Lemma elem_of_foldl_set_add `{EqDecision A} (l s : list A) (y : A) :
  y ∈ foldl (flip set_add) s l ↔ y ∈ l ∨ y ∈ s.
Proof.
  revert s. induction l as [|x l IH]; intros s; simpl.
  - set_solver.
  - rewrite IH. unfold flip. rewrite elem_of_set_add, elem_of_cons. tauto.
Qed.

Lemma NoDup_foldl_set_add `{EqDecision A} (l s : list A) :
  NoDup s → NoDup (foldl (flip set_add) s l).
Proof.
  revert s. induction l as [|x l IH]; intros s Hs; simpl; [done|].
  apply IH. by apply NoDup_set_add.
Qed.

Lemma filter_ext_elem_of {A} (P Q : A → Prop)
    `{!∀ x, Decision (P x), !∀ x, Decision (Q x)} (l : list A) :
  (∀ x, x ∈ l → P x ↔ Q x) → filter P l = filter Q l.
Proof.
  induction l as [|x l IH]; intros Hl; [done|].
  assert (filter P l = filter Q l) as IH' by (apply IH; set_solver).
  destruct (decide (P x)) as [HP|HP].
  - rewrite !filter_cons_True; [by f_equal|by apply Hl; [left|]|done].
  - rewrite !filter_cons_False; [done| |done].
    intros HQ. apply HP, Hl; [by left|done].
Qed.

Lemma list_empty_no_elem {A} (l : list A) : (∀ x, x ∉ l) → l = [].
Proof. destruct l as [|x l]; [done|]. intros Hl. destruct (Hl x). by left. Qed.

Lemma graph_of_empty : graph_of [] networkx.empty_graph.
Proof.
  split; simpl; unfold networkx.succ, networkx.pred; simpl.
  - constructor.
  - intros n. split; [by intros ?%elem_of_nil|].
    by intros (e & ?%elem_of_nil & _).
  - intros u v. rewrite lookup_empty. simpl. set_solver.
  - intros u v. rewrite lookup_empty. simpl. set_solver.
  - intros u. rewrite lookup_empty. constructor.
  - intros u. rewrite lookup_empty. constructor.
Qed.

Lemma add_node_nodes n G m :
  m ∈ networkx._node (networkx.add_node n G) ↔ m = n ∨ m ∈ networkx._node G.
Proof.
  unfold networkx.add_node. case_decide; simpl.
  - split; [auto|]. by intros [->|?].
  - rewrite elem_of_app, list_elem_of_singleton. tauto.
Qed.

Lemma add_node_nodup n G :
  NoDup (networkx._node G) → NoDup (networkx._node (networkx.add_node n G)).
Proof.
  intros HG. unfold networkx.add_node. case_decide; simpl; [done|].
  apply NoDup_app. split_and!; [done| |apply NoDup_singleton].
  intros y Hy ->%list_elem_of_singleton. done.
Qed.

Lemma add_node_succ n G u :
  (∀ v, v ∈ networkx.succ G n → n ∈ networkx._node G) →
  networkx.succ (networkx.add_node n G) u = networkx.succ G u.
Proof.
  intros Hn. unfold networkx.add_node. case_decide as Hin; simpl; [done|].
  unfold networkx.succ at 1. simpl.
  destruct (decide (n = u)) as [->|Hne].
  - rewrite lookup_insert_eq. simpl. symmetry.
    apply list_empty_no_elem. intros v Hv. apply Hin. eauto.
  - by rewrite lookup_insert_ne.
Qed.

Lemma add_node_pred n G v :
  (∀ u, u ∈ networkx.pred G n → n ∈ networkx._node G) →
  networkx.pred (networkx.add_node n G) v = networkx.pred G v.
Proof.
  intros Hn. unfold networkx.add_node. case_decide as Hin; simpl; [done|].
  unfold networkx.pred at 1. simpl.
  destruct (decide (n = v)) as [->|Hne].
  - rewrite lookup_insert_eq. simpl. symmetry.
    apply list_empty_no_elem. intros u Hu. apply Hin. eauto.
  - by rewrite lookup_insert_ne.
Qed.

Lemma graph_of_succ_node es G u v :
  graph_of es G → v ∈ networkx.succ G u → u ∈ networkx._node G.
Proof.
  intros HG Hv. apply (go_nodes _ _ HG). exists (u, v). split; [|by left].
  by apply (go_succ _ _ HG).
Qed.

Lemma graph_of_pred_node es G u v :
  graph_of es G → u ∈ networkx.pred G v → v ∈ networkx._node G.
Proof.
  intros HG Hv. apply (go_nodes _ _ HG). exists (u, v). split; [|by right].
  by apply (go_pred _ _ HG).
Qed.

Lemma graph_of_add_edge es G e :
  graph_of es G → graph_of (es ++ [e]) (networkx.add_edge G e).
Proof.
  intros HG. destruct e as [a b].
  set (G1 := networkx.add_node a G).
  assert (Hs1 : ∀ u, networkx.succ G1 u = networkx.succ G u).
  { intros u. apply add_node_succ. intros v. by apply graph_of_succ_node with es. }
  assert (Hp1 : ∀ u, networkx.pred G1 u = networkx.pred G u).
  { intros u. apply add_node_pred. intros v. by apply graph_of_pred_node with es. }
  set (G2 := networkx.add_node b G1).
  assert (Hs2 : ∀ u, networkx.succ G2 u = networkx.succ G u).
  { intros u. rewrite <-Hs1. apply add_node_succ. intros v. rewrite Hs1.
    intros Hv. apply add_node_nodes. right. by apply graph_of_succ_node with es v. }
  assert (Hp2 : ∀ u, networkx.pred G2 u = networkx.pred G u).
  { intros u. rewrite <-Hp1. apply add_node_pred. intros v. rewrite Hp1.
    intros Hv. apply add_node_nodes. right. by apply graph_of_pred_node with es v. }
  assert (Hsucc : ∀ u, networkx.succ (networkx.add_edge G (a, b)) u =
            if decide (a = u) then set_add b (networkx.succ G a)
            else networkx.succ G u).
  { intros u. unfold networkx.add_edge. simpl. fold G1. fold G2.
    unfold networkx.succ at 1. simpl. case_decide as Hu.
    - subst u. rewrite lookup_insert_eq. simpl. by rewrite Hs2.
    - rewrite lookup_insert_ne by done. apply Hs2. }
  assert (Hpred : ∀ v, networkx.pred (networkx.add_edge G (a, b)) v =
            if decide (b = v) then set_add a (networkx.pred G b)
            else networkx.pred G v).
  { intros v. unfold networkx.add_edge. simpl. fold G1. fold G2.
    unfold networkx.pred at 1. simpl. case_decide as Hv.
    - subst v. rewrite lookup_insert_eq. simpl. by rewrite Hp2.
    - rewrite lookup_insert_ne by done. apply Hp2. }
  split.
  - unfold networkx.add_edge. simpl. apply add_node_nodup, add_node_nodup.
    apply HG.
  - intros n. unfold networkx.add_edge. simpl.
    rewrite !add_node_nodes, (go_nodes _ _ HG). split.
    + intros [->|[->|(e & He & Hn)]].
      * exists (a, b). split; [set_solver|by right].
      * exists (a, b). split; [set_solver|by left].
      * exists e. split; [set_solver|done].
    + intros (e & [He| ->%list_elem_of_singleton]%elem_of_app & Hn).
      * right; right. by exists e.
      * simpl in Hn. tauto.
  - intros u v. rewrite Hsucc, elem_of_app, list_elem_of_singleton.
    case_decide as Hu.
    + subst u. rewrite elem_of_set_add, (go_succ _ _ HG). naive_solver.
    + rewrite (go_succ _ _ HG). naive_solver.
  - intros u v. rewrite Hpred, elem_of_app, list_elem_of_singleton.
    case_decide as Hv.
    + subst v. rewrite elem_of_set_add, (go_pred _ _ HG). naive_solver.
    + rewrite (go_pred _ _ HG). naive_solver.
  - intros u. rewrite Hsucc. case_decide; [apply NoDup_set_add|]; apply HG.
  - intros v. rewrite Hpred. case_decide; [apply NoDup_set_add|]; apply HG.
Qed.

Lemma graph_of_DiGraph_of es : graph_of es (networkx.DiGraph_of es).
Proof.
  unfold networkx.DiGraph_of.
  induction es as [|e es IH] using rev_ind; [apply graph_of_empty|].
  rewrite foldl_app. simpl. by apply graph_of_add_edge.
Qed.

(** ** The heap *)

Section heap_facts.
Context {K : Type} `{EqDecision K} (K_lt : relation K) `{!RelDecision K_lt}.
Context `{!StrictOrder K_lt, !Trichotomy K_lt}.

Abbreviation item_lt := (networkx.item_lt K_lt).

#[local] Instance item_lt_strict : StrictOrder item_lt.
Proof. unfold networkx.item_lt. apply _. Qed.
#[local] Instance item_lt_trichotomy : Trichotomy item_lt.
Proof. unfold networkx.item_lt. apply _. Qed.

Lemma extract_min_perm x l m r :
  networkx.extract_min K_lt x l = (m, r) → x :: l ≡ₚ m :: r.
Proof.
  revert x m r. induction l as [|y l IH]; intros x m r; simpl.
  - by intros [= <- <-].
  - case_decide.
    + destruct (networkx.extract_min K_lt y l) as [m' r'] eqn:E.
      intros [= <- <-]. etrans; [apply perm_skip, (IH _ _ _ E)|].
      apply Permutation_swap.
    + destruct (networkx.extract_min K_lt x l) as [m' r'] eqn:E.
      intros [= <- <-]. etrans; [apply Permutation_swap|].
      etrans; [apply perm_skip, (IH _ _ _ E)|]. apply Permutation_swap.
Qed.

Lemma extract_min_least x l m r :
  networkx.extract_min K_lt x l = (m, r) → ∀ z, z ∈ x :: l → ¬ item_lt z m.
Proof.
  revert x m r. induction l as [|y l IH]; intros x m r; simpl.
  - intros [= <- <-] z ->%list_elem_of_singleton. apply irreflexivity, _.
  - case_decide as Hyx.
    + destruct (networkx.extract_min K_lt y l) as [m' r'] eqn:E.
      intros [= <- <-] z Hz.
      assert (Hy : ¬ item_lt y m') by (apply (IH _ _ _ E); by left).
      apply elem_of_cons in Hz as [->|Hz]; [|by apply (IH _ _ _ E)].
      intros Hx. apply Hy. by etrans.
    + destruct (networkx.extract_min K_lt x l) as [m' r'] eqn:E.
      intros [= <- <-] z Hz.
      assert (Hx : ¬ item_lt x m') by (apply (IH _ _ _ E); by left).
      apply elem_of_cons in Hz as [->|[->|Hz]%elem_of_cons].
      * done.
      * by apply (not_lt_trans item_lt) with x.
      * apply (IH _ _ _ E). by right.
Qed.

Lemma heappop_Some heap m r :
  networkx.heappop K_lt heap = Some (m, r) →
  heap ≡ₚ m :: r ∧ ∀ z, z ∈ heap → ¬ item_lt z m.
Proof.
  destruct heap as [|x l]; [done|]. simpl. intros [= E].
  eauto using extract_min_perm, extract_min_least.
Qed.

Lemma heappop_None heap : networkx.heappop K_lt heap = None → heap = [].
Proof. by destruct heap. Qed.

End heap_facts.

(** ** The loop of the sort *)

Lemma tc_first {A} (R : relation A) x z : tc R x z → ∃ y, R x y.
Proof. intros [? ? ?|? y ? ? ?]; eauto. Qed.

Lemma tc_last {A} (R : relation A) x z : tc R x z → ∃ y, R y z.
Proof. induction 1; eauto. Qed.

Section sort_facts.
Context {K : Type} `{EqDecision K} (K_lt : relation K) `{!RelDecision K_lt}.
Context `{!StrictOrder K_lt, !Trichotomy K_lt}.
Context (es : list (nat * nat)) (G : networkx.DiGraph) (HG : graph_of es G).
Context (key : nat → K).

Lemma waiting_nil v : waiting G [] v = length (networkx.pred G v).
Proof.
  unfold waiting. f_equal. induction (networkx.pred G v) as [|x l IH]; [done|].
  rewrite filter_cons_True by set_solver. by f_equal.
Qed.

Lemma waiting_zero out v :
  waiting G out v = 0 ↔ ∀ p, p ∈ networkx.pred G v → p ∈ out.
Proof.
  unfold waiting. rewrite length_zero_iff_nil. split.
  - intros Hnil p Hp. destruct (decide (p ∈ out)) as [|Hn]; [done|].
    assert (p ∈ filter (.∉ out) (networkx.pred G v)) as Hin
      by by apply list_elem_of_filter.
    rewrite Hnil in Hin. by apply elem_of_nil in Hin.
  - intros Hall. apply list_empty_no_elem.
    intros p [Hn Hp]%list_elem_of_filter. auto.
Qed.

Lemma filter_not_in_snoc (out l : list nat) (u : nat) :
  NoDup l → u ∉ out →
  length (filter (.∉ out) l) =
    length (filter (.∉ out ++ [u]) l) + (if decide (u ∈ l) then 1 else 0).
Proof.
  intros Hl Hu. induction Hl as [|x l Hx Hl IH]; [done|].
  destruct (decide (x = u)) as [->|Hne].
  - rewrite filter_cons_True by done.
    rewrite filter_cons_False by set_solver.
    rewrite decide_True by set_solver.
    rewrite (decide_False (P := u ∈ l)) in IH by done. simpl. lia.
  - destruct (decide (x ∈ out)).
    + rewrite !filter_cons_False by set_solver. rewrite IH.
      repeat case_decide; set_solver.
    + rewrite !filter_cons_True by set_solver. simpl. rewrite IH.
      repeat case_decide; set_solver.
Qed.

Lemma waiting_snoc out u v :
  u ∉ out →
  waiting G out v =
    waiting G (out ++ [u]) v + (if decide (u ∈ networkx.pred G v) then 1 else 0).
Proof. intros Hu. apply filter_not_in_snoc; [apply HG|done]. Qed.

(** The loop over the children of the node taken from the heap, when every
    child [c] has its count [d c] in the map. *)
Lemma process_children_spec (d : nat → Z) children indegree_map zero_indegree :
  NoDup children →
  (∀ c, c ∈ children → indegree_map !! c = Some (d c)) →
  ∃ indegree_map',
    networkx.process_children G key children indegree_map zero_indegree =
      Ok (indegree_map',
          zero_indegree ++
            map (networkx.create_tuple G key)
                (filter (λ c, d c - 1 = 0)%Z children)) ∧
    ∀ v, indegree_map' !! v =
      if decide (v ∈ children)
      then (if decide (d v - 1 = 0)%Z then None else Some (d v - 1)%Z)
      else indegree_map !! v.
Proof.
  revert indegree_map zero_indegree.
  induction children as [|c children IH]; intros imap heap Hnd Hd;
    cbn [networkx.process_children].
  - exists imap. rewrite filter_nil. simpl. rewrite app_nil_r. split; [done|].
    done.
  - apply NoDup_cons in Hnd as [Hc Hnd].
    rewrite (Hd c) by set_solver.
    destruct (decide (d c - 1 = 0)%Z) as [Hz|Hz].
    + destruct (IH (delete c (<[c := (d c - 1)%Z]> imap))
                  (networkx.heappush heap (networkx.create_tuple G key c)) Hnd)
        as (imap' & -> & Himap').
      { intros c' Hc'. rewrite lookup_delete_ne, lookup_insert_ne by set_solver.
        apply Hd. set_solver. }
      exists imap'. split.
      * rewrite filter_cons_True by done. unfold networkx.heappush.
        by rewrite <-app_assoc.
      * intros v. rewrite Himap'. destruct (decide (v = c)) as [->|Hne].
        -- rewrite decide_False by done. rewrite decide_True by set_solver.
           rewrite decide_True by done. by rewrite lookup_delete_eq.
        -- rewrite lookup_delete_ne, lookup_insert_ne by done.
           repeat case_decide; set_solver.
    + destruct (IH (<[c := (d c - 1)%Z]> imap) heap Hnd) as (imap' & -> & Himap').
      { intros c' Hc'. rewrite lookup_insert_ne by set_solver.
        apply Hd. set_solver. }
      exists imap'. split.
      * by rewrite filter_cons_False by done.
      * intros v. rewrite Himap'. destruct (decide (v = c)) as [->|Hne].
        -- rewrite decide_False by done. rewrite decide_True by set_solver.
           rewrite decide_False by done. by rewrite lookup_insert_eq.
        -- rewrite lookup_insert_ne by done.
           repeat case_decide; set_solver.
Qed.

Lemma create_tuple_node v : (networkx.create_tuple G key v).2 = v.
Proof. done. Qed.

(** A smaller key makes a smaller entry of the heap. *)
Lemma item_lt_of_key_lt m n :
  K_lt (key m) (key n) →
  networkx.item_lt K_lt (networkx.create_tuple G key m)
    (networkx.create_tuple G key n).
Proof.
  intros Hlt. unfold networkx.item_lt, networkx.create_tuple, lex_lt. simpl.
  assert (key m ≠ key n) as Hne.
  { intros Heq. rewrite Heq in Hlt. by apply (irreflexivity K_lt) in Hlt. }
  rewrite decide_False by congruence. by rewrite decide_False by done.
Qed.

Lemma snd_create_tuples l : (map (networkx.create_tuple G key) l).*2 = l.
Proof. induction l as [|x l IH]; [done|]. simpl. by f_equal. Qed.

Lemma succ_pred u v : v ∈ networkx.succ G u ↔ u ∈ networkx.pred G v.
Proof. by rewrite (go_succ _ _ HG), (go_pred _ _ HG). Qed.

Lemma succ_nodes u v :
  v ∈ networkx.succ G u → u ∈ networkx._node G ∧ v ∈ networkx._node G.
Proof.
  intros Hv%(go_succ _ _ HG). split; apply (go_nodes _ _ HG); exists (u, v); auto.
Qed.

Lemma sort_step indegree_map zero_indegree out x zero_indegree' :
  sort_inv K_lt G key indegree_map zero_indegree out →
  networkx.heappop K_lt zero_indegree = Some (x, zero_indegree') →
  x.2 ∈ networkx._node G ∧ (x.2 ∉ out) ∧
  ∃ indegree_map' zero_indegree'',
    networkx.process_children G key (networkx.succ G x.2)
      indegree_map zero_indegree' = Ok (indegree_map', zero_indegree'') ∧
    sort_inv K_lt G key indegree_map' zero_indegree'' (out ++ [x.2]).
Proof.
  intros Hinv Hpop.
  destruct (heappop_Some K_lt _ _ _ Hpop) as [Hperm Hleast].
  set (u := x.2).
  assert (Hx : x ∈ zero_indegree) by (rewrite Hperm; by left).
  destruct (si_heap _ _ _ _ _ _ Hinv x Hx) as [Hxu Hu]. fold u in Hxu, Hu.
  assert (Hperm2 : zero_indegree.*2 ≡ₚ u :: zero_indegree'.*2)
    by (by rewrite Hperm).
  pose proof (si_nodup _ _ _ _ _ _ Hinv) as Hnd.
  rewrite Hperm2 in Hnd. simpl in Hnd.
  apply NoDup_cons in Hnd as [Hu_notin Hnd].
  apply not_elem_of_app in Hu_notin as [Hu_heap Hu_out].
  assert (Hwu : waiting G out u = 0).
  { apply (si_ready _ _ _ _ _ _ Hinv); [done|]. left. rewrite Hperm2. by left. }
  set (d := λ c, Z.of_nat (waiting G out c)).
  assert (Hw : ∀ v, waiting G out v =
            waiting G (out ++ [u]) v
            + (if decide (v ∈ networkx.succ G u) then 1 else 0)).
  { intros v. rewrite (waiting_snoc out u v Hu_out).
    destruct (decide (u ∈ networkx.pred G v)) as [Hp|Hp];
      [rewrite decide_True by by apply succ_pred
      |rewrite decide_False by by rewrite succ_pred]; done. }
  destruct (process_children_spec d (networkx.succ G u) indegree_map
              zero_indegree') as (imap' & Hproc & Himap').
  { apply HG. }
  { intros c Hc. rewrite (si_imap _ _ _ _ _ _ Hinv) by by apply (succ_nodes u).
    specialize (Hw c). rewrite decide_True in Hw by done.
    rewrite decide_False by lia. done. }
  split; [done|]. split; [done|].
  eexists _, _. split; [exact Hproc|].
  set (new := filter (λ c, d c - 1 = 0)%Z (networkx.succ G u)).
  assert (Hnew : ∀ c, c ∈ new ↔ c ∈ networkx.succ G u ∧ waiting G out c = 1).
  { intros c. unfold new. rewrite list_elem_of_filter. unfold d. split.
    - intros [? ?]. split; [done|lia].
    - intros [? ?]. split; [lia|done]. }
  assert (Hheap2 : (zero_indegree' ++ map (networkx.create_tuple G key) new).*2
            = zero_indegree'.*2 ++ new).
  { by rewrite fmap_app, snd_create_tuples. }
  assert (Hnew_fresh : ∀ c, c ∈ new → (c ∉ zero_indegree.*2) ∧ (c ∉ out)).
  { intros c [Hc Hc1]%Hnew.
    assert (¬ (c ∈ zero_indegree.*2 ∨ c ∈ out)); [|tauto].
    rewrite <-(si_ready _ _ _ _ _ _ Hinv) by by apply (succ_nodes u). lia. }
  split.
  - rewrite Hheap2. rewrite <-app_assoc.
    apply NoDup_app in Hnd as (Hnd1 & Hdisj & Hnd2).
    apply NoDup_app. split_and!; [done| |].
    { intros v Hv [Hv2|[Hv2|Hv2]%elem_of_app]%elem_of_app.
      - apply Hnew_fresh in Hv2 as [Hv2 _]. apply Hv2. rewrite Hperm2. by right.
      - by apply (Hdisj v).
      - apply list_elem_of_singleton in Hv2 as ->. done. }
    apply NoDup_app. split_and!.
    + apply NoDup_filter, HG.
    + intros v Hv [Hv2|Hv2]%elem_of_app.
      * by apply Hnew_fresh in Hv as [_ Hv].
      * apply list_elem_of_singleton in Hv2 as ->.
        apply Hnew_fresh in Hv as [Hv _]. apply Hv. rewrite Hperm2. by left.
    + apply NoDup_app. split_and!; [done| |apply NoDup_singleton].
      intros v Hv ->%list_elem_of_singleton. done.
  - intros y [Hy|Hy]%elem_of_app.
    + apply (si_heap _ _ _ _ _ _ Hinv). rewrite Hperm. by right.
    + apply list_elem_of_fmap in Hy as (c & -> & [Hc _]%Hnew). simpl.
      split; [done|]. by apply (succ_nodes u).
  - intros v [Hv| ->%list_elem_of_singleton]%elem_of_app; [|done].
    by apply (si_out _ _ _ _ _ _ Hinv).
  - intros v Hv. rewrite Himap'. generalize (Hw v).
    case_decide as Hsucc; intros Hwv.
    + unfold d. repeat case_decide; try done; try (exfalso; lia); f_equal; lia.
    + rewrite (si_imap _ _ _ _ _ _ Hinv) by done.
      repeat case_decide; try done; try (exfalso; lia); f_equal; lia.
  - intros v. rewrite Himap'. case_decide as Hsucc.
    + intros _. by apply (succ_nodes u).
    + apply (si_imap_dom _ _ _ _ _ _ Hinv).
  - intros v Hv. rewrite Hheap2.
    pose proof (si_ready _ _ _ _ _ _ Hinv v Hv) as Hr. rewrite Hperm2 in Hr.
    rewrite !elem_of_app, list_elem_of_singleton, Hnew.
    rewrite elem_of_cons in Hr. generalize (Hw v).
    case_decide as Hsucc; intros Hwv; split.
    + intros Hz. left; right. split; [done|lia].
    + intros [[Hv2|[_ Hv2]]|[Hv2| ->]]; [| lia | |].
      * assert (waiting G out v = 0) by (apply Hr; auto). lia.
      * assert (waiting G out v = 0) by (apply Hr; auto). lia.
      * lia.
    + intros Hz. assert (waiting G out v = 0) as Hz' by lia.
      apply Hr in Hz' as [[->|?]|?]; auto.
    + intros [[Hv2|[? _]]|[Hv2| ->]]; [| done | |].
      * assert (waiting G out v = 0) by (apply Hr; auto). lia.
      * assert (waiting G out v = 0) by (apply Hr; auto). lia.
      * lia.
  - intros i v p Hi Hp. destruct (decide (i < length out)) as [Hlt|Hge].
    + rewrite lookup_app_l in Hi by done. rewrite take_app_le by lia.
      by apply (si_topo _ _ _ _ _ _ Hinv i v p).
    + assert (i = length out) as ->.
      { apply lookup_lt_Some in Hi. rewrite length_app in Hi. simpl in Hi. lia. }
      rewrite list_lookup_middle in Hi by done. injection Hi as <-.
      rewrite take_app_length. by apply (waiting_zero out u).
  - intros i n m Hi Hready. destruct (decide (i < length out)) as [Hlt|Hge].
    + rewrite lookup_app_l in Hi by done. rewrite take_app_le in Hready by lia.
      by apply (si_least _ _ _ _ _ _ Hinv i n m).
    + assert (i = length out) as ->.
      { apply lookup_lt_Some in Hi. rewrite length_app in Hi. simpl in Hi. lia. }
      rewrite list_lookup_middle in Hi by done. injection Hi as <-.
      rewrite take_app_length in Hready. destruct Hready as (Hm & Hm_out & Hm_pred).
      assert (m ∈ zero_indegree.*2) as Hm_heap.
      { apply waiting_zero in Hm_pred.
        apply (si_ready _ _ _ _ _ _ Hinv) in Hm_pred as [?|?]; done. }
      apply list_elem_of_fmap in Hm_heap as (y & -> & Hy).
      destruct (si_heap _ _ _ _ _ _ Hinv y Hy) as [<- _].
      rewrite <-Hxu. by apply Hleast.
Qed.

Lemma filter_fmap {A B} (f : A → B) (P : B → Prop) `{!∀ x, Decision (P x)}
    (l : list A) :
  filter P (f <$> l) = f <$> filter (P ∘ f) l.
Proof.
  induction l as [|x l IH]; [done|]. rewrite fmap_cons.
  destruct (decide (P (f x))).
  - rewrite !filter_cons_True by done. rewrite fmap_cons. by f_equal.
  - by rewrite !filter_cons_False by done.
Qed.

Lemma sort_inv_init :
  sort_inv K_lt G key
    (list_to_map (filter (λ vd, 0 < vd.2)%Z (networkx.in_degree G)))
    (map (λ vd, networkx.create_tuple G key vd.1)
         (filter (λ vd, vd.2 = 0%Z) (networkx.in_degree G)))
    [].
Proof.
  set (g := λ v, (v, Z.of_nat (length (networkx.pred G v)))).
  assert (Hfst : ∀ l : list nat, (g <$> l).*1 = l).
  { intros l. rewrite <-list_fmap_compose. apply list_fmap_id. }
  assert (Hheap : (map (λ vd, networkx.create_tuple G key vd.1)
            (filter (λ vd, vd.2 = 0%Z) (networkx.in_degree G))).*2
            = filter (λ v, length (networkx.pred G v) = 0) (networkx._node G)).
  { unfold networkx.in_degree. fold g.
    induction (networkx._node G) as [|v l IH]; [done|]. rewrite fmap_cons.
    destruct (decide (length (networkx.pred G v) = 0)) as [Hz|Hz].
    - rewrite !filter_cons_True by (simpl; lia). simpl. by rewrite <-IH.
    - by rewrite !filter_cons_False by (simpl; lia). }
  assert (Himap : ∀ v, v ∈ networkx._node G →
            (list_to_map (filter (λ vd, 0 < vd.2)%Z (networkx.in_degree G))
               : gmap nat Z) !! v =
            if decide (length (networkx.pred G v) = 0) then None
            else Some (Z.of_nat (length (networkx.pred G v)))).
  { intros v Hv. unfold networkx.in_degree. fold g. rewrite (filter_fmap g).
    case_decide as Hz.
    - apply not_elem_of_list_to_map_1. rewrite Hfst.
      intros [Hv2 _]%list_elem_of_filter. simpl in Hv2. lia.
    - apply elem_of_list_to_map_1.
      + rewrite Hfst. apply NoDup_filter, HG.
      + apply (list_elem_of_fmap_2 g). apply list_elem_of_filter.
        split; [simpl; lia|done]. }
  split.
  - rewrite app_nil_r, Hheap. apply NoDup_filter, HG.
  - intros x (vd & -> & [_ Hvd]%list_elem_of_filter)%list_elem_of_fmap.
    simpl. split; [done|]. unfold networkx.in_degree in Hvd.
    by apply list_elem_of_fmap in Hvd as (v & -> & Hv).
  - by intros v ?%elem_of_nil.
  - intros v Hv. rewrite waiting_nil. by apply Himap.
  - intros v [d Hd]. apply elem_of_list_to_map_2 in Hd.
    apply list_elem_of_filter in Hd as [_ Hd]. unfold networkx.in_degree in Hd.
    by apply list_elem_of_fmap in Hd as (v' & [= -> _] & Hv).
  - intros v Hv. rewrite waiting_nil, Hheap, list_elem_of_filter.
    split; [auto|]. by intros [[? _]|?%elem_of_nil].
  - intros i v p. by rewrite lookup_nil.
  - intros i n m. by rewrite lookup_nil.
Qed.

Lemma sort_inv_out_length indegree_map zero_indegree out :
  sort_inv K_lt G key indegree_map zero_indegree out →
  length out ≤ length (networkx._node G).
Proof.
  intros Hinv. apply submseteq_length, NoDup_submseteq.
  - pose proof (si_nodup _ _ _ _ _ _ Hinv) as Hnd.
    by apply NoDup_app in Hnd as (_ & _ & Hnd).
  - apply (si_out _ _ _ _ _ _ Hinv).
Qed.

Lemma sort_loop_returns fuel indegree_map zero_indegree out :
  sort_inv K_lt G key indegree_map zero_indegree out →
  length (networkx._node G) < fuel + length out →
  ∃ r, networkx.sort_loop K_lt G key fuel indegree_map zero_indegree out
         = Some r ∧ sort_outcome K_lt G key r.
Proof.
  revert indegree_map zero_indegree out.
  induction fuel as [|fuel IH]; intros imap heap out Hinv Hfuel.
  - apply sort_inv_out_length in Hinv. lia.
  - cbn [networkx.sort_loop].
    destruct (networkx.heappop K_lt heap) as [[x heap']|] eqn:Hpop.
    + destruct (sort_step _ _ _ _ _ Hinv Hpop)
        as (Hu & Hu_out & imap' & heap'' & Hproc & Hinv').
      destruct x as [[k id] u]. simpl in *.
      rewrite decide_True by done. rewrite Hproc.
      apply IH; [done|]. rewrite length_app. simpl. lia.
    + apply heappop_None in Hpop as ->. case_decide as Hempty.
      * subst imap. by exists (Ok out).
      * exists (Raise NetworkXUnfeasible). split; [done|].
        split; [done|]. by exists imap, out.
Qed.

Lemma sort_returns :
  ∃ r, networkx.lexicographical_topological_sort K_lt G key = Some r ∧
       sort_outcome K_lt G key r.
Proof.
  unfold networkx.lexicographical_topological_sort.
  apply sort_loop_returns; [apply sort_inv_init|]. simpl. lia.
Qed.

Lemma sort_inv_final order :
  sort_inv K_lt G key ∅ [] order →
  NoDup order ∧ ∀ v, v ∈ order ↔ v ∈ networkx._node G.
Proof.
  intros Hinv. split.
  - apply (si_nodup _ _ _ _ _ _ Hinv).
  - intros v. split; [apply (si_out _ _ _ _ _ _ Hinv)|]. intros Hv.
    pose proof (si_imap _ _ _ _ _ _ Hinv v Hv) as Hm.
    rewrite lookup_empty in Hm. case_decide as Hz; [|done].
    apply (si_ready _ _ _ _ _ _ Hinv) in Hz as [?%elem_of_nil|?]; done.
Qed.

Lemma edge_before indegree_map zero_indegree order u v j :
  sort_inv K_lt G key indegree_map zero_indegree order →
  edge G u v → order !! j = Some v → ∃ i, i < j ∧ order !! i = Some u.
Proof.
  intros Hinv Huv%succ_pred Hj.
  pose proof (si_topo _ _ _ _ _ _ Hinv j v u Hj Huv) as Hu.
  apply elem_of_take in Hu as (i & ? & ?). eauto.
Qed.

Lemma tc_edge_before indegree_map zero_indegree order u v :
  sort_inv K_lt G key indegree_map zero_indegree order →
  tc (edge G) u v →
  ∀ j, order !! j = Some v → ∃ i, i < j ∧ order !! i = Some u.
Proof.
  intros Hinv. induction 1 as [u v Huv|u w v Huw _ IH]; intros j Hj.
  - by apply (edge_before _ _ _ _ _ _ Hinv Huv).
  - destruct (IH j Hj) as (i' & ? & Hi').
    destruct (edge_before _ _ _ _ _ _ Hinv Huw Hi') as (i & ? & ?).
    exists i. split; [lia|done].
Qed.

(** A sort that yields all the nodes shows that the graph has no cycle. *)
Lemma sort_Ok_acyclic order x :
  sort_inv K_lt G key ∅ [] order → ¬ tc (edge G) x x.
Proof.
  intros Hinv Hx.
  assert (x ∈ networkx._node G) as Hnode.
  { apply tc_last in Hx as (y & Hy). by apply succ_nodes in Hy as [_ ?]. }
  apply (sort_inv_final _ Hinv) in Hnode.
  apply list_elem_of_lookup in Hnode as [j Hj].
  induction (lt_wf j) as [j _ IH].
  destruct (tc_edge_before _ _ _ _ _ Hinv Hx j Hj) as (i & ? & ?). eauto.
Qed.

(** When the loop stops with nodes left in the map, there is a cycle. *)
Lemma sort_stuck_cyclic indegree_map out :
  indegree_map ≠ ∅ → sort_inv K_lt G key indegree_map [] out →
  ¬ ∀ x, ¬ tc (edge G) x x.
Proof.
  intros Hne Hinv Hacyclic.
  set (R := λ a b : nat, b ∈ networkx.pred G a ∧ b ∉ out).
  assert (Hnext : ∀ a, a ∈ networkx._node G → a ∉ out →
            ∃ b, R a b ∧ b ∈ networkx._node G).
  { intros a Ha Ha_out.
    assert (waiting G out a ≠ 0) as Hw.
    { intros [?%elem_of_nil|?]%(si_ready _ _ _ _ _ _ Hinv); done. }
    unfold waiting in Hw.
    destruct (filter (.∉ out) (networkx.pred G a)) as [|b l] eqn:Hf; [done|].
    assert (b ∈ filter (.∉ out) (networkx.pred G a)) as Hb
      by (rewrite Hf; by left).
    apply list_elem_of_filter in Hb as [Hb_out Hb].
    exists b. split; [done|]. apply succ_pred in Hb.
    by apply succ_nodes in Hb as [? _]. }
  assert (Hflip : ∀ a b, tc R a b → tc (edge G) b a).
  { induction 1 as [a b [Hab _]|a y b [Hay _] _ IH].
    - apply tc_once. by apply succ_pred.
    - eapply tc_r; [exact IH|]. by apply succ_pred. }
  assert (Hsn : ∀ a, sn R a).
  { intros a. apply tc_finite_sn.
    - intros x Hx%Hflip. by apply (Hacyclic x).
    - exists (networkx._node G). intros b Hb. apply Hflip in Hb.
      apply tc_first in Hb as (y & Hy).
      by apply succ_nodes in Hy as [? _]. }
  assert (Hfalse : ∀ a, a ∈ networkx._node G → a ∉ out → False).
  { intros a. induction (Hsn a) as [a _ IH]. intros Ha Ha_out.
    destruct (Hnext a Ha Ha_out) as (b & Hab & Hb).
    apply (IH b Hab Hb). apply Hab. }
  apply map_choose in Hne as (v & d & Hv).
  assert (v ∈ networkx._node G) as Hnode
    by (apply (si_imap_dom _ _ _ _ _ _ Hinv); eauto).
  apply (Hfalse v Hnode). intros Hout.
  rewrite (si_imap _ _ _ _ _ _ Hinv v Hnode) in Hv.
  rewrite decide_True in Hv; [done|].
  apply (si_ready _ _ _ _ _ _ Hinv); auto.
Qed.

Lemma sort_acyclic :
  (∀ x, ¬ tc (edge G) x x) →
  ∃ order, networkx.lexicographical_topological_sort K_lt G key
             = Some (Ok order) ∧
           sort_inv K_lt G key ∅ [] order.
Proof.
  intros Hacyclic. destruct sort_returns as ([order|e] & Hsort & Hr).
  - by exists order.
  - destruct Hr as (_ & imap & out & Hne & Hinv).
    by destruct (sort_stuck_cyclic _ _ Hne Hinv).
Qed.

Lemma sort_cyclic x :
  tc (edge G) x x →
  networkx.lexicographical_topological_sort K_lt G key
    = Some (Raise NetworkXUnfeasible).
Proof.
  intros Hx. destruct sort_returns as ([order|e] & Hsort & Hr).
  - by destruct (sort_Ok_acyclic order x Hr).
  - by destruct Hr as [-> _].
Qed.

(** The node placed at a turn has the least key of the nodes ready then. *)
Lemma sort_least_key indegree_map zero_indegree order i n m :
  sort_inv K_lt G key indegree_map zero_indegree order →
  order !! i = Some n → ready G (take i order) m →
  ¬ K_lt (key m) (key n).
Proof.
  intros Hinv Hi Hready Hlt%item_lt_of_key_lt.
  by apply (si_least _ _ _ _ _ _ Hinv i n m).
Qed.

Lemma sort_Ok_inv order :
  networkx.lexicographical_topological_sort K_lt G key = Some (Ok order) →
  sort_inv K_lt G key ∅ [] order.
Proof.
  intros Hsort. destruct sort_returns as (r & Hsort' & Hr).
  rewrite Hsort in Hsort'. by injection Hsort' as <-.
Qed.

End sort_facts.

(** ** [_build_dependencies] *)

Lemma list_pop_None {A} (l : list A) : list_pop l = None → l = [].
Proof.
  unfold list_pop. destruct (reverse l) as [|x r] eqn:E; [|done].
  intros _. apply (f_equal reverse) in E. by rewrite reverse_involutive in E.
Qed.

Lemma list_pop_Some {A} (l l' : list A) x :
  list_pop l = Some (x, l') → l = l' ++ [x].
Proof.
  unfold list_pop. destruct (reverse l) as [|y r] eqn:E; [done|].
  intros [= <- <-]. apply (f_equal reverse) in E.
  rewrite reverse_involutive in E. by rewrite E, reverse_cons.
Qed.

Section build_dependencies_facts.
Context {Task : Type} `{TaskClass Task} `{!SetOrder Task}.
Context (cached : gmap Task value) (targets : list Task).

Lemma deps_inv_init : deps_inv cached targets [] targets.
Proof.
  split; simpl.
  - constructor.
  - by intros t ds ?%elem_of_nil.
  - by intros t ds d ?%elem_of_nil.
  - by intros t ?%elem_of_nil.
  - intros t Ht. by apply reachable_target.
  - auto.
  - by intros t ds d ?%elem_of_nil.
Qed.

Lemma deps_inv_final deps :
  deps_inv cached targets deps [] → deps_spec cached targets deps.
Proof.
  intros Hinv. split.
  - apply Hinv.
  - intros t. split; [apply Hinv|].
    induction 1 as [t Ht|t d _ IH Hc Hd].
    + by destruct (di_targets _ _ _ _ Hinv t Ht) as [?|?%elem_of_nil].
    + apply list_elem_of_fmap in IH as ([t' ds] & -> & Hin). simpl in *.
      assert (d ∈ ds) as Hds by by apply (di_sets _ _ _ _ Hinv t').
      by destruct (di_closed _ _ _ _ Hinv t' ds d Hin Hds) as [?|?%elem_of_nil].
  - apply Hinv.
  - apply Hinv.
Qed.

Lemma deps_inv_skip deps to_process child :
  child ∈ deps.*1 →
  deps_inv cached targets deps (to_process ++ [child]) →
  deps_inv cached targets deps to_process.
Proof.
  intros Hchild Hinv. split; try apply Hinv.
  - intros t Ht. apply (di_stack_reachable _ _ _ _ Hinv). set_solver.
  - intros t Ht.
    destruct (di_targets _ _ _ _ Hinv t Ht)
      as [?|[?| ->%list_elem_of_singleton]%elem_of_app]; auto.
  - intros t ds d Hin Hd.
    destruct (di_closed _ _ _ _ Hinv t ds d Hin Hd)
      as [?|[?| ->%list_elem_of_singleton]%elem_of_app]; auto.
Qed.

Lemma deps_inv_visit deps to_process child ds extra :
  child ∉ deps.*1 →
  NoDup ds →
  (∀ d, d ∈ ds ↔ cached !! child = None ∧ d ∈ (arguments child).*2) →
  (∀ d, d ∈ extra ↔ d ∈ ds) →
  deps_inv cached targets deps (to_process ++ [child]) →
  deps_inv cached targets (deps ++ [(child, ds)]) (to_process ++ extra).
Proof.
  intros Hchild Hnd Hds Hextra Hinv.
  assert (Hreach : reachable cached targets child).
  { apply (di_stack_reachable _ _ _ _ Hinv). set_solver. }
  split.
  - rewrite fmap_app. simpl. apply NoDup_app. split_and!.
    + apply Hinv.
    + by intros t Ht ->%list_elem_of_singleton.
    + apply NoDup_singleton.
  - intros t ds' [Hin|[= -> ->]%list_elem_of_singleton]%elem_of_app; [|done].
    by apply (di_sets_nodup _ _ _ _ Hinv t).
  - intros t ds' d [Hin|[= -> ->]%list_elem_of_singleton]%elem_of_app; [|done].
    by apply (di_sets _ _ _ _ Hinv t).
  - intros t. rewrite fmap_app. simpl.
    intros [Ht| ->%list_elem_of_singleton]%elem_of_app; [|done].
    by apply (di_keys_reachable _ _ _ _ Hinv).
  - intros t [Ht|Ht]%elem_of_app.
    + apply (di_stack_reachable _ _ _ _ Hinv). set_solver.
    + apply Hextra, Hds in Ht as [Hc Ht]. by apply reachable_dep with child.
  - intros t Ht. rewrite fmap_app. simpl.
    destruct (di_targets _ _ _ _ Hinv t Ht) as [?|Hin]; [set_solver|].
    set_solver.
  - intros t ds' d. rewrite fmap_app. simpl.
    intros [Hin|[= -> ->]%list_elem_of_singleton]%elem_of_app Hd.
    + destruct (di_closed _ _ _ _ Hinv t ds' d Hin Hd) as [?|Hin']; set_solver.
    + apply Hextra in Hd. set_solver.
Qed.

Lemma _build_dependencies_loop_spec fuel deps to_process result :
  deps_inv cached targets deps to_process →
  _build_dependencies_loop cached fuel deps to_process = Some result →
  deps_spec cached targets result.
Proof.
  revert deps to_process.
  induction fuel as [|fuel IH]; intros deps to_process Hinv; [done|].
  cbn [_build_dependencies_loop].
  destruct (list_pop to_process) as [[child to_process']|] eqn:Hpop.
  - apply list_pop_Some in Hpop as ->.
    destruct (decide (child ∈ deps.*1)) as [Hin|Hin].
    { apply IH. by apply deps_inv_skip with child. }
    destruct (decide (is_Some (cached !! child))) as [Hc|Hc].
    + assert (deps_inv cached targets (deps ++ [(child, [])])
                (to_process' ++ [])) as Hinv'.
      { apply deps_inv_visit with (child := child); try done.
        - constructor.
        - intros d. split; [by intros ?%elem_of_nil|].
          intros [Hnone _]. rewrite Hnone in Hc. by destruct Hc. }
      rewrite app_nil_r in Hinv'. by apply IH.
    + apply eq_None_not_Some in Hc. apply IH.
      apply deps_inv_visit with (child := child); try done.
      * apply NoDup_foldl_set_add. constructor.
      * intros d. rewrite elem_of_foldl_set_add. set_solver.
      * intros d. rewrite elem_of_foldl_set_add. set_solver.
  - apply list_pop_None in Hpop as ->. intros [= <-].
    by apply deps_inv_final.
Qed.

Lemma _build_dependencies_spec fuel deps :
  _build_dependencies cached fuel targets = Some deps →
  deps_spec cached targets deps.
Proof. apply _build_dependencies_loop_spec, deps_inv_init. Qed.

Lemma sum_filter_snoc (f : Task → nat) (universe keys : list Task) c :
  NoDup universe → c ∈ universe → c ∉ keys →
  sum_list (map f (filter (.∉ keys) universe)) =
    sum_list (map f (filter (.∉ keys ++ [c]) universe)) + f c.
Proof.
  intros Hnd Hc Hkeys. induction Hnd as [|x l Hx Hnd IH]; [by apply elem_of_nil in Hc|].
  destruct (decide (x = c)) as [->|Hne].
  - rewrite filter_cons_True by done. rewrite filter_cons_False by set_solver.
    assert (filter (.∉ keys) l = filter (.∉ keys ++ [c]) l) as <-.
    { apply filter_ext_elem_of. intros y Hy.
      rewrite not_elem_of_app, list_elem_of_singleton.
      split; [|tauto]. intros ?. split; [done|]. by intros ->. }
    simpl. lia.
  - apply elem_of_cons in Hc as [->|Hc]; [done|]. specialize (IH Hc).
    destruct (decide (x ∈ keys)).
    + by rewrite !filter_cons_False by set_solver.
    + rewrite !filter_cons_True by set_solver. simpl. lia.
Qed.

Lemma _build_dependencies_loop_returns universe fuel deps to_process :
  NoDup universe →
  (∀ t, reachable cached targets t → t ∈ universe) →
  deps_inv cached targets deps to_process →
  deps_measure universe deps to_process < fuel →
  is_Some (_build_dependencies_loop cached fuel deps to_process).
Proof.
  intros Hnd Huniv. revert deps to_process.
  induction fuel as [|fuel IH]; intros deps to_process Hinv Hfuel; [lia|].
  cbn [_build_dependencies_loop].
  destruct (list_pop to_process) as [[child to_process']|] eqn:Hpop; [|done].
  apply list_pop_Some in Hpop as ->.
  unfold deps_measure in Hfuel. rewrite length_app in Hfuel. simpl in Hfuel.
  destruct (decide (child ∈ deps.*1)) as [Hin|Hin].
  { apply IH; [by apply deps_inv_skip with child|]. unfold deps_measure. lia. }
  assert (child ∈ universe) as Hchild.
  { apply Huniv, (di_stack_reachable _ _ _ _ Hinv). set_solver. }
  rewrite (sum_filter_snoc _ universe _ child Hnd Hchild Hin) in Hfuel.
  destruct (decide (is_Some (cached !! child))) as [Hc|Hc].
  - apply IH.
    + assert (deps_inv cached targets (deps ++ [(child, [])])
                (to_process' ++ [])) as Hinv'.
      { apply deps_inv_visit with (child := child); try done.
        - constructor.
        - intros d. split; [by intros ?%elem_of_nil|].
          intros [Hnone _]. rewrite Hnone in Hc. by destruct Hc. }
      by rewrite app_nil_r in Hinv'.
    + unfold deps_measure. rewrite fmap_app. simpl. lia.
  - apply eq_None_not_Some in Hc. apply IH.
    + apply deps_inv_visit with (child := child); try done.
      * apply NoDup_foldl_set_add. constructor.
      * intros d. rewrite elem_of_foldl_set_add. set_solver.
      * intros d. rewrite elem_of_foldl_set_add. set_solver.
    + unfold deps_measure. rewrite fmap_app, length_app, length_fmap. simpl. lia.
Qed.

(** When finitely many tasks can be visited, [_build_dependencies] returns,
    for every amount of fuel from some amount on. *)
Lemma _build_dependencies_returns :
  pred_finite (reachable cached targets) →
  ∃ fuel0, ∀ fuel, fuel0 ≤ fuel →
    ∃ deps, _build_dependencies cached fuel targets = Some deps ∧
            deps_spec cached targets deps.
Proof.
  intros [universe Huniv].
  exists (S (deps_measure (remove_dups universe) [] targets)).
  intros fuel Hfuel.
  destruct (_build_dependencies_loop_returns (remove_dups universe) fuel []
              targets) as [deps Hdeps].
  - apply NoDup_remove_dups.
  - intros t Ht. by apply elem_of_remove_dups, Huniv.
  - apply deps_inv_init.
  - lia.
  - exists deps. split; [done|]. by apply _build_dependencies_spec with fuel.
Qed.

End build_dependencies_facts.

(** ** [_make_schedule]: the graph *)

Section make_graph_facts.
Context {Task : Type} `{TaskClass Task} `{!SetOrder Task}.
Implicit Types (st : index_state (Task:=Task)).
Implicit Types (acc : list (nat * nat) * index_state (Task:=Task)).
Implicit Types (pairs : list (node (Task:=Task) * node (Task:=Task))).
Implicit Types (ab : node (Task:=Task) * node (Task:=Task)).

Lemma index_inv_empty : index_inv (mkIndexState (Task:=Task) ∅ []).
Proof.
  split; simpl.
  - constructor.
  - by rewrite map_size_empty.
  - intros n i. by rewrite lookup_empty, lookup_nil.
Qed.

Lemma index_inv_inj (st : index_state (Task:=Task)) i j n :
  index_inv st → node_values st !! i = Some n → node_values st !! j = Some n →
  i = j.
Proof. intros Hinv. apply NoDup_lookup, Hinv. Qed.

(** [_index] returns the index of the node, which it adds at the end when it
    is new; the nodes that were there keep their index. *)
Lemma _index_spec (n : node (Task:=Task)) st :
  index_inv st →
  index_inv (_index n st).2 ∧
  node_values (_index n st).2 !! (_index n st).1 = Some n ∧
  (∀ i a, node_values st !! i = Some a →
          node_values (_index n st).2 !! i = Some a) ∧
  (∀ a, a ∈ node_values (_index n st).2 ↔ a ∈ node_values st ∨ a = n).
Proof.
  intros Hinv. unfold _index.
  destruct (node_indices st !! n) as [i|] eqn:Hn; simpl.
  - apply (ii_lookup _ Hinv) in Hn. split_and!; [done..|].
    intros a. split; [auto|]. intros [?| ->]; [done|].
    by apply list_elem_of_lookup_2 in Hn.
  - assert (n ∉ node_values st) as Hfresh.
    { intros [i Hi]%list_elem_of_lookup. apply (ii_lookup _ Hinv) in Hi.
      congruence. }
    rewrite (ii_size _ Hinv). split_and!.
    + split; simpl.
      * apply NoDup_app. split_and!; [apply Hinv| |apply NoDup_singleton].
        by intros a Ha ->%list_elem_of_singleton.
      * rewrite map_size_insert_None by done. rewrite length_app. simpl.
        rewrite (ii_size _ Hinv). lia.
      * intros m i. destruct (decide (m = n)) as [->|Hne].
        -- rewrite lookup_insert_eq. split.
           ++ intros [= <-]. by apply list_lookup_middle.
           ++ intros Hi. f_equal.
              destruct (decide (i < length (node_values st))) as [Hlt|Hge].
              ** rewrite lookup_app_l in Hi by done.
                 by apply list_elem_of_lookup_2 in Hi.
              ** apply lookup_lt_Some in Hi. rewrite length_app in Hi.
                 simpl in Hi. lia.
        -- rewrite lookup_insert_ne by done. rewrite (ii_lookup _ Hinv).
           split.
           ++ intros Hi. by apply lookup_app_l_Some.
           ++ intros Hi.
              destruct (decide (i < length (node_values st))) as [Hlt|Hge].
              ** by rewrite lookup_app_l in Hi.
              ** rewrite lookup_app_r in Hi by lia.
                 apply list_lookup_singleton_Some in Hi as [_ ?]. done.
    + by apply list_lookup_middle.
    + intros i a Hi. by apply lookup_app_l_Some.
    + intros a. rewrite elem_of_app, list_elem_of_singleton. done.
Qed.

Lemma edges_inv_extend pairs es (st st' : index_state (Task:=Task)) :
  edges_inv pairs (es, st) → index_inv st' →
  (∀ i a, node_values st !! i = Some a → node_values st' !! i = Some a) →
  edges_inv pairs (es, st').
Proof.
  intros Hinv Hst' Hmono.
  assert (Hback : ∀ i a, a ∈ node_values st → node_values st' !! i = Some a →
            node_values st !! i = Some a).
  { intros i a [i0 Hi0]%list_elem_of_lookup Hi.
    by rewrite (index_inv_inj st' i i0 a Hst' Hi (Hmono _ _ Hi0)). }
  split; simpl.
  - done.
  - intros i j. rewrite (ei_edges _ _ Hinv i j). simpl. split.
    + intros (a & b & ? & ? & ?). exists a, b. auto.
    + intros (a & b & Hab & ? & ?). exists a, b.
      destruct (ei_nodes _ _ Hinv a b Hab). auto.
  - intros a b Hab. destruct (ei_nodes _ _ Hinv a b Hab) as [Ha Hb].
    simpl in *. apply list_elem_of_lookup in Ha as [i Hi], Hb as [j Hj].
    split; eapply list_elem_of_lookup_2; eauto.
Qed.

Lemma edges_inv_snoc pairs es (st : index_state (Task:=Task)) i j a b :
  edges_inv pairs (es, st) →
  node_values st !! i = Some a → node_values st !! j = Some b →
  edges_inv (pairs ++ [(a, b)]) (es ++ [(i, j)], st).
Proof.
  intros Hinv Hi Hj. split; simpl.
  - apply Hinv.
  - intros i' j'. rewrite elem_of_app, list_elem_of_singleton.
    rewrite (ei_edges _ _ Hinv i' j'). simpl. split.
    + intros [(a' & b' & ? & ? & ?)|[= -> ->]].
      * exists a', b'. set_solver.
      * exists a, b. set_solver.
    + intros (a' & b' & [Hab|[= -> ->]%list_elem_of_singleton]%elem_of_app
                & Hi' & Hj').
      * left. by exists a', b'.
      * right. f_equal; eapply index_inv_inj; eauto; apply Hinv.
  - intros a' b' [Hab|[= -> ->]%list_elem_of_singleton]%elem_of_app.
    + apply (ei_nodes _ _ Hinv a' b' Hab).
    + split; eapply list_elem_of_lookup_2; eauto.
Qed.

Lemma append_edge_inv pairs acc ab :
  edges_inv pairs acc →
  edges_inv (pairs ++ [ab]) (append_edge acc ab) ∧
  (∀ i a, node_values acc.2 !! i = Some a →
          node_values (append_edge acc ab).2 !! i = Some a).
Proof.
  intros Hinv. destruct acc as [es st], ab as [a b]. unfold append_edge. simpl.
  destruct (_index_spec a st) as (Hinv1 & Hi & Hmono1 & _); [apply Hinv|].
  destruct (_index a st) as [i st1]. simpl in *.
  destruct (_index_spec b st1) as (Hinv2 & Hj & Hmono2 & _); [done|].
  destruct (_index b st1) as [j st2]. simpl in *. split; [|by auto].
  apply edges_inv_snoc; [|by auto..].
  apply edges_inv_extend with st; auto.
Qed.

Lemma foldl_append_edge_inv pairs acc l :
  edges_inv pairs acc →
  edges_inv (pairs ++ l) (foldl append_edge acc l) ∧
  (∀ i a, node_values acc.2 !! i = Some a →
          node_values (foldl append_edge acc l).2 !! i = Some a).
Proof.
  revert pairs acc. induction l as [|ab l IH]; intros pairs acc Hinv; simpl.
  - by rewrite app_nil_r.
  - destruct (append_edge_inv pairs acc ab Hinv) as [Hinv' Hmono].
    destruct (IH _ _ Hinv') as [Hinv'' Hmono'].
    rewrite <-app_assoc in Hinv''. auto.
Qed.

Lemma dependency_edges_flat dependencies acc :
  foldl (λ acc '(node, deps),
           foldl (λ acc dependency,
                    append_edge acc (NTask dependency, NTask node))
                 acc (set_iter deps))
        acc dependencies
  = foldl append_edge acc
      (flat_map (λ '(t, ds), map (λ d, (NTask d, NTask t)) (set_iter ds))
                dependencies).
Proof.
  revert acc. induction dependencies as [|[t ds] l IH]; intros acc; [done|].
  cbn [foldl flat_map]. rewrite foldl_app, IH. f_equal.
  generalize (set_iter ds). intros ds'. revert acc.
  induction ds' as [|d ds' IH']; intros acc; [done|]. simpl. apply IH'.
Qed.

Lemma target_edges_flat dummy_index targets acc :
  index_inv acc.2 →
  node_values acc.2 !! dummy_index = Some NDummy →
  target_edges dummy_index targets acc
  = foldl append_edge acc (map (λ t, (NDummy, NTask t)) targets).
Proof.
  unfold target_edges. revert acc.
  induction targets as [|t l IH]; intros acc Hinv Hdummy; [done|].
  cbn [foldl map].
  assert (append_edge acc (NDummy, NTask t) =
          (let '(j, st) := _index (NTask t) acc.2 in
           (acc.1 ++ [(dummy_index, j)], st))) as Hstep.
  { unfold append_edge. simpl. unfold _index at 1.
    apply (ii_lookup _ Hinv) in Hdummy. by rewrite Hdummy. }
  rewrite <-Hstep.
  assert (edges_inv [] ([], acc.2)) as Hinv0.
  { split; simpl; [done| |by intros a b ?%elem_of_nil].
    intros i j. split; [by intros ?%elem_of_nil|].
    by intros (a & b & ?%elem_of_nil & _). }
  destruct (append_edge_inv [] ([], acc.2) (NDummy, NTask t) Hinv0)
    as [Hinv' Hmono].
  assert ((append_edge acc (NDummy, NTask t)).2 =
          (append_edge ([], acc.2) (NDummy, NTask t)).2) as Hsnd.
  { unfold append_edge. simpl. by repeat case_match. }
  apply IH; rewrite Hsnd; [apply Hinv'|by apply Hmono].
Qed.

Lemma _make_graph_spec dependencies targets :
  make_graph_spec dependencies targets (_make_graph dependencies targets).
Proof.
  unfold _make_graph.
  assert (edges_inv [] ([], mkIndexState (Task:=Task) ∅ [])) as Hinv0.
  { split; simpl; [apply index_inv_empty| |by intros a b ?%elem_of_nil].
    intros i j. split; [by intros ?%elem_of_nil|].
    by intros (a & b & ?%elem_of_nil & _). }
  unfold dependency_edges. rewrite dependency_edges_flat.
  set (pairs1 := flat_map _ dependencies).
  destruct (foldl_append_edge_inv [] _ pairs1 Hinv0) as [Hinv1 _].
  rewrite app_nil_l in Hinv1.
  set (acc1 := foldl append_edge _ pairs1) in *.
  destruct (_index_spec NDummy acc1.2) as (Hinv_d & Hdummy & Hmono_d & _);
    [apply Hinv1|].
  destruct (_index NDummy acc1.2) as [dummy_index st]. simpl in *.
  assert (edges_inv pairs1 (acc1.1, st)) as Hinv2.
  { apply edges_inv_extend with acc1.2; [by destruct acc1|done..]. }
  rewrite target_edges_flat by done.
  destruct (foldl_append_edge_inv pairs1 _
              (map (λ t, (NDummy, NTask t)) targets) Hinv2) as [Hinv3 Hmono3].
  set (acc2 := foldl append_edge (acc1.1, st) _) in *.
  pose proof (graph_of_DiGraph_of acc2.1) as HG.
  split; simpl.
  - apply Hinv3.
  - by apply Hmono3.
  - by exists acc2.1.
  - intros i j. unfold edge. rewrite (go_succ _ _ HG).
    apply (ei_edges _ _ Hinv3).
  - apply (ei_nodes _ _ Hinv3).
Qed.

End make_graph_facts.

(** ** Order in a list *)

Lemma before_lookup {A} (l : list A) x y i j :
  i < j → l !! i = Some x → l !! j = Some y → before l x y.
Proof.
  intros Hij Hi Hj.
  exists (take i l), (take (j - S i) (drop (S i) l)), (drop (S (j - S i)) (drop (S i) l)).
  rewrite take_drop_middle.
  - by rewrite take_drop_middle.
  - rewrite lookup_drop. by replace (S i + (j - S i)) with j by lia.
Qed.

Lemma before_omap {A B} (f : A → option B) (l : list A) a b x y :
  before l a b → f a = Some x → f b = Some y → before (omap f l) x y.
Proof.
  intros (l1 & l2 & l3 & ->) Ha Hb.
  exists (omap f l1), (omap f l2), (omap f l3).
  rewrite omap_app. cbn [omap list_omap]. rewrite Ha.
  rewrite omap_app. cbn [omap list_omap]. by rewrite Hb.
Qed.

Lemma before_NoDup_lookup {A} (l : list A) x y i :
  before l x y → NoDup l → l !! i = Some y →
  ∃ j, j < i ∧ l !! j = Some x.
Proof.
  intros (l1 & l2 & l3 & ->) Hnd Hi.
  assert ((l1 ++ x :: l2 ++ y :: l3) !! (length l1 + S (length l2)) = Some y)
    as Hy.
  { rewrite lookup_app_r by lia.
    replace (length l1 + S (length l2) - length l1) with (S (length l2)) by lia.
    simpl. by apply list_lookup_middle. }
  rewrite (NoDup_lookup _ _ _ _ Hnd Hi Hy).
  exists (length l1). split; [lia|]. by apply list_lookup_middle.
Qed.

Lemma NoDup_omap_inj {A B} (f : A → option B) (l : list A) :
  NoDup l →
  (∀ a b x, a ∈ l → b ∈ l → f a = Some x → f b = Some x → a = b) →
  NoDup (omap f l).
Proof.
  intros Hnd. induction Hnd as [|a l Ha Hnd IH]; intros Hinj; [constructor|].
  cbn [omap list_omap]. destruct (f a) as [x|] eqn:Hfa.
  - constructor.
    + intros (b & Hb & Hfb)%list_elem_of_omap.
      assert (a = b) as <-; [|done].
      apply (Hinj a b x); [by left|by right|done..].
    + apply IH. intros b c y Hb Hc. apply Hinj; by right.
  - apply IH. intros b c y Hb Hc. apply Hinj; by right.
Qed.

(** ** [_make_schedule]: from the graph on indices back to the tasks *)

Section schedule_graph_facts.
Context {Task : Type} `{TaskClass Task} `{!SetOrder Task}.
Context (cached : gmap Task value) (targets : list Task).
Context (deps : list (Task * list Task)) (Hdeps : deps_spec cached targets deps).
Context (sg : schedule_graph (Task:=Task)).
Context (Hsg : make_graph_spec deps targets sg).

Lemma node_pairs_spec (a b : node (Task:=Task)) :
  (a, b) ∈ node_pairs deps targets ↔
  (∃ d t, a = NTask d ∧ b = NTask t ∧ depends_on cached targets d t) ∨
  (a = NDummy ∧ ∃ t, b = NTask t ∧ t ∈ targets).
Proof.
  unfold node_pairs. rewrite elem_of_app, list_elem_of_In, in_flat_map.
  split.
  - intros [([t ds] & Hin%list_elem_of_In & Hab%list_elem_of_In)|Hab].
    + apply list_elem_of_fmap in Hab as (d & [= -> ->] & Hd).
      rewrite set_iter_perm in Hd. left. exists d, t. split_and!; [done..|].
      apply (ds_sets _ _ _ Hdeps _ _ _ Hin) in Hd as [Hc Hd].
      split_and!; [|done..]. apply (ds_keys _ _ _ Hdeps).
      apply list_elem_of_fmap. by exists (t, ds).
    + apply list_elem_of_fmap in Hab as (t & [= -> ->] & Ht). right. eauto.
  - intros [(d & t & -> & -> & Hreach & Hc & Hd)|(-> & t & -> & Ht)].
    + left. apply (ds_keys _ _ _ Hdeps) in Hreach.
      apply list_elem_of_fmap in Hreach as ([t' ds] & -> & Hin). simpl in *.
      exists (t', ds). split; [by apply list_elem_of_In|].
      apply list_elem_of_In, list_elem_of_fmap. exists d. split; [done|].
      rewrite set_iter_perm. by apply (ds_sets _ _ _ Hdeps _ _ _ Hin).
    + right. apply list_elem_of_fmap. by exists t.
Qed.

Lemma node_pairs_target (a b : node (Task:=Task)) :
  (a, b) ∈ node_pairs deps targets → ∃ t, b = NTask t ∧ reachable cached targets t.
Proof.
  intros [(d & t & -> & -> & Hreach & _)|(-> & t & -> & Ht)]%node_pairs_spec.
  - eauto.
  - exists t. split; [done|]. by apply reachable_target.
Qed.

Lemma node_pairs_source (a b : node (Task:=Task)) t :
  (a, b) ∈ node_pairs deps targets → a = NTask t → reachable cached targets t.
Proof.
  intros [(d & t' & -> & -> & Hreach & Hc & Hd)|(-> & _)]%node_pairs_spec;
    [|done].
  intros [= ->]. by apply reachable_dep with t'.
Qed.

Lemma tc_edge_pairs i j :
  tc (edge (sg_graph sg)) i j →
  ∃ a b, sg_node_values sg !! i = Some a ∧ sg_node_values sg !! j = Some b ∧
         tc (λ a b, (a, b) ∈ node_pairs deps targets) a b.
Proof.
  induction 1 as [i j Hij|i k j Hik _ IH].
  - apply (mg_edges _ _ _ Hsg) in Hij as (a & b & ? & ? & ?).
    exists a, b. split_and!; [done..|]. by apply tc_once.
  - apply (mg_edges _ _ _ Hsg) in Hik as (a & c & Hac & Ha & Hc).
    destruct IH as (c' & b & Hc' & Hb & Hcb).
    assert (c' = c) as -> by congruence.
    exists a, b. split_and!; [done..|]. by apply tc_l with c.
Qed.

Lemma tc_pairs_depends_on (a b : node (Task:=Task)) :
  tc (λ a b, (a, b) ∈ node_pairs deps targets) a b →
  ∀ d, a = NTask d →
  ∃ t, b = NTask t ∧ tc (depends_on cached targets) d t.
Proof.
  induction 1 as [a b Hab|a c b Hac _ IH]; intros d ->.
  - apply node_pairs_spec in Hab as [(d' & t & [= <-] & -> & ?)|[? _]];
      [|done].
    exists t. split; [done|]. by apply tc_once.
  - apply node_pairs_spec in Hac as [(d' & w & [= <-] & -> & ?)|[? _]];
      [|done].
    destruct (IH w eq_refl) as (t & -> & Hwt).
    exists t. split; [done|]. by apply tc_l with w.
Qed.

(** A cycle in the graph is a cycle of dependencies. *)
Lemma graph_acyclic :
  acyclic cached targets → ∀ i, ¬ tc (edge (sg_graph sg)) i i.
Proof.
  intros Hacyclic i (a & a' & Ha & Ha' & Hcycle)%tc_edge_pairs.
  assert (a' = a) as -> by congruence.
  destruct (tc_last _ _ _ Hcycle) as (c & Hc).
  apply node_pairs_target in Hc as (t & -> & _).
  destruct (tc_pairs_depends_on _ _ Hcycle t eq_refl) as (t' & [= <-] & Ht).
  by apply (Hacyclic t).
Qed.

Lemma depends_on_edge d t :
  depends_on cached targets d t →
  ∃ i j, sg_node_values sg !! i = Some (NTask d) ∧
         sg_node_values sg !! j = Some (NTask t) ∧
         edge (sg_graph sg) i j.
Proof.
  intros Hdt.
  assert ((NTask d, NTask t) ∈ node_pairs deps targets) as Hpair.
  { apply node_pairs_spec. left. by exists d, t. }
  destruct (mg_nodes _ _ _ Hsg _ _ Hpair)
    as [[i Hi]%list_elem_of_lookup [j Hj]%list_elem_of_lookup].
  exists i, j. split_and!; [done..|].
  apply (mg_edges _ _ _ Hsg). eauto.
Qed.

Lemma tc_depends_on_edge d t :
  tc (depends_on cached targets) d t →
  ∃ i j, sg_node_values sg !! i = Some (NTask d) ∧
         sg_node_values sg !! j = Some (NTask t) ∧
         tc (edge (sg_graph sg)) i j.
Proof.
  induction 1 as [d t Hdt|d w t Hdw _ IH].
  - apply depends_on_edge in Hdt as (i & j & ? & ? & ?).
    exists i, j. split_and!; [done..|]. by apply tc_once.
  - apply depends_on_edge in Hdw as (i & k & Hi & Hk & Hik).
    destruct IH as (k' & j & Hk' & Hj & Hkj).
    assert (k' = k) as ->.
    { eapply NoDup_lookup; [apply Hsg|done..]. }
    exists i, j. split_and!; [done..|]. by apply tc_l with k.
Qed.

(** The nodes of the graph are the indices of the visited tasks, and of the
    dummy node when there are targets. *)
Lemma graph_nodes i :
  i ∈ networkx._node (sg_graph sg) →
  ∃ a, sg_node_values sg !! i = Some a ∧
       (a = NDummy ∨ ∃ t, a = NTask t ∧ reachable cached targets t).
Proof.
  destruct (mg_graph _ _ _ Hsg) as [es HG].
  intros (e & He & Hi)%(go_nodes _ _ HG). destruct e as [u v].
  apply (go_succ _ _ HG), (mg_edges _ _ _ Hsg) in He
    as (a & b & Hab & Hu & Hv). simpl in Hi. destruct Hi as [-> | ->].
  - exists a. split; [done|]. destruct a as [t|]; [right|by left].
    exists t. split; [done|]. by apply (node_pairs_source _ _ _ Hab).
  - exists b. split; [done|]. right. by apply (node_pairs_target a).
Qed.

Lemma graph_nodes_in_range i :
  i ∈ networkx._node (sg_graph sg) → is_Some (sg_node_values sg !! i).
Proof. intros (a & ? & _)%graph_nodes. eauto. Qed.

Lemma reachable_node t :
  reachable cached targets t →
  ∃ i, i ∈ networkx._node (sg_graph sg) ∧
       sg_node_values sg !! i = Some (NTask t).
Proof.
  destruct (mg_graph _ _ _ Hsg) as [es HG]. intros Ht.
  assert (∃ a b, (a, b) ∈ node_pairs deps targets ∧
            (a = NTask t ∨ b = NTask t)) as (a & b & Hpair & Hab).
  { destruct Ht as [t Ht|t' d Hreach Hc Hd].
    - exists NDummy, (NTask t). split; [|by right].
      apply node_pairs_spec. right. eauto.
    - exists (NTask d), (NTask t'). split; [|by left].
      apply node_pairs_spec. left. exists d, t'. by repeat split. }
  destruct (mg_nodes _ _ _ Hsg _ _ Hpair)
    as [[i Hi]%list_elem_of_lookup [j Hj]%list_elem_of_lookup].
  assert (edge (sg_graph sg) i j) as Hij
    by (apply (mg_edges _ _ _ Hsg); eauto).
  apply (go_succ _ _ HG) in Hij.
  destruct Hab as [-> | ->].
  - exists i. split; [|done]. apply (go_nodes _ _ HG). exists (i, j). auto.
  - exists j. split; [|done]. apply (go_nodes _ _ HG). exists (i, j). auto.
Qed.

(** The dummy node has no predecessor, and the key ("", 0). *)
Lemma dummy_no_pred p :
  p ∉ networkx.pred (sg_graph sg) (sg_dummy_index sg).
Proof.
  destruct (mg_graph _ _ _ Hsg) as [es HG].
  intros Hp%(succ_pred es _ HG)%(mg_edges _ _ _ Hsg).
  destruct Hp as (a & b & Hab & _ & Hb).
  apply node_pairs_target in Hab as (t & -> & _).
  rewrite (mg_dummy _ _ _ Hsg) in Hb. done.
Qed.

Lemma dummy_only_at_dummy_index idx :
  sg_node_values sg !! idx = Some NDummy → idx = sg_dummy_index sg.
Proof.
  intros Hidx. eapply NoDup_lookup; [apply Hsg|done|apply Hsg].
Qed.

Lemma dummy_key :
  _compare_key (sg_node_values sg) (sg_dummy_index sg) = ("", 0%Z).
Proof. unfold _compare_key. by rewrite (mg_dummy _ _ _ Hsg). Qed.

Lemma _filter_schedule_Ok order :
  (∀ idx, idx ∈ order → is_Some (sg_node_values sg !! idx)) →
  _filter_schedule cached sg order = Ok (omap (keep cached sg) order).
Proof.
  induction order as [|idx order IH]; intros Hrange; [done|].
  cbn [_filter_schedule omap list_omap]. unfold keep at 1.
  destruct (Hrange idx) as [n Hn]; [by left|]. rewrite Hn.
  rewrite IH by (intros; apply Hrange; by right).
  destruct n as [t|]; [|done]. by case_decide.
Qed.

Lemma _filter_schedule_Ok_inv order sched :
  _filter_schedule cached sg order = Ok sched →
  sched = omap (keep cached sg) order.
Proof.
  revert sched. induction order as [|idx order IH]; intros sched.
  - by intros [= <-].
  - cbn [_filter_schedule omap list_omap]. unfold keep at 1.
    destruct (sg_node_values sg !! idx) as [n|]; [|done].
    destruct (_filter_schedule cached sg order) as [rest|]; [|done].
    rewrite <-(IH rest eq_refl).
    destruct n as [t|]; [|by intros [= <-]].
    case_decide; by intros [= <-].
Qed.

Lemma keep_Some idx t :
  keep cached sg idx = Some t ↔
  sg_node_values sg !! idx = Some (NTask t) ∧ cached !! t = None.
Proof.
  unfold keep. split.
  - destruct (sg_node_values sg !! idx) as [[t'|]|]; [|done..].
    case_decide as Hk; [|done]. intros [= ->]. by destruct Hk.
  - intros [Hnv Hc]. rewrite Hnv. rewrite decide_True; [done|].
    split; [|done]. intros ->. by rewrite (mg_dummy _ _ _ Hsg) in Hnv.
Qed.

(** The schedule that is filtered out of a sort that succeeded. *)
Lemma schedule_of_order order :
  sort_inv key_lt (sg_graph sg) (_compare_key (sg_node_values sg)) ∅ [] order →
  schedule_spec cached targets (omap (keep cached sg) order).
Proof.
  intros Hinv. destruct (mg_graph _ _ _ Hsg) as [es HG].
  destruct (sort_inv_final _ _ _ _ Hinv) as [Hnd Helem].
  assert (Hnd' : NoDup (omap (keep cached sg) order)).
  { apply NoDup_omap_inj; [done|].
    intros a b x _ _ [Ha _]%keep_Some [Hb _]%keep_Some.
    eapply NoDup_lookup; [apply Hsg|done..]. }
  assert (Hin : ∀ t, t ∈ omap (keep cached sg) order ↔
            reachable cached targets t ∧ cached !! t = None).
  { intros t. rewrite list_elem_of_omap. split.
    - intros (idx & Hidx & [Hnv Hc]%keep_Some). split; [|done].
      apply Helem, graph_nodes in Hidx as (a & Ha & [->|(t' & -> & Ht')]);
        congruence.
    - intros [(i & Hi & Hnv)%reachable_node Hc]. exists i.
      split; [by apply Helem|]. by apply keep_Some. }
  split; [done..|].
  intros i t d Hi Hd Hc.
  assert (t ∈ omap (keep cached sg) order) as [Ht Hct]%Hin
    by by apply list_elem_of_lookup_2 in Hi.
  destruct (depends_on_edge d t) as (p & q & Hp & Hq & Hpq);
    [by repeat split|].
  assert (q ∈ order) as [jq Hjq]%list_elem_of_lookup.
  { apply Helem. apply (go_nodes _ _ HG). exists (p, q). split; [|by right].
    by apply (go_succ _ _ HG). }
  destruct (edge_before key_lt es _ HG _ _ _ _ _ _ _ Hinv Hpq Hjq)
    as (jp & Hlt & Hjp).
  apply before_NoDup_lookup with t; [|done..].
  apply before_omap with p q; [|by apply keep_Some..].
  by apply before_lookup with jp jq.
Qed.

End schedule_graph_facts.

(** ** [_make_schedule] and [__init__] *)

Section init_facts.
Context {Task : Type} `{TaskClass Task} `{!SetOrder Task}.
Context (cached : gmap Task value) (targets : list Task).

#[local] Instance key_lt_strict : StrictOrder key_lt.
Proof. unfold key_lt. apply _. Qed.
#[local] Instance key_lt_trichotomy : Trichotomy key_lt.
Proof. unfold key_lt. apply _. Qed.

Lemma _topological_order_returns deps :
  ∃ r, _topological_order (_make_graph deps targets) = Some r ∧
       sort_outcome key_lt (sg_graph (_make_graph deps targets))
         (_compare_key (sg_node_values (_make_graph deps targets))) r.
Proof.
  destruct (mg_graph _ _ _ (_make_graph_spec deps targets)) as [es HG].
  apply (sort_returns key_lt es _ HG).
Qed.

(** What a schedule that was built tells. *)
Lemma _make_schedule_Ok fuel deps sched :
  _make_schedule cached fuel targets = Some (Ok (deps, sched)) →
  deps_spec cached targets deps ∧
  schedule_spec cached targets sched ∧
  ∃ order,
    _topological_order (_make_graph deps targets) = Some (Ok order) ∧
    sort_inv key_lt (sg_graph (_make_graph deps targets))
      (_compare_key (sg_node_values (_make_graph deps targets))) ∅ [] order ∧
    _filter_schedule cached (_make_graph deps targets) order = Ok sched ∧
    sched = omap (keep cached (_make_graph deps targets)) order.
Proof.
  unfold _make_schedule.
  destruct (_build_dependencies cached fuel targets) as [deps'|] eqn:Hdeps;
    [|done]. simpl.
  apply _build_dependencies_spec in Hdeps.
  pose proof (_make_graph_spec deps' targets) as Hsg.
  destruct (_topological_order_returns deps') as (r & Hsort & Hr).
  rewrite Hsort. destruct r as [order|e]; [|done]. simpl in *.
  destruct (_filter_schedule cached (_make_graph deps' targets) order)
    as [sched'|] eqn:Hfilter; [|done]. simpl.
  intros [= <- <-]. pose proof Hfilter as Hfilter'.
  apply _filter_schedule_Ok_inv in Hfilter' as ->.
  split; [done|]. split; [by apply schedule_of_order with deps'|].
  by exists order.
Qed.

(** More fuel does not change what [_build_dependencies] returns. *)
Lemma _build_dependencies_loop_fuel fuel fuel' deps to_process result :
  fuel ≤ fuel' →
  _build_dependencies_loop cached fuel deps to_process = Some result →
  _build_dependencies_loop cached fuel' deps to_process = Some result.
Proof.
  revert fuel' deps to_process.
  induction fuel as [|fuel IH]; intros fuel' deps to_process Hle; [done|].
  destruct fuel' as [|fuel']; [lia|]. cbn [_build_dependencies_loop].
  destruct (list_pop to_process) as [[child to_process']|]; [|done].
  repeat case_decide; apply IH; lia.
Qed.

Lemma _make_schedule_fuel fuel fuel' r :
  fuel ≤ fuel' →
  _make_schedule cached fuel targets = Some r →
  _make_schedule cached fuel' targets = Some r.
Proof.
  intros Hle. unfold _make_schedule, _build_dependencies.
  destruct (_build_dependencies_loop cached fuel [] targets) as [deps|] eqn:Hb;
    [|done].
  by rewrite (_build_dependencies_loop_fuel _ _ _ _ _ Hle Hb).
Qed.

(** With fuel enough for [_build_dependencies], the schedule is built when
    there is no cycle of dependencies. *)
Lemma _make_schedule_acyclic :
  pred_finite (reachable cached targets) → acyclic cached targets →
  ∃ fuel0, ∀ fuel, fuel0 ≤ fuel →
    ∃ deps sched, _make_schedule cached fuel targets = Some (Ok (deps, sched)).
Proof.
  intros Hfin Hacyclic.
  destruct (_build_dependencies_returns cached targets Hfin) as [fuel0 Hfuel0].
  exists fuel0. intros fuel Hfuel.
  destruct (Hfuel0 fuel Hfuel) as (deps & Hbuild & Hdeps).
  pose proof (_make_graph_spec deps targets) as Hsg.
  destruct (mg_graph _ _ _ Hsg) as [es HG].
  destruct (sort_acyclic key_lt es _ HG
              (_compare_key (sg_node_values (_make_graph deps targets))))
    as (order & Hsort & Hinv).
  { by apply graph_acyclic with cached targets deps. }
  exists deps, (omap (keep cached (_make_graph deps targets)) order).
  unfold _make_schedule. rewrite Hbuild. simpl.
  unfold _topological_order. rewrite Hsort. simpl.
  rewrite _filter_schedule_Ok; [done|].
  intros idx Hidx. apply graph_nodes_in_range with cached targets deps;
    [done..|].
  by apply (sort_inv_final _ _ _ _ Hinv).
Qed.

(** And the sort raises the cycle error when there is one. *)
Lemma _make_schedule_cyclic t :
  pred_finite (reachable cached targets) →
  tc (depends_on cached targets) t t →
  ∃ fuel0, ∀ fuel, fuel0 ≤ fuel →
    _make_schedule cached fuel targets = Some (Raise NetworkXUnfeasible).
Proof.
  intros Hfin Hcycle.
  destruct (_build_dependencies_returns cached targets Hfin) as [fuel0 Hfuel0].
  exists fuel0. intros fuel Hfuel.
  destruct (Hfuel0 fuel Hfuel) as (deps & Hbuild & Hdeps).
  pose proof (_make_graph_spec deps targets) as Hsg.
  destruct (mg_graph _ _ _ Hsg) as [es HG].
  destruct (tc_depends_on_edge cached targets deps Hdeps _ Hsg t t Hcycle)
    as (i & j & Hi & Hj & Hij).
  assert (j = i) as -> by (eapply NoDup_lookup; [apply Hsg|done..]).
  unfold _make_schedule. rewrite Hbuild. simpl.
  unfold _topological_order.
  by rewrite (sort_cyclic key_lt es _ HG _ i Hij).
Qed.

End init_facts.

(** ** Finite graphs without cycles *)

Section finite_graphs.
Context {Task : Type} `{TaskClass Task}.
Context (cached : gmap Task value) (targets : list Task).

Lemma reachable_universe (universe : list Task) :
  Forall (.∈ universe) targets →
  Forall (λ t, Forall (.∈ universe) (arguments t).*2) universe →
  ∀ t, reachable cached targets t → t ∈ universe.
Proof.
  rewrite !Forall_forall. intros Htargets Hclosed t.
  induction 1 as [t Ht|t d _ IH _ Hd]; [by apply Htargets|].
  specialize (Hclosed t IH). rewrite Forall_forall in Hclosed. auto.
Qed.

Lemma acyclic_by_rank (universe : list Task) (rank : Task → nat) :
  (∀ t, reachable cached targets t → t ∈ universe) →
  Forall (λ t, Forall (λ d, rank d < rank t) (arguments t).*2) universe →
  acyclic cached targets.
Proof.
  rewrite Forall_forall. intros Huniv Hrank.
  assert (∀ d t, tc (depends_on cached targets) d t → rank d < rank t) as Hlt.
  { induction 1 as [d t (Ht & _ & Hd)|d w t (Hw & _ & Hd) _ IH].
    - specialize (Hrank t (Huniv t Ht)). rewrite Forall_forall in Hrank. auto.
    - specialize (Hrank w (Huniv w Hw)). rewrite Forall_forall in Hrank.
      specialize (Hrank d Hd). lia. }
  intros t Ht%Hlt. lia.
Qed.

End finite_graphs.

(** ** The last use of every value *)

Section last_use_facts.
Context {Task : Type} `{TaskClass Task} `{!SetOrder Task}.
Context (deps : list (Task * list Task)).

#[local] Instance uses_dec task k : Decision (uses deps task k).
Proof. unfold uses. apply _. Defined.

Lemma set_last_use_lookup idx (m : gmap Task nat) t k :
  set_last_use idx m t !! k =
    match m !! k with
    | Some v => Some v
    | None => if decide (k = t) then Some idx else None
    end.
Proof.
  unfold set_last_use. destruct (m !! t) as [w|] eqn:Ht.
  - destruct (m !! k) as [v|] eqn:Hk; [done|].
    case_decide; [congruence|done].
  - destruct (decide (k = t)) as [->|Hne].
    + by rewrite lookup_insert_eq, Ht.
    + rewrite lookup_insert_ne by done. by destruct (m !! k).
Qed.

Lemma foldl_set_last_use_lookup idx (m : gmap Task nat) ts k :
  foldl (set_last_use idx) m ts !! k =
    match m !! k with
    | Some v => Some v
    | None => if decide (k ∈ ts) then Some idx else None
    end.
Proof.
  revert m. induction ts as [|t ts IH]; intros m; cbn [foldl].
  - destruct (m !! k); [done|]. by rewrite decide_False by set_solver.
  - rewrite IH, set_last_use_lookup. destruct (m !! k) as [v|]; [done|].
    repeat case_decide; set_solver.
Qed.

Lemma last_use_turn_lookup (m : gmap Task nat) idx task k :
  last_use_turn deps m (idx, task) !! k =
    match m !! k with
    | Some v => Some v
    | None => if decide (uses deps task k) then Some idx else None
    end.
Proof.
  unfold last_use_turn. rewrite set_last_use_lookup, foldl_set_last_use_lookup.
  destruct (m !! k) as [v|]; [done|]. unfold uses.
  repeat case_decide; naive_solver.
Qed.

Lemma enumerate_snoc (l : list Task) x :
  enumerate (l ++ [x]) = enumerate l ++ [(length l, x)].
Proof.
  unfold enumerate. rewrite imap_app. simpl. by rewrite Nat.add_0_r.
Qed.

Lemma enumerate_lookup (l : list Task) i :
  enumerate l !! i = pair i <$> l !! i.
Proof. unfold enumerate. apply list_lookup_imap. Qed.

Lemma is_last_use_snoc sched x k v :
  is_last_use deps (sched ++ [x]) k v ↔
  (uses deps x k ∧ v = length sched) ∨
  (¬ uses deps x k ∧ is_last_use deps sched k v).
Proof.
  unfold is_last_use. split.
  - intros [(task & Hv & Huse) Hlast].
    destruct (decide (uses deps x k)) as [Hx|Hx].
    + left. split; [done|].
      apply lookup_lt_Some in Hv as Hlt. rewrite length_app in Hlt.
      simpl in Hlt. destruct (decide (v = length sched)) as [|Hne]; [done|].
      destruct (Hlast (length sched) x); [lia| |done].
      by apply list_lookup_middle.
    + right. split; [done|].
      assert (v < length sched) as Hlt.
      { apply lookup_lt_Some in Hv as Hlt. rewrite length_app in Hlt.
        simpl in Hlt. destruct (decide (v = length sched)) as [->|]; [|lia].
        rewrite list_lookup_middle in Hv by done. by injection Hv as <-. }
      rewrite lookup_app_l in Hv by done. split; [eauto|].
      intros j task' Hj Hl. apply (Hlast j task' Hj).
      by apply lookup_app_l_Some.
  - intros [[Hx ->]|[Hx [(task & Hv & Huse) Hlast]]].
    + split.
      * exists x. split; [|done]. by apply list_lookup_middle.
      * intros j task Hj Hl. apply lookup_lt_Some in Hl.
        rewrite length_app in Hl. simpl in Hl. lia.
    + split.
      * exists task. split; [|done]. by apply lookup_app_l_Some.
      * intros j task' Hj Hl.
        destruct (decide (j < length sched)) as [Hlt|Hge].
        -- rewrite lookup_app_l in Hl by done. by apply (Hlast j).
        -- rewrite lookup_app_r in Hl by lia.
           apply list_lookup_singleton_Some in Hl as [_ <-]. done.
Qed.

(** The loop over the reversed schedule keeps what the map holds, and
    gives every other key its last use. *)
Lemma last_use_pass_Some sched (m0 : gmap Task nat) k v :
  foldl (last_use_turn deps) m0 (reverse (enumerate sched)) !! k = Some v ↔
  m0 !! k = Some v ∨ (m0 !! k = None ∧ is_last_use deps sched k v).
Proof.
  revert m0. induction sched as [|x sched IH] using rev_ind; intros m0.
  - simpl. split; [auto|]. intros [?|[_ [(task & Hl & _) _]]]; [done|].
    by rewrite lookup_nil in Hl.
  - rewrite enumerate_snoc, reverse_snoc. cbn [foldl].
    rewrite IH, last_use_turn_lookup, is_last_use_snoc.
    destruct (m0 !! k) as [w|]; [naive_solver|].
    case_decide; naive_solver.
Qed.

Lemma last_use_pass_None sched (m0 : gmap Task nat) k :
  foldl (last_use_turn deps) m0 (reverse (enumerate sched)) !! k = None ↔
  m0 !! k = None ∧
  ∀ i task, sched !! i = Some task → ¬ uses deps task k.
Proof.
  revert m0. induction sched as [|x sched IH] using rev_ind; intros m0.
  - simpl. split; [|by intros [? _]]. intros Hm. split; [done|].
    intros i task. by rewrite lookup_nil.
  - rewrite enumerate_snoc, reverse_snoc. cbn [foldl].
    rewrite IH, last_use_turn_lookup.
    destruct (m0 !! k) as [w|]; [naive_solver|].
    case_decide as Hx.
    + split; [by intros [? _]|]. intros [_ Hno].
      destruct (Hno (length sched) x); [|done]. by apply list_lookup_middle.
    + split.
      * intros [_ Hno]. split; [done|]. intros i task Hi.
        destruct (decide (i < length sched)) as [Hlt|Hge].
        -- rewrite lookup_app_l in Hi by done. by apply (Hno i).
        -- rewrite lookup_app_r in Hi by lia.
           by apply list_lookup_singleton_Some in Hi as [_ <-].
      * intros [_ Hno]. split; [done|]. intros i task Hi.
        apply (Hno i). by apply lookup_app_l_Some.
Qed.

End last_use_facts.

(** ** Executors that were built *)

Lemma alist_lookup_Some {A B} `{EqDecision A} (l : list (A * B)) k v :
  NoDup l.*1 → alist_lookup k l = Some v ↔ (k, v) ∈ l.
Proof.
  induction l as [|[k' v'] l IH]; intros Hnd; simpl.
  - split; [done|]. by intros ?%elem_of_nil.
  - apply NoDup_cons in Hnd as [Hk' Hnd]. rewrite elem_of_cons.
    case_decide as Hk.
    + subst k'. split; [by intros [= ->]; left|].
      intros [[= ->]|Hin]; [done|]. destruct Hk'.
      apply list_elem_of_fmap. by exists (k, v).
    + rewrite IH by done. split; [auto|]. by intros [[= -> _]|?].
Qed.

Section last_use_index_facts.
Context {Task : Type} `{TaskClass Task} `{!SetOrder Task}.
Context (h : gmap loc (gmap Task value)) (self : Executor (Task:=Task)).

Lemma is_last_use_unique deps (sched : list Task) k v w :
  is_last_use deps sched k v → is_last_use deps sched k w → v = w.
Proof.
  intros [(tv & Hv & Huv) Hlv] [(tw & Hw & Huw) Hlw].
  destruct (Nat.lt_trichotomy v w) as [Hlt|[->|Hlt]]; [|done|].
  - by destruct (Hlv w tw Hlt Hw).
  - by destruct (Hlw v tv Hlt Hv).
Qed.

Lemma last_use_index_Some k v :
  last_use_index self h !! k = Some v ↔
  is_last_use (dependencies self) (schedule self) k v ∨
  ((∀ i task, schedule self !! i = Some task →
              ¬ uses (dependencies self) task k) ∧
   is_Some (cached_or_empty h (cached_values self) !! k) ∧
   v = length (schedule self) + 1).
Proof.
  unfold last_use_index. rewrite foldl_set_last_use_lookup.
  destruct (foldl (last_use_turn (dependencies self)) ∅
              (reverse (enumerate (schedule self))) !! k) as [w|] eqn:Hpass.
  - apply last_use_pass_Some in Hpass as [Hpass|[_ Hw]];
      [by rewrite lookup_empty in Hpass|].
    split.
    + intros [= <-]. by left.
    + intros [Hv|(Hno & _)]; [f_equal; by apply is_last_use_unique with
        (dependencies self) (schedule self) k|].
      destruct Hw as [(task & Hl & Hu) _]. by destruct (Hno w task).
  - apply last_use_pass_None in Hpass as [_ Hno].
    assert (k ∈ (map_to_list (cached_or_empty h (cached_values self))).*1 ↔
            is_Some (cached_or_empty h (cached_values self) !! k)) as Hkeys.
    { rewrite list_elem_of_fmap. split.
      - intros ([k' x] & -> & Hin%elem_of_map_to_list). eauto.
      - intros [x Hx]. exists (k, x). by rewrite elem_of_map_to_list. }
    case_decide as Hk; rewrite Hkeys in Hk.
    + split.
      * intros [= <-]. by right.
      * intros [[(task & Hl & Hu) _]|(_ & _ & ->)]; [|done].
        by destruct (Hno v task).
    + split; [done|].
      intros [[(task & Hl & Hu) _]|(_ & ? & _)]; [|done].
      by destruct (Hno v task).
Qed.

(** A value that a scheduled task uses has its last use at that turn or
    later, within the schedule. *)
Lemma last_use_of_use i task k :
  schedule self !! i = Some task → uses (dependencies self) task k →
  ∃ last, last_use_index self h !! k = Some last ∧ i ≤ last ∧
          last < length (schedule self) ∧
          is_last_use (dependencies self) (schedule self) k last.
Proof.
  intros Hi Hu.
  destruct (foldl (last_use_turn (dependencies self)) ∅
              (reverse (enumerate (schedule self))) !! k) as [w|] eqn:Hpass.
  - apply last_use_pass_Some in Hpass as [Hpass|[_ Hw]];
      [by rewrite lookup_empty in Hpass|].
    exists w. split_and!; [by apply last_use_index_Some; left| | |done].
    + destruct Hw as [_ Hlast].
      destruct (decide (i ≤ w)) as [|Hgt]; [done|].
      destruct (Hlast i task); [lia|done..].
    + destruct Hw as [(tw & Hl & _) _]. by apply lookup_lt_Some in Hl.
  - apply last_use_pass_None in Hpass as [_ Hno]. by destruct (Hno i task).
Qed.

Lemma last_use_of_cached k :
  is_Some (cached_or_empty h (cached_values self) !! k) →
  ∃ last, last_use_index self h !! k = Some last.
Proof.
  intros Hc.
  destruct (foldl (last_use_turn (dependencies self)) ∅
              (reverse (enumerate (schedule self))) !! k) as [w|] eqn:Hpass.
  - apply last_use_pass_Some in Hpass as [Hpass|[_ Hw]];
      [by rewrite lookup_empty in Hpass|].
    exists w. apply last_use_index_Some. by left.
  - apply last_use_pass_None in Hpass as [_ Hno].
    eexists. apply last_use_index_Some. right. by split_and!.
Qed.

End last_use_index_facts.

(** ** The main loop of [run] *)

Section run_step_facts.
Context {Task : Type} `{TaskClass Task} `{!SetOrder Task}.
Implicit Types (values : gmap Task value) (hp : gmap loc (gmap Task value)).

Lemma resolve_arguments_Ok (self : Executor (Task:=Task)) values use args :
  (∀ dep, dep ∈ args.*2 → is_Some (values !! dep)) →
  ∃ resolved, resolve_arguments self values use args = Ok resolved.
Proof.
  induction args as [|[name dep] args IH]; intros Hall; [by eexists|].
  cbn [resolve_arguments]. destruct (Hall dep) as [v ->]; [set_solver|].
  destruct IH as [resolved ->]; [set_solver|]. by eexists.
Qed.

Lemma resolve_arguments_KeyError (self : Executor (Task:=Task)) values use
    args dep :
  dep ∈ args.*2 → values !! dep = None →
  resolve_arguments self values use args = Raise KeyError.
Proof.
  induction args as [|[name dep'] args IH]; intros Hdep Hnone;
    [by apply elem_of_nil in Hdep|].
  cbn [resolve_arguments]. destruct (values !! dep') as [v|] eqn:Hv; [|done].
  rewrite IH; [done| |done]. apply elem_of_cons in Hdep as [->|?]; [|done].
  simpl in Hnone. congruence.
Qed.

Lemma resolve_arguments_raises (self : Executor (Task:=Task)) values use
    args e :
  resolve_arguments self values use args = Raise e → e = KeyError.
Proof.
  induction args as [|[name dep] args IH]; [done|].
  cbn [resolve_arguments]. destruct (values !! dep); [|by intros [= <-]].
  destruct (resolve_arguments self values use args); [done|].
  intros [= <-]. by apply IH.
Qed.

Lemma expired_keys_Ok (lui : gmap Task nat) idx keys :
  (∀ k, k ∈ keys → is_Some (lui !! k)) →
  ∃ expired, expired_keys lui idx keys = Ok expired ∧
    ∀ k, k ∈ expired ↔ k ∈ keys ∧ ∃ last, lui !! k = Some last ∧ last ≤ idx.
Proof.
  induction keys as [|key keys IH]; intros Hall.
  - exists []. split; [done|]. intros k. split; [by intros ?%elem_of_nil|].
    by intros [?%elem_of_nil _].
  - cbn [expired_keys]. destruct (Hall key) as [last Hlast]; [by left|].
    rewrite Hlast. destruct IH as (expired & -> & Hexp); [set_solver|].
    eexists. split; [done|]. intros k. case_decide as Hle.
    + rewrite !elem_of_cons, Hexp. split.
      * intros [->|[? ?]]; [|by auto]. split; [by left|]. eauto.
      * intros [[->|?] ?]; auto.
    + rewrite elem_of_cons, Hexp. split; [naive_solver|].
      intros [[->|?] (last' & Hl & ?)]; [|by eauto].
      rewrite Hlast in Hl. injection Hl as <-. lia.
Qed.

Lemma foldl_dict_delitem_frame hp vloc keys l :
  l ≠ vloc →
  foldl (λ hp key, dict_delitem hp vloc key) hp keys !! l = hp !! l.
Proof.
  intros Hl. revert hp. induction keys as [|key keys IH]; intros hp; [done|].
  cbn [foldl]. rewrite IH. unfold dict_delitem. by rewrite lookup_insert_ne.
Qed.

Lemma foldl_dict_delitem_lookup hp vloc keys k :
  (foldl (λ hp key, dict_delitem hp vloc key) hp keys !!! vloc) !! k =
    if decide (k ∈ keys) then None else (hp !!! vloc) !! k.
Proof.
  revert hp. induction keys as [|key keys IH]; intros hp; cbn [foldl].
  - by rewrite decide_False by set_solver.
  - rewrite IH. unfold dict_delitem. rewrite lookup_total_insert_eq.
    destruct (decide (k = key)) as [->|Hne].
    + rewrite lookup_delete_eq. rewrite (decide_True (P := key ∈ key :: keys))
        by set_solver. by case_decide.
    + rewrite lookup_delete_ne by done. repeat case_decide; set_solver.
Qed.

End run_step_facts.

Section executor_facts.
Context {Task : Type} `{TaskClass Task} `{!SetOrder Task}.
Context (h : gmap loc (gmap Task value)) (self : Executor (Task:=Task)).
Context (Hwf : executor_wf h self).

Abbreviation cached := (cached_or_empty h (cached_values self)).

Lemma scheduled_reachable i task :
  schedule self !! i = Some task →
  reachable cached (targets self) task ∧ cached !! task = None.
Proof.
  intros Hi%list_elem_of_lookup_2. by apply (ss_elem _ _ _ (ew_sched _ _ Hwf)).
Qed.

(** For a scheduled task, [self.dependencies] holds its arguments. *)
Lemma dependencies_get_scheduled i task d :
  schedule self !! i = Some task →
  d ∈ dependencies_get (dependencies self) task ↔ d ∈ (arguments task).*2.
Proof.
  intros [Hreach Hc]%scheduled_reachable.
  pose proof (ew_deps _ _ Hwf) as Hdeps.
  apply (ds_keys _ _ _ Hdeps) in Hreach.
  apply list_elem_of_fmap in Hreach as ([t ds] & -> & Hin). simpl in *.
  unfold dependencies_get.
  rewrite (proj2 (alist_lookup_Some _ _ _ (ds_keys_nodup _ _ _ Hdeps)) Hin).
  simpl. rewrite set_iter_perm, (ds_sets _ _ _ Hdeps t ds d Hin). tauto.
Qed.

Lemma scheduled_argument_stored i task d :
  schedule self !! i = Some task → d ∈ (arguments task).*2 →
  stored_by h self i d.
Proof.
  intros Hi Hd. destruct (cached !! d) as [v|] eqn:Hc; [left; eauto|].
  right. by apply (ss_order _ _ _ (ew_sched _ _ Hwf) i task d).
Qed.

Abbreviation lui := (last_use_index self h).
Abbreviation vloc := (values_loc h).

Lemma elem_of_map_keys (m : gmap Task value) k :
  k ∈ (map_to_list m).*1 ↔ is_Some (m !! k).
Proof.
  rewrite list_elem_of_fmap. split.
  - intros ([k' x] & -> & Hin%elem_of_map_to_list). eauto.
  - intros [x Hx]. exists (k, x). by rewrite elem_of_map_to_list.
Qed.

Lemma values_loc_fresh : h !! vloc = None.
Proof. apply not_elem_of_dom, is_fresh. Qed.

Lemma run_start_values : st_heap (run_start self h) !!! vloc = cached.
Proof.
  unfold run_start, cached_or_empty. fold vloc.
  destruct (cached_values self) as [l|]; simpl.
  - case_decide as Hempty.
    + by rewrite lookup_total_insert_eq, Hempty.
    + assert (l ≠ vloc) as Hl.
      { intros ->. apply Hempty. rewrite lookup_total_alt.
        by rewrite values_loc_fresh. }
      unfold dict_update. rewrite !lookup_total_insert_eq.
      rewrite lookup_total_insert_ne by done. apply (right_id_L ∅ (∪)).
  - by rewrite lookup_total_insert_eq.
Qed.

Lemma run_start_frame l : l ≠ vloc → st_heap (run_start self h) !! l = h !! l.
Proof.
  intros Hl. unfold run_start. fold vloc.
  destruct (cached_values self) as [l'|]; simpl.
  - case_decide; unfold dict_update; by rewrite ?lookup_insert_ne by done.
  - by rewrite lookup_insert_ne.
Qed.

Lemma run_start_inv : run_inv h self 0 (run_start self h).
Proof.
  split.
  - apply run_start_frame.
  - unfold run_start. by destruct (cached_values self); simpl.
  - intros _ k. rewrite run_start_values. split.
    + intros Hk. split; [by left|].
      destruct (last_use_of_cached h self k Hk) as [last Hlast].
      exists last. split; [done|lia].
    + intros [[Hk|(i & ? & _)] _]; [done|lia].
  - intros _ k v Hk _. by rewrite run_start_values.
  - intros _. unfold run_start. by destruct (cached_values self).
  - intros t v. unfold run_start.
    destruct (cached_values self); by intros ?%elem_of_nil.
  - intros _. unfold run_start. by destruct (cached_values self).
Qed.

Lemma run_step_inv n task st :
  run_inv h self n st → st_raised st = None →
  schedule self !! n = Some task →
  run_inv h self (S n) (run_step self lui vloc st (n, task)).
Proof.
  intros Hinv Hnone Hn. unfold run_step.
  pose proof (ri_values _ _ _ _ Hinv Hnone) as Hvalues.
  set (values := st_heap st !!! vloc) in *.
  destruct (last_use_of_use h self n task task Hn) as (Lt & HLt & HLt_le & _);
    [by left|].
  destruct (resolve_arguments_Ok self values (uses_accelerator task)
              (arguments task)) as [resolved ->].
  { intros dep Hdep. apply Hvalues. split.
    - by apply (scheduled_argument_stored n task).
    - destruct (last_use_of_use h self n task dep Hn) as (L & HL & Hle & _).
      { right. by apply (dependencies_get_scheduled n). }
      eauto. }
  destruct (execute task resolved) as [r|msg] eqn:Hexec.
  2: { split; simpl; [apply Hinv| |done..|apply Hinv|done].
       intros e [= <-]. eauto. }
  set (r' := _move_tensors r (storage_device self)).
  set (h1 := dict_setitem (st_heap st) vloc task r').
  assert (h1 !!! vloc = <[task := r']> values) as Hh1.
  { unfold h1, dict_setitem. by rewrite lookup_total_insert_eq. }
  assert (∀ k, is_Some ((h1 !!! vloc) !! k) →
            ∃ last, lui !! k = Some last ∧ n ≤ last) as Hlast.
  { intros k. rewrite Hh1. destruct (decide (k = task)) as [->|Hne].
    - eauto.
    - rewrite lookup_insert_ne by done. by intros [_ ?]%Hvalues. }
  destruct (expired_keys_Ok lui n (map_to_list (h1 !!! vloc)).*1)
    as (expired & -> & Hexpired).
  { intros k Hk%elem_of_map_keys. destruct (Hlast k Hk) as (L & -> & _). eauto. }
  assert (∀ k, k ∈ expired ↔ is_Some ((h1 !!! vloc) !! k) ∧
            ∃ last, lui !! k = Some last ∧ last ≤ n) as Hexpired'.
  { intros k. by rewrite Hexpired, elem_of_map_keys. }
  assert (take (S n) (schedule self) = take n (schedule self) ++ [task])
    as Htake by by apply take_S_r.
  split; simpl.
  - intros l Hl. rewrite foldl_dict_delitem_frame by done.
    unfold h1, dict_setitem. rewrite lookup_insert_ne by done.
    by apply (ri_frame _ _ _ _ Hinv).
  - done.
  - intros _ k. rewrite foldl_dict_delitem_lookup.
    case_decide as Hexp.
    + apply Hexpired' in Hexp as (_ & L & HL & HLle). split.
      * by intros [? ?].
      * intros (_ & L' & HL' & HLle'). rewrite HL in HL'.
        injection HL' as <-. lia.
    + rewrite Hexpired' in Hexp. split.
      * intros Hk. destruct (Hlast k Hk) as (L & HL & HLle).
        assert (S n ≤ L) as HSn.
        { destruct (decide (L ≤ n)); [|lia]. destruct Hexp. eauto. }
        split; [|eauto]. rewrite Hh1 in Hk.
        destruct (decide (k = task)) as [->|Hne]; [right; eauto|].
        rewrite lookup_insert_ne in Hk by done.
        apply Hvalues in Hk as [[?|(i & ? & ?)] _]; [by left|].
        right. exists i. split; [lia|done].
      * intros (Hstored & L & HL & HLle). rewrite Hh1.
        destruct (decide (k = task)) as [->|Hne];
          [by rewrite lookup_insert_eq|].
        rewrite lookup_insert_ne by done. apply Hvalues. split.
        -- destruct Hstored as [?|(i & Hi & Hik)]; [by left|].
           right. exists i. split; [|done].
           destruct (decide (i = n)) as [->|]; [congruence|lia].
        -- exists L. split; [done|lia].
  - intros _ k v Hk. rewrite foldl_dict_delitem_lookup.
    case_decide; [by intros [? ?]|]. rewrite Hh1.
    destruct (decide (k = task)) as [->|Hne].
    + apply scheduled_reachable in Hn as [_ Hn]. congruence.
    + rewrite lookup_insert_ne by done.
      by apply (ri_cached _ _ _ _ Hinv Hnone).
  - intros _. rewrite Htake, filter_app.
    pose proof (ri_yielded _ _ _ _ Hinv Hnone) as Hy.
    case_decide as Ht.
    + rewrite fmap_app, Hy. f_equal. by rewrite filter_cons_True.
    + rewrite Hy. rewrite filter_cons_False by done. by rewrite app_nil_r.
  - intros t v. case_decide.
    + intros [Hin|[= -> ->]%list_elem_of_singleton]%elem_of_app;
        [by apply (ri_yielded_values _ _ _ _ Hinv)|eauto].
    + apply (ri_yielded_values _ _ _ _ Hinv).
  - intros _. by rewrite Htake, (ri_executed _ _ _ _ Hinv Hnone).
Qed.

Lemma run_upto_S n task :
  schedule self !! n = Some task →
  run_upto self h (S n) = run_turn self lui vloc (run_upto self h n) (n, task).
Proof.
  intros Hn. unfold run_upto.
  rewrite (take_S_r _ _ (n, task)); [by rewrite foldl_app|].
  unfold enumerate. by rewrite list_lookup_imap, Hn.
Qed.

Lemma run_inv_raised n st :
  run_inv h self n st → is_Some (st_raised st) → run_inv h self (S n) st.
Proof.
  intros Hinv [e He]. split; try apply Hinv; intros Hnone; congruence.
Qed.

(** The invariant holds all along the run. *)
Lemma run_upto_inv n :
  n ≤ length (schedule self) → run_inv h self n (run_upto self h n).
Proof.
  induction n as [|n IH]; intros Hn.
  - apply run_start_inv.
  - destruct (lookup_lt_is_Some_2 (schedule self) n) as [task Htask]; [lia|].
    rewrite (run_upto_S n task Htask). unfold run_turn.
    destruct (st_raised (run_upto self h n)) as [e|] eqn:Hraised.
    + apply run_inv_raised; [apply IH; lia|]. rewrite Hraised. eauto.
    + apply run_step_inv; [apply IH; lia|done..].
Qed.

Lemma run_upto_ge n :
  length (schedule self) ≤ n → run_upto self h n = run self h.
Proof.
  intros Hn. unfold run, run_upto.
  by rewrite !take_ge by (unfold enumerate; rewrite length_imap; lia).
Qed.

Lemma run_never_KeyError n : st_raised (run_upto self h n) ≠ Some KeyError.
Proof.
  assert (∀ m, m ≤ length (schedule self) →
            st_raised (run_upto self h m) ≠ Some KeyError) as Hle.
  { intros m Hm Hraised.
    by destruct (ri_raised _ _ _ _ (run_upto_inv m Hm) _ Hraised). }
  destruct (decide (n ≤ length (schedule self))); [by apply Hle|].
  rewrite run_upto_ge by lia. by apply Hle.
Qed.

Lemma values_after_Some n k :
  n ≤ length (schedule self) → st_raised (run_upto self h n) = None →
  is_Some (values_after self h n !! k) ↔
  stored_by h self n k ∧ ∃ last, lui !! k = Some last ∧ n ≤ last.
Proof.
  intros Hn Hraised. by apply (ri_values _ _ _ _ (run_upto_inv n Hn)).
Qed.

(** The value of [k] is in the store from the turn that puts it there to its
    last use, and in no turn after that. *)
Lemma values_after_last_use k last :
  lui !! k = Some last →
  (∀ n, last < n → n ≤ length (schedule self) →
        st_raised (run_upto self h n) = None →
        values_after self h n !! k = None) ∧
  (∀ n, n ≤ last → n ≤ length (schedule self) →
        st_raised (run_upto self h n) = None → stored_by h self n k →
        is_Some (values_after self h n !! k)).
Proof.
  intros Hlast. split.
  - intros n Hlt Hn Hraised. apply eq_None_not_Some.
    intros (_ & last' & Hlast' & Hle)%values_after_Some; [|done..].
    rewrite Hlast in Hlast'. injection Hlast' as <-. lia.
  - intros n Hle Hn Hraised Hstored. apply values_after_Some; [done..|].
    split; [done|]. eauto.
Qed.

(** The last use of a value that some scheduled task reads is the last turn
    of such a task. *)
Lemma last_use_is_last_consumer k last i task :
  lui !! k = Some last →
  schedule self !! i = Some task → k ∈ (arguments task).*2 →
  i ≤ last ∧
  ∃ task', schedule self !! last = Some task' ∧ k ∈ (arguments task').*2.
Proof.
  intros Hlast Hi Hk.
  destruct (last_use_of_use h self i task k Hi)
    as (last' & Hlast' & Hle & _ & [(task' & Hl & Hu) _]).
  { right. by apply (dependencies_get_scheduled i). }
  rewrite Hlast in Hlast'. injection Hlast' as <-.
  split; [done|]. exists task'. split; [done|].
  destruct Hu as [->|Hu]; [|by apply (dependencies_get_scheduled last)].
  (* the task at [last] is [k] itself: it would come before its reader *)
  apply scheduled_reachable in Hl as Hk'. destruct Hk' as [_ Hc].
  destruct (ss_order _ _ _ (ew_sched _ _ Hwf) i task task' Hi Hk Hc)
    as (j & Hj & Hjk).
  pose proof (NoDup_lookup _ _ _ _ (ss_nodup _ _ _ (ew_sched _ _ Hwf)) Hjk Hl).
  lia.
Qed.


Lemma values_after_cached n k v :
  n ≤ length (schedule self) → st_raised (run_upto self h n) = None →
  cached !! k = Some v → is_Some (values_after self h n !! k) →
  values_after self h n !! k = Some v.
Proof.
  intros Hn Hraised. by apply (ri_cached _ _ _ _ (run_upto_inv n Hn)).
Qed.

Lemma cached_not_scheduled i k :
  is_Some (cached !! k) → schedule self !! i ≠ Some k.
Proof. intros [v Hv] [_ Hc]%scheduled_reachable. congruence. Qed.

(** A cached value that scheduled tasks read, for the last time at [last]. *)
Lemma cached_last_use k last task :
  is_Some (cached !! k) →
  schedule self !! last = Some task → k ∈ (arguments task).*2 →
  (∀ j task', last < j → schedule self !! j = Some task' →
              k ∉ (arguments task').*2) →
  lui !! k = Some last.
Proof.
  intros Hc Hlast Hk Hlater.
  destruct (last_use_of_use h self last task k Hlast)
    as (L & HL & Hle & _ & [(task' & Hl & Hu) _]).
  { right. by apply (dependencies_get_scheduled last). }
  destruct Hu as [Heq|Hu].
  { rewrite <-Heq in Hl. by destruct (cached_not_scheduled L k Hc). }
  apply (dependencies_get_scheduled L) in Hu; [|done].
  destruct (decide (L = last)) as [->|Hne]; [done|].
  destruct (Hlater L task'); [lia|done..].
Qed.

(** A cached value that no scheduled task reads. *)
Lemma cached_unread_last_use k :
  is_Some (cached !! k) →
  (∀ j task, schedule self !! j = Some task → k ∉ (arguments task).*2) →
  lui !! k = Some (length (schedule self) + 1).
Proof.
  intros Hc Hunread. apply last_use_index_Some. right. split_and!; [|done..].
  intros i task Hi [Heq|Hu].
  { rewrite <-Heq in Hi. by destruct (cached_not_scheduled i k Hc). }
  apply (dependencies_get_scheduled i) in Hu; [|done].
  by destruct (Hunread i task).
Qed.

Lemma run_upto_frame n l :
  is_Some (h !! l) → st_heap (run_upto self h n) !! l = h !! l.
Proof.
  intros [m Hm].
  assert (l ≠ vloc) as Hl by (intros ->; by rewrite values_loc_fresh in Hm).
  destruct (decide (n ≤ length (schedule self))) as [Hn|Hn].
  - by apply (ri_frame _ _ _ _ (run_upto_inv n Hn)).
  - rewrite run_upto_ge by lia.
    by apply (ri_frame _ _ _ _ (run_upto_inv _ (Nat.le_refl _))).
Qed.

Lemma run_yielded_values t v :
  (t, v) ∈ st_yielded (run self h) →
  ∃ arguments r,
    execute t arguments = Returns r ∧
    v = _move_tensors r (storage_device self).
Proof.
  unfold run.
  apply (ri_yielded_values _ _ _ _ (run_upto_inv _ (Nat.le_refl _))).
Qed.

Lemma run_yielded :
  st_raised (run self h) = None →
  (st_yielded (run self h)).*1 = filter (.∈ targets self) (schedule self).
Proof.
  intros Hraised. unfold run in *.
  rewrite (ri_yielded _ _ _ _ (run_upto_inv _ (Nat.le_refl _)) Hraised).
  by rewrite take_ge.
Qed.

End executor_facts.

Lemma filter_fst_length_1 {A B} `{EqDecision A} (l : list (A * B)) (t : A) :
  NoDup l.*1 → t ∈ l.*1 → length (filter (λ p, p.1 = t) l) = 1.
Proof.
  induction l as [|[a b] l IH]; intros Hnd Ht; [by apply elem_of_nil in Ht|].
  rewrite fmap_cons in Hnd, Ht. apply NoDup_cons in Hnd as [Ha Hnd].
  destruct (decide (a = t)) as [->|Hne].
  - rewrite filter_cons_True by done. simpl. f_equal.
    apply length_zero_iff_nil, list_empty_no_elem.
    intros [a' b'] [Ha' Hin]%list_elem_of_filter. simpl in Ha'. subst a'.
    apply Ha. apply list_elem_of_fmap. by exists (t, b').
  - rewrite filter_cons_False by done. apply IH; [done|].
    by apply elem_of_cons in Ht as [->|?].
Qed.

Section init_ok.
Context {Task : Type} `{TaskClass Task} `{!SetOrder Task}.

Lemma __init___Ok (h : gmap loc (gmap Task value)) fuel tasks md sd cv self :
  __init__ h fuel tasks md sd cv = Some (Ok self) →
  targets self = tasks ∧ cached_values self = cv ∧
  math_device self = md ∧ storage_device self = sd ∧
  _make_schedule (cached_or_empty h cv) fuel tasks
    = Some (Ok (dependencies self, schedule self)).
Proof.
  unfold __init__.
  destruct (_make_schedule (cached_or_empty h cv) fuel tasks)
    as [[[deps sched]|e]|]; [|done..].
  simpl. by intros [= <-].
Qed.

Lemma __init___fuel (h : gmap loc (gmap Task value)) fuel fuel' tasks md sd cv
    r :
  fuel ≤ fuel' →
  __init__ h fuel tasks md sd cv = Some r →
  __init__ h fuel' tasks md sd cv = Some r.
Proof.
  intros Hle. unfold __init__.
  destruct (_make_schedule (cached_or_empty h cv) fuel tasks) as [r'|] eqn:Hm;
    [|done].
  by rewrite (_make_schedule_fuel _ _ _ _ _ Hle Hm).
Qed.

Lemma __init___wf (h : gmap loc (gmap Task value)) fuel tasks md sd cv self :
  __init__ h fuel tasks md sd cv = Some (Ok self) → executor_wf h self.
Proof.
  intros Hinit. apply __init___Ok in Hinit as (<- & <- & _ & _ & Hmake).
  apply _make_schedule_Ok in Hmake as (? & ? & _). by split.
Qed.

End init_ok.

(** * Part III: the claims *)

(** Closes a statement about a scenario by running it. *)
Ltac run_scenario := vm_compute; repeat split; by eauto.

(** C1.  When the dependency relation is acyclic (and finitely many tasks can
    be reached), the executor is built, and its schedule holds every task that
    is reached from the targets without going past a cached task and is not
    itself cached, once; it holds no cached task; it holds every target that
    is not cached; and every task comes after all its dependencies that are
    not cached. *)
Theorem schedule_topological `{TaskClass Task} `{!SetOrder Task}
    (h : gmap loc (gmap Task value)) (targets : list Task)
    (math_device storage_device : string) (cached_values : option loc) :
  let cached := cached_or_empty h cached_values in
  pred_finite (reachable cached targets) →
  acyclic cached targets →
  ∃ fuel0, ∀ fuel, fuel0 ≤ fuel →
    ∃ self,
      __init__ h fuel targets math_device storage_device cached_values
        = Some (Ok self) ∧
      NoDup (schedule self) ∧
      (∀ t, reachable cached targets t → cached !! t = None →
            t ∈ schedule self) ∧
      (∀ t, t ∈ schedule self → reachable cached targets t) ∧
      (∀ t, is_Some (cached !! t) → t ∉ schedule self) ∧
      (∀ t, t ∈ targets → cached !! t = None → t ∈ schedule self) ∧
      (∀ i t d, schedule self !! i = Some t → d ∈ (arguments t).*2 →
                cached !! d = None →
                ∃ j, j < i ∧ schedule self !! j = Some d).
Proof.
  intros cached Hfin Hacyclic.
  destruct (_make_schedule_acyclic cached targets Hfin Hacyclic)
    as [fuel0 Hfuel0].
  exists fuel0. intros fuel Hfuel.
  destruct (Hfuel0 fuel Hfuel) as (deps & sched & Hmake).
  destruct (_make_schedule_Ok cached targets fuel deps sched Hmake)
    as (_ & Hsched & _).
  eexists. unfold __init__. fold cached. rewrite Hmake. simpl.
  split; [done|]. simpl. split_and!.
  - apply Hsched.
  - intros t Ht Hc. by apply (ss_elem _ _ _ Hsched).
  - by intros t [? _]%(ss_elem _ _ _ Hsched).
  - intros t [v Hv] [_ Hc]%(ss_elem _ _ _ Hsched). congruence.
  - intros t Ht Hc. apply (ss_elem _ _ _ Hsched). split; [|done].
    by apply reachable_target.
  - apply Hsched.
Qed.

Lemma schedule_topological_witness :
  ∃ fuel0, ∀ fuel, fuel0 ≤ fuel →
    ∃ self,
      __init__ (H0 := fanout_tasks) (SetOrder0 := insertion_order string)
        no_heap fuel ["B"; "C"] "cpu" "cpu" None = Some (Ok self) ∧
      NoDup (schedule self) ∧
      (∀ t, reachable (H0 := fanout_tasks) ∅ ["B"; "C"] t →
            (∅ : gmap string value) !! t = None → t ∈ schedule self) ∧
      (∀ t, t ∈ schedule self → reachable (H0 := fanout_tasks) ∅ ["B"; "C"] t) ∧
      (∀ t, is_Some ((∅ : gmap string value) !! t) → t ∉ schedule self) ∧
      (∀ t, t ∈ ["B"; "C"] → (∅ : gmap string value) !! t = None →
            t ∈ schedule self) ∧
      (∀ i t d, schedule self !! i = Some t →
                d ∈ (arguments (TaskClass := fanout_tasks) t).*2 →
                (∅ : gmap string value) !! d = None →
                ∃ j, j < i ∧ schedule self !! j = Some d).
Proof.
  assert (∀ t, reachable (H0 := fanout_tasks) ∅ ["B"; "C"] t →
               t ∈ ["A"; "B"; "C"]) as Huniv.
  { apply reachable_universe; apply (bool_decide_unpack _); by vm_compute. }
  apply (schedule_topological (H0 := fanout_tasks)
           (SetOrder0 := insertion_order string)
           no_heap ["B"; "C"] "cpu" "cpu" None).
  - by exists ["A"; "B"; "C"].
  - apply acyclic_by_rank
      with ["A"; "B"; "C"] (λ t, if decide (t = "A") then 0 else 1); [done|].
    apply (bool_decide_unpack _). by vm_compute.
Defined.

(** C2.  In a run of an executor that was built, a value with last use
    [last] is read for the last time by the task of turn [last], it is in the
    store until then, once it has been put there, and it is in the store
    after no later turn.  In the chain A -> B -> C -> D with target D, the
    value of A is gone right after the turn of B, and the value of B right
    after the turn of C; when B and C depend on A and both are targets, the
    value of A is still there after the first of them, and gone after the
    second. *)
Theorem evicted_after_last_use `{TaskClass Task} `{!SetOrder Task}
    (h : gmap loc (gmap Task value)) (fuel : nat) (tasks : list Task)
    (math_device storage_device : string) (cached_values : option loc)
    (self : Executor) :
  __init__ h fuel tasks math_device storage_device cached_values
    = Some (Ok self) →
  (∀ k last, last_use_index self h !! k = Some last →
     (∀ i task, schedule self !! i = Some task → k ∈ (arguments task).*2 →
        i ≤ last ∧
        ∃ task', schedule self !! last = Some task' ∧
                 k ∈ (arguments task').*2) ∧
     (∀ n, last < n → n ≤ length (schedule self) →
        st_raised (run_upto self h n) = None →
        values_after self h n !! k = None) ∧
     (∀ n, n ≤ last → n ≤ length (schedule self) →
        st_raised (run_upto self h n) = None → stored_by h self n k →
        is_Some (values_after self h n !! k))) ∧
  (∃ fuel0, ∀ fuel, fuel0 ≤ fuel →
     ∃ chain, demo_init chain_tasks no_heap fuel ["D"] None = Some (Ok chain) ∧
       schedule chain = ["A"; "B"; "C"; "D"] ∧
       is_Some (demo_values chain_tasks chain no_heap 1 !! "A") ∧
       demo_values chain_tasks chain no_heap 2 !! "A" = None ∧
       is_Some (demo_values chain_tasks chain no_heap 2 !! "B") ∧
       demo_values chain_tasks chain no_heap 3 !! "B" = None) ∧
  (∃ fuel0, ∀ fuel, fuel0 ≤ fuel →
     ∃ fan, demo_init fanout_tasks no_heap fuel ["B"; "C"] None
              = Some (Ok fan) ∧
       schedule fan = ["A"; "C"; "B"] ∧
       is_Some (demo_values fanout_tasks fan no_heap 1 !! "A") ∧
       is_Some (demo_values fanout_tasks fan no_heap 2 !! "A") ∧
       demo_values fanout_tasks fan no_heap 3 !! "A" = None).
Proof.
  intros Hinit. pose proof (__init___wf _ _ _ _ _ _ _ Hinit) as Hwf.
  split_and!.
  - intros k last Hlast. split.
    + intros i task. by apply (last_use_is_last_consumer h self Hwf).
    + by apply (values_after_last_use h self Hwf).
  - exists 20. intros fuel' Hfuel. eexists. split.
    + apply (__init___fuel _ 20); [done|]. by vm_compute.
    + run_scenario.
  - exists 20. intros fuel' Hfuel. eexists. split.
    + apply (__init___fuel _ 20); [done|]. by vm_compute.
    + run_scenario.
Qed.

Lemma evicted_after_last_use_witness :
  let self := mkExecutor "cpu" "cpu" ["D"] ["A"; "B"; "C"; "D"]
                [("D", ["C"]); ("C", ["B"]); ("B", ["A"]); ("A", [])] None in
  (∀ k last,
     last_use_index (SetOrder0 := insertion_order string) self no_heap !! k
       = Some last →
     (∀ i task, schedule self !! i = Some task →
        k ∈ (arguments (TaskClass := chain_tasks) task).*2 →
        i ≤ last ∧
        ∃ task', schedule self !! last = Some task' ∧
                 k ∈ (arguments (TaskClass := chain_tasks) task').*2) ∧
     (∀ n, last < n → n ≤ length (schedule self) →
        st_raised (run_upto (H0 := chain_tasks)
                     (SetOrder0 := insertion_order string) self no_heap n)
          = None →
        demo_values chain_tasks self no_heap n !! k = None) ∧
     (∀ n, n ≤ last → n ≤ length (schedule self) →
        st_raised (run_upto (H0 := chain_tasks)
                     (SetOrder0 := insertion_order string) self no_heap n)
          = None →
        stored_by no_heap self n k →
        is_Some (demo_values chain_tasks self no_heap n !! k))) ∧
  (∃ fuel0, ∀ fuel, fuel0 ≤ fuel →
     ∃ chain, demo_init chain_tasks no_heap fuel ["D"] None = Some (Ok chain) ∧
       schedule chain = ["A"; "B"; "C"; "D"] ∧
       is_Some (demo_values chain_tasks chain no_heap 1 !! "A") ∧
       demo_values chain_tasks chain no_heap 2 !! "A" = None ∧
       is_Some (demo_values chain_tasks chain no_heap 2 !! "B") ∧
       demo_values chain_tasks chain no_heap 3 !! "B" = None) ∧
  (∃ fuel0, ∀ fuel, fuel0 ≤ fuel →
     ∃ fan, demo_init fanout_tasks no_heap fuel ["B"; "C"] None
              = Some (Ok fan) ∧
       schedule fan = ["A"; "C"; "B"] ∧
       is_Some (demo_values fanout_tasks fan no_heap 1 !! "A") ∧
       is_Some (demo_values fanout_tasks fan no_heap 2 !! "A") ∧
       demo_values fanout_tasks fan no_heap 3 !! "A" = None).
Proof.
  apply (evicted_after_last_use (H0 := chain_tasks)
           (SetOrder0 := insertion_order string)
           no_heap 20 ["D"] "cpu" "cpu" None).
  by vm_compute.
Defined.

(** C3.  When a task that is reached and not cached depends on itself through
    such tasks (and finitely many tasks can be reached), building the executor
    raises the cycle error of the sort, [NetworkXUnfeasible], and no task is
    executed. *)
Theorem cycle_fails_construction `{TaskClass Task} `{!SetOrder Task}
    (h : gmap loc (gmap Task value)) (targets : list Task)
    (math_device storage_device : string) (cached_values : option loc)
    (t : Task) :
  let cached := cached_or_empty h cached_values in
  pred_finite (reachable cached targets) →
  tc (depends_on cached targets) t t →
  ∃ fuel0, ∀ fuel, fuel0 ≤ fuel →
    __init__ h fuel targets math_device storage_device cached_values
      = Some (Raise NetworkXUnfeasible) ∧
    executed_tasks h fuel targets math_device storage_device cached_values
      = [].
Proof.
  intros cached Hfin Hcycle.
  destruct (_make_schedule_cyclic cached targets t Hfin Hcycle)
    as [fuel0 Hfuel0].
  exists fuel0. intros fuel Hfuel. specialize (Hfuel0 fuel Hfuel).
  unfold executed_tasks, __init__. fold cached. by rewrite Hfuel0.
Qed.

Lemma cycle_fails_construction_witness :
  ∃ fuel0, ∀ fuel, fuel0 ≤ fuel →
    __init__ (H0 := cycle_tasks) (SetOrder0 := insertion_order string)
      no_heap fuel ["A"] "cpu" "cpu" None = Some (Raise NetworkXUnfeasible) ∧
    executed_tasks (H0 := cycle_tasks) (SetOrder0 := insertion_order string)
      no_heap fuel ["A"] "cpu" "cpu" None = [].
Proof.
  assert (reachable (H0 := cycle_tasks) ∅ ["A"] "A") as HA
    by (apply reachable_target; set_solver).
  assert (reachable (H0 := cycle_tasks) ∅ ["A"] "B") as HB.
  { apply reachable_dep with "A"; [done|done|]. by apply (bool_decide_unpack _). }
  apply (cycle_fails_construction (H0 := cycle_tasks)
           (SetOrder0 := insertion_order string)
           no_heap ["A"] "cpu" "cpu" None "A").
  - exists ["A"; "B"]. apply reachable_universe;
      apply (bool_decide_unpack _); by vm_compute.
  - apply tc_l with "B".
    + split_and!; [done|done|]. by apply (bool_decide_unpack _).
    + apply tc_once. split_and!; [done|done|]. by apply (bool_decide_unpack _).
Defined.

(** C4, as stated: every requested target would be yielded.  A target that
    is cached is not in the schedule, and no pair is yielded for it. *)
Lemma cached_target_not_yielded :
  ∃ self,
    demo_init cached_tasks cached_heap 20 ["A"] (Some 1%positive)
      = Some (Ok self) ∧
    st_raised (demo_run cached_tasks self cached_heap) = None ∧
    ¬ yields_each_target self (demo_run cached_tasks self cached_heap).
Proof.
  eexists. split; [by vm_compute|]. split; [by vm_compute|].
  intros Hclaim. specialize (Hclaim "A"). vm_compute in Hclaim.
  assert (0 = 1) as Hfalse; [|done]. apply Hclaim. by left.
Qed.

(** C4, amended.  When the executor was built and the run ends without an
    exception, the tasks of the pairs yielded are the targets in the schedule,
    in the order of the schedule: one pair for every requested target that is
    not cached, and none for a cached one; the value of a pair is what
    [execute] returned for its task, moved to the storage device. *)
Theorem yields_targets_in_schedule_order `{TaskClass Task} `{!SetOrder Task}
    (h : gmap loc (gmap Task value)) (fuel : nat) (tasks : list Task)
    (math_device storage_device : string) (cached_values : option loc)
    (self : Executor) :
  __init__ h fuel tasks math_device storage_device cached_values
    = Some (Ok self) →
  st_raised (run self h) = None →
  (st_yielded (run self h)).*1 = filter (.∈ tasks) (schedule self) ∧
  (∀ t, t ∈ tasks → cached_or_empty h cached_values !! t = None →
        length (filter (λ p, p.1 = t) (st_yielded (run self h))) = 1) ∧
  (∀ t, is_Some (cached_or_empty h cached_values !! t) →
        t ∉ (st_yielded (run self h)).*1) ∧
  (∀ t v, (t, v) ∈ st_yielded (run self h) →
        ∃ arguments r,
          execute t arguments = Returns r ∧
          v = _move_tensors r storage_device).
Proof.
  intros Hinit Hraised. pose proof (__init___wf _ _ _ _ _ _ _ Hinit) as Hwf.
  apply __init___Ok in Hinit as (<- & <- & _ & <- & _).
  pose proof (run_yielded h self Hwf Hraised) as Hy.
  pose proof (ew_sched _ _ Hwf) as Hsched.
  split_and!; [done| | |by apply run_yielded_values].
  - intros t Ht Hc. apply filter_fst_length_1.
    + rewrite Hy. apply NoDup_filter, Hsched.
    + rewrite Hy. apply list_elem_of_filter. split; [done|].
      apply (ss_elem _ _ _ Hsched). split; [|done]. by apply reachable_target.
  - intros t [v Hv]. rewrite Hy.
    intros [_ [_ Hc]%(ss_elem _ _ _ Hsched)]%list_elem_of_filter. congruence.
Qed.

Lemma yields_targets_in_schedule_order_witness :
  let self := mkExecutor "cpu" "cpu" ["B"; "C"] ["A"; "C"; "B"]
                [("C", ["A"]); ("A", []); ("B", ["A"])] None in
  (st_yielded (demo_run fanout_tasks self no_heap)).*1
    = filter (.∈ ["B"; "C"]) (schedule self) ∧
  (∀ t, t ∈ ["B"; "C"] → cached_or_empty no_heap None !! t = None →
        length (filter (λ p, p.1 = t)
                  (st_yielded (demo_run fanout_tasks self no_heap))) = 1) ∧
  (∀ t, is_Some (cached_or_empty no_heap None !! t) →
        t ∉ (st_yielded (demo_run fanout_tasks self no_heap)).*1) ∧
  (∀ t v, (t, v) ∈ st_yielded (demo_run fanout_tasks self no_heap) →
        ∃ arguments r,
          execute (TaskClass := fanout_tasks) t arguments = Returns r ∧
          v = _move_tensors r "cpu").
Proof.
  apply (yields_targets_in_schedule_order (H0 := fanout_tasks)
           (SetOrder0 := insertion_order string)
           no_heap 20 ["B"; "C"] "cpu" "cpu" None).
  - by vm_compute.
  - by vm_compute.
Defined.

(** C5.  A is cached with the value 5, B depends on A and computes A + 1, and
    B is the target: the schedule is [B], the run yields (B, 6) and nothing
    else, and the only task executed is B. *)
Theorem cached_input_scenario :
  ∃ fuel0, ∀ fuel, fuel0 ≤ fuel →
    ∃ self,
      demo_init cached_tasks cached_heap fuel ["B"] (Some 1%positive)
        = Some (Ok self) ∧
      schedule self = ["B"] ∧
      st_yielded (demo_run cached_tasks self cached_heap) = [("B", VInt 6)] ∧
      st_executed (demo_run cached_tasks self cached_heap) = ["B"] ∧
      st_raised (demo_run cached_tasks self cached_heap) = None.
Proof.
  exists 20. intros fuel Hfuel. eexists. split.
  - apply (__init___fuel _ 20); [done|]. by vm_compute.
  - run_scenario.
Qed.



(** C7, as stated: the dummy node would be placed whenever it is ready.  With
    the leaves X of priority 1 and Y of priority 5 and the target Z, the dummy
    node is ready at the first turn, and Y is placed. *)
Lemma task_placed_before_root :
  ∃ deps sched order,
    _make_schedule (H0 := hints_tasks) (SetOrder0 := insertion_order string)
      ∅ 20 ["Z"] = Some (Ok (deps, sched)) ∧
    _topological_order (H0 := hints_tasks)
      (_make_graph (SetOrder0 := insertion_order string) deps ["Z"])
      = Some (Ok order) ∧
    ¬ root_sorts_first (H0 := hints_tasks)
        (_make_graph (SetOrder0 := insertion_order string) deps ["Z"]) order.
Proof.
  eexists _, _, _. split; [by vm_compute|]. split; [by vm_compute|].
  intros [_ Hclaim]. specialize (Hclaim 0 2).
  assert (2 = 3) as Hfalse; [|done]. apply Hclaim; [done|].
  split_and!.
  - vm_compute. set_solver.
  - vm_compute. set_solver.
  - intros p Hp. vm_compute in Hp. by apply elem_of_nil in Hp.
Qed.

(** C7, amended.  The dummy node has the key ("", 0).  The sort of a
    schedule that was built places it before every node whose key is
    greater, that is a task with a group label that is not empty, or with no
    group label and a negative priority.  When there are targets it is
    placed, and before every one of them.  A node whose key is smaller, that
    is a task with no group label and a positive priority, is placed before
    the dummy node when it is ready at a turn at which the dummy node has not
    been placed yet. *)
Theorem root_before_greater_keys `{TaskClass Task} `{!SetOrder Task}
    (cached : gmap Task value) (fuel : nat) (targets : list Task)
    (deps : list (Task * list Task)) (sched : list Task) :
  _make_schedule cached fuel targets = Some (Ok (deps, sched)) →
  ∃ order,
    _topological_order (_make_graph deps targets) = Some (Ok order) ∧
    _compare_key (sg_node_values (_make_graph deps targets))
      (sg_dummy_index (_make_graph deps targets)) = ("", 0%Z) ∧
    (∀ i j m,
      order !! i = Some (sg_dummy_index (_make_graph deps targets)) →
      order !! j = Some m →
      key_lt ("", 0%Z)
        (_compare_key (sg_node_values (_make_graph deps targets)) m) →
      i < j) ∧
    (∀ t, t ∈ targets →
      ∃ i j m,
        order !! i = Some (sg_dummy_index (_make_graph deps targets)) ∧
        order !! j = Some m ∧
        sg_node_values (_make_graph deps targets) !! m = Some (NTask t) ∧
        i < j) ∧
    (∀ i k m,
      order !! i = Some (sg_dummy_index (_make_graph deps targets)) →
      k ≤ i →
      ready (sg_graph (_make_graph deps targets)) (take k order) m →
      key_lt (_compare_key (sg_node_values (_make_graph deps targets)) m)
        ("", 0%Z) →
      ∃ j, j < i ∧ order !! j = Some m) ∧
    (∀ m t,
      sg_node_values (_make_graph deps targets) !! m = Some (NTask t) →
      (key_lt ("", 0%Z)
         (_compare_key (sg_node_values (_make_graph deps targets)) m) ↔
       (∃ label, group_label t = Some label ∧ label ≠ "") ∨
       (default "" (group_label t) = "" ∧ (priority t < 0)%Z)) ∧
      (key_lt (_compare_key (sg_node_values (_make_graph deps targets)) m)
         ("", 0%Z) ↔
       default "" (group_label t) = "" ∧ (0 < priority t)%Z)).
Proof.
  intros Hmake.
  destruct (_make_schedule_Ok cached targets fuel deps sched Hmake)
    as (Hdeps & _ & order & Hsort & Hinv & _).
  pose proof (_make_graph_spec deps targets) as Hsg.
  set (sg := _make_graph deps targets) in *.
  pose proof (dummy_key _ _ _ Hsg) as Hkey.
  destruct (sort_inv_final _ _ _ _ Hinv) as [Hnd Helem].
  exists order. split_and!; [done..| | | |].
  - intros i j m Hi Hj Hlt.
    destruct (Nat.lt_trichotomy i j) as [?|[->|Hji]]; [done| |].
    + rewrite Hi in Hj. injection Hj as <-. rewrite Hkey in Hlt.
      by apply (irreflexivity key_lt) in Hlt.
    + exfalso. rewrite <-Hkey in Hlt.
      apply (sort_least_key key_lt _ _ _ _ _ j m (sg_dummy_index sg) Hinv);
        [done| |done].
      split_and!.
      * apply Helem. by apply list_elem_of_lookup_2 in Hi.
      * intros (j' & Hj' & Hlt')%elem_of_take.
        pose proof (NoDup_lookup _ _ _ _ Hnd Hi Hj'). lia.
      * intros p Hp.
        by destruct (dummy_no_pred cached targets deps Hdeps sg Hsg p).
  - intros t Ht.
    destruct (reachable_node cached targets deps Hdeps sg Hsg t)
      as (m & Hnode & Hm); [by apply reachable_target|].
    apply Helem, list_elem_of_lookup in Hnode as [j Hj].
    assert (edge (sg_graph sg) (sg_dummy_index sg) m) as Hedge.
    { apply (mg_edges _ _ _ Hsg). exists NDummy, (NTask t).
      split_and!; [|apply Hsg|done].
      apply (node_pairs_spec cached targets deps Hdeps). right. eauto. }
    destruct (mg_graph _ _ _ Hsg) as [es HG].
    destruct (edge_before key_lt es _ HG _ _ _ _ _ _ j Hinv Hedge Hj)
      as (i & Hlt & Hi).
    by exists i, j, m.
  - intros i k m Hi Hk (Hnode & Hnew & Hpreds) Hlt.
    destruct (decide (m ∈ take i order)) as [Hin|Hnin].
    { apply elem_of_take in Hin as (j & Hj & Hji). eauto. }
    exfalso. rewrite <-Hkey in Hlt.
    apply (sort_least_key key_lt _ _ _ _ _ i (sg_dummy_index sg) m Hinv);
      [done| |done].
    split_and!; [done..|]. intros p Hp.
    apply elem_of_take. apply Hpreds, elem_of_take in Hp as (j & Hj & Hjk).
    exists j. split; [done|lia].
  - intros m t Hm. unfold _compare_key. rewrite Hm.
    unfold key_lt, lex_lt. simpl.
    destruct (group_label t) as [label|]; simpl.
    + destruct (decide (label = "")) as [->|Hne].
      * rewrite !decide_True by done. split; split.
        -- intros Hlt. right. split; [done|lia].
        -- intros [(label & [= <-] & Hne)|[_ Hp]]; [done|lia].
        -- intros Hlt. split; [done|lia].
        -- intros [_ Hp]. lia.
      * rewrite decide_False by congruence.
        assert (String.le "" label) as Hnil by by destruct label.
        split; split.
        -- intros _. left. eauto.
        -- intros _. apply strict_spec_alt. split; [done|congruence].
        -- by intros [Hle Hnle].
        -- by intros [? _].
    + split; split.
      * intros Hlt. right. split; [done|lia].
      * intros [(label & [=] & _)|[_ Hp]]. lia.
      * intros Hlt. split; [done|lia].
      * intros [_ Hp]. lia.
Qed.

Lemma root_before_greater_keys_witness :
  let deps := [("Z", ["X"; "Y"]); ("Y", []); ("X", [])] in
  let sg := _make_graph (SetOrder0 := insertion_order string) deps ["Z"] in
  ∃ order,
    _topological_order (H0 := hints_tasks) sg = Some (Ok order) ∧
    _compare_key (H0 := hints_tasks) (sg_node_values sg) (sg_dummy_index sg)
      = ("", 0%Z) ∧
    (∀ i j m,
      order !! i = Some (sg_dummy_index sg) → order !! j = Some m →
      key_lt ("", 0%Z) (_compare_key (H0 := hints_tasks) (sg_node_values sg) m) →
      i < j) ∧
    (∀ t, t ∈ ["Z"] →
      ∃ i j m,
        order !! i = Some (sg_dummy_index sg) ∧ order !! j = Some m ∧
        sg_node_values sg !! m = Some (NTask t) ∧ i < j) ∧
    (∀ i k m,
      order !! i = Some (sg_dummy_index sg) → k ≤ i →
      ready (sg_graph sg) (take k order) m →
      key_lt (_compare_key (H0 := hints_tasks) (sg_node_values sg) m)
        ("", 0%Z) →
      ∃ j, j < i ∧ order !! j = Some m) ∧
    (∀ m t,
      sg_node_values sg !! m = Some (NTask t) →
      (key_lt ("", 0%Z)
         (_compare_key (H0 := hints_tasks) (sg_node_values sg) m) ↔
       (∃ label, group_label (TaskClass := hints_tasks) t = Some label ∧
                 label ≠ "") ∨
       (default "" (group_label (TaskClass := hints_tasks) t) = "" ∧
        (priority (TaskClass := hints_tasks) t < 0)%Z)) ∧
      (key_lt (_compare_key (H0 := hints_tasks) (sg_node_values sg) m)
         ("", 0%Z) ↔
       default "" (group_label (TaskClass := hints_tasks) t) = "" ∧
       (0 < priority (TaskClass := hints_tasks) t)%Z)).
Proof.
  apply (root_before_greater_keys (H0 := hints_tasks)
           (SetOrder0 := insertion_order string) ∅ 20 ["Z"] _ ["Y"; "X"; "Z"]).
  by vm_compute.
Defined.




(** C9.  In a run of an executor that was built, a turn finds the value of
    every dependency of its task in the store, and the run never ends with
    the [KeyError] of a missing value; in any state, a missing value makes
    the turn raise [KeyError] before the task is executed, and no turn
    follows an exception. *)
Theorem dependencies_in_store `{TaskClass Task} `{!SetOrder Task}
    (h : gmap loc (gmap Task value)) (fuel : nat) (tasks : list Task)
    (math_device storage_device : string) (cached_values : option loc)
    (self : Executor) :
  __init__ h fuel tasks math_device storage_device cached_values
    = Some (Ok self) →
  (∀ n task dep,
     schedule self !! n = Some task →
     st_raised (run_upto self h n) = None →
     dep ∈ (arguments task).*2 →
     is_Some (values_after self h n !! dep)) ∧
  (∀ n, st_raised (run_upto self h n) ≠ Some KeyError) ∧
  (∀ last_use vloc st idx task dep,
     dep ∈ (arguments task).*2 → (st_heap st !!! vloc) !! dep = None →
     run_step self last_use vloc st (idx, task)
       = mkRunState (st_heap st) (st_yielded st) (st_executed st)
           (Some KeyError)) ∧
  (∀ last_use vloc st it,
     is_Some (st_raised st) → run_turn self last_use vloc st it = st).
Proof.
  intros Hinit. pose proof (__init___wf _ _ _ _ _ _ _ Hinit) as Hwf.
  split_and!.
  - intros n task dep Hn Hraised Hdep.
    apply values_after_Some; [done|by apply lookup_lt_Some in Hn; lia|done|].
    split; [by apply (scheduled_argument_stored h self Hwf n task)|].
    destruct (last_use_of_use h self n task dep Hn) as (last & ? & ? & _).
    { right. by apply (dependencies_get_scheduled h self Hwf n). }
    eauto.
  - by apply run_never_KeyError.
  - intros last_use vloc st idx task dep Hdep Hnone. unfold run_step.
    by rewrite (resolve_arguments_KeyError _ _ _ _ dep).
  - intros last_use vloc st it [e He]. unfold run_turn. by rewrite He.
Qed.

Lemma dependencies_in_store_witness :
  let self := mkExecutor "cpu" "cpu" ["D"] ["A"; "B"; "C"; "D"]
                [("D", ["C"]); ("C", ["B"]); ("B", ["A"]); ("A", [])] None in
  (∀ n task dep,
     schedule self !! n = Some task →
     st_raised (run_upto (H0 := chain_tasks)
                  (SetOrder0 := insertion_order string) self no_heap n)
       = None →
     dep ∈ (arguments (TaskClass := chain_tasks) task).*2 →
     is_Some (values_after (H0 := chain_tasks)
                (SetOrder0 := insertion_order string) self no_heap n !! dep)) ∧
  (∀ n, st_raised (run_upto (H0 := chain_tasks)
                     (SetOrder0 := insertion_order string) self no_heap n)
        ≠ Some KeyError) ∧
  (∀ last_use vloc st idx task dep,
     dep ∈ (arguments (TaskClass := chain_tasks) task).*2 →
     (st_heap st !!! vloc) !! dep = None →
     run_step (H0 := chain_tasks) self last_use vloc st (idx, task)
       = mkRunState (st_heap st) (st_yielded st) (st_executed st)
           (Some KeyError)) ∧
  (∀ last_use vloc st it,
     is_Some (st_raised st) →
     run_turn (H0 := chain_tasks) self last_use vloc st it = st).
Proof.
  apply (dependencies_in_store (H0 := chain_tasks)
           (SetOrder0 := insertion_order string)
           no_heap 20 ["D"] "cpu" "cpu" None).
  by vm_compute.
Defined.

(** C10.  In a run of an executor that was built, a cached value that
    scheduled tasks read stays in the store, unchanged, up to the turn of the
    last task that reads it, and is in the store after no later turn; a
    cached value that no scheduled task reads stays in the store, unchanged,
    for the whole run; the dictionary given as [cached_values] is never
    written: it is the same after every turn; and the eviction never fails
    to find the last use of a key, the run never ends with a [KeyError].
    When A is cached with the value 5 and U with the value 9, and the target
    B reads A, the run raises nothing, the value of A is in the store before
    the turn of B and gone after it, the value of U is in the store before
    and after it, and the dictionary that was given still holds both. *)
Theorem cached_values_eviction `{TaskClass Task} `{!SetOrder Task}
    (h : gmap loc (gmap Task value)) (fuel : nat) (tasks : list Task)
    (math_device storage_device : string) (cached_values : option loc)
    (self : Executor) :
  __init__ h fuel tasks math_device storage_device cached_values
    = Some (Ok self) →
  (∀ k v last task,
     cached_or_empty h cached_values !! k = Some v →
     schedule self !! last = Some task → k ∈ (arguments task).*2 →
     (∀ j task', last < j → schedule self !! j = Some task' →
                 k ∉ (arguments task').*2) →
     (∀ n, n ≤ last → st_raised (run_upto self h n) = None →
           values_after self h n !! k = Some v) ∧
     (∀ n, last < n → n ≤ length (schedule self) →
           st_raised (run_upto self h n) = None →
           values_after self h n !! k = None)) ∧
  (∀ k v,
     cached_or_empty h cached_values !! k = Some v →
     (∀ j task, schedule self !! j = Some task → k ∉ (arguments task).*2) →
     ∀ n, n ≤ length (schedule self) →
          st_raised (run_upto self h n) = None →
          values_after self h n !! k = Some v) ∧
  (∀ l n, cached_values = Some l → is_Some (h !! l) →
          st_heap (run_upto self h n) !! l = h !! l) ∧
  (∀ n, st_raised (run_upto self h n) ≠ Some KeyError) ∧
  (∃ fuel0, ∀ fuel, fuel0 ≤ fuel →
     ∃ ex, demo_init cached_tasks cached_unread_heap fuel ["B"]
             (Some 1%positive) = Some (Ok ex) ∧
       schedule ex = ["B"] ∧
       st_raised (demo_run cached_tasks ex cached_unread_heap) = None ∧
       demo_values cached_tasks ex cached_unread_heap 0 !! "A"
         = Some (VInt 5) ∧
       demo_values cached_tasks ex cached_unread_heap 1 !! "A" = None ∧
       demo_values cached_tasks ex cached_unread_heap 0 !! "U"
         = Some (VInt 9) ∧
       demo_values cached_tasks ex cached_unread_heap 1 !! "U"
         = Some (VInt 9) ∧
       st_yielded (demo_run cached_tasks ex cached_unread_heap)
         = [("B", VInt 6)] ∧
       st_heap (demo_run cached_tasks ex cached_unread_heap) !! 1%positive
         = cached_unread_heap !! 1%positive ∧
       cached_unread_heap !! 1%positive
         = Some {[ "A" := VInt 5; "U" := VInt 9 ]}).
Proof.
  intros Hinit. pose proof (__init___wf _ _ _ _ _ _ _ Hinit) as Hwf.
  apply __init___Ok in Hinit as (_ & Hcv & _). rewrite <-Hcv.
  split_and!.
  - intros k v last task Hk Hlast Hread Hlater.
    assert (last_use_index self h !! k = Some last) as Hlui
      by (apply (cached_last_use h self Hwf k last task); eauto).
    apply lookup_lt_Some in Hlast as Hlen.
    destruct (values_after_last_use h self Hwf k last Hlui) as [Hgone Hkept].
    split; [|done]. intros n Hn Hraised.
    apply (values_after_cached h self Hwf); [lia|done..|].
    apply Hkept; [done|lia|done|]. left. eauto.
  - intros k v Hk Hunread n Hn Hraised.
    assert (last_use_index self h !! k
              = Some (length (schedule self) + 1)) as Hlui
      by (apply (cached_unread_last_use h self Hwf); eauto).
    destruct (values_after_last_use h self Hwf k _ Hlui) as [_ Hkept].
    apply (values_after_cached h self Hwf); [done..|].
    apply Hkept; [lia|done..|]. left. eauto.
  - intros l n _ Hl. by apply (run_upto_frame h self Hwf).
  - by apply run_never_KeyError.
  - exists 20. intros fuel' Hfuel. eexists. split.
    + apply (__init___fuel _ 20); [done|]. by vm_compute.
    + run_scenario.
Qed.

Lemma cached_values_eviction_witness :
  let self := mkExecutor "cpu" "cpu" ["B"] ["B"] [("B", ["A"]); ("A", [])]
                (Some 1%positive) in
  st_raised (demo_run cached_tasks self cached_heap) = None ∧
  (∀ k v last task,
     cached_or_empty cached_heap (Some 1%positive) !! k = Some v →
     schedule self !! last = Some task →
     k ∈ (arguments (TaskClass := cached_tasks) task).*2 →
     (∀ j task', last < j → schedule self !! j = Some task' →
                 k ∉ (arguments (TaskClass := cached_tasks) task').*2) →
     (∀ n, n ≤ last →
           st_raised (run_upto (H0 := cached_tasks)
                        (SetOrder0 := insertion_order string)
                        self cached_heap n) = None →
           demo_values cached_tasks self cached_heap n !! k = Some v) ∧
     (∀ n, last < n → n ≤ length (schedule self) →
           st_raised (run_upto (H0 := cached_tasks)
                        (SetOrder0 := insertion_order string)
                        self cached_heap n) = None →
           demo_values cached_tasks self cached_heap n !! k = None)) ∧
  (∀ k v,
     cached_or_empty cached_heap (Some 1%positive) !! k = Some v →
     (∀ j task, schedule self !! j = Some task →
                k ∉ (arguments (TaskClass := cached_tasks) task).*2) →
     ∀ n, n ≤ length (schedule self) →
          st_raised (run_upto (H0 := cached_tasks)
                       (SetOrder0 := insertion_order string)
                       self cached_heap n) = None →
          demo_values cached_tasks self cached_heap n !! k = Some v) ∧
  (∀ l n, Some 1%positive = Some l → is_Some (cached_heap !! l) →
          st_heap (run_upto (H0 := cached_tasks)
                     (SetOrder0 := insertion_order string)
                     self cached_heap n) !! l = cached_heap !! l) ∧
  (∀ n, st_raised (run_upto (H0 := cached_tasks)
                     (SetOrder0 := insertion_order string)
                     self cached_heap n) ≠ Some KeyError) ∧
  (∃ fuel0, ∀ fuel, fuel0 ≤ fuel →
     ∃ ex, demo_init cached_tasks cached_unread_heap fuel ["B"]
             (Some 1%positive) = Some (Ok ex) ∧
       schedule ex = ["B"] ∧
       st_raised (demo_run cached_tasks ex cached_unread_heap) = None ∧
       demo_values cached_tasks ex cached_unread_heap 0 !! "A"
         = Some (VInt 5) ∧
       demo_values cached_tasks ex cached_unread_heap 1 !! "A" = None ∧
       demo_values cached_tasks ex cached_unread_heap 0 !! "U"
         = Some (VInt 9) ∧
       demo_values cached_tasks ex cached_unread_heap 1 !! "U"
         = Some (VInt 9) ∧
       st_yielded (demo_run cached_tasks ex cached_unread_heap)
         = [("B", VInt 6)] ∧
       st_heap (demo_run cached_tasks ex cached_unread_heap) !! 1%positive
         = cached_unread_heap !! 1%positive ∧
       cached_unread_heap !! 1%positive
         = Some {[ "A" := VInt 5; "U" := VInt 9 ]}).
Proof.
  intros self. split; [by vm_compute|].
  apply (cached_values_eviction (H0 := cached_tasks)
           (SetOrder0 := insertion_order string)
           cached_heap 20 ["B"] "cpu" "cpu" (Some 1%positive)).
  by vm_compute.
Defined.

(** * Part IV: further properties of the code *)

(** ** [_move_tensors] *)











(** ** [_index] *)

Section index_facts.
Context {Task : Type} `{TaskClass Task} `{!SetOrder Task}.
Implicit Types (st : index_state (Task:=Task)) (n : node (Task:=Task)).

Lemma foldl_index_inv (ns : list (node (Task:=Task))) st :
  index_inv st →
  index_inv (foldl (λ st n, (_index n st).2) st ns) ∧
  ∀ a, a ∈ node_values (foldl (λ st n, (_index n st).2) st ns) ↔
       a ∈ node_values st ∨ a ∈ ns.
Proof.
  revert st. induction ns as [|n ns IH]; intros st Hst; simpl.
  - split; [done|]. intros a. rewrite elem_of_nil. tauto.
  - destruct (_index_spec n st Hst) as (Hst' & _ & _ & Helem).
    destruct (IH _ Hst') as [Hinv Hin]. split; [done|].
    intros a. rewrite Hin, Helem, elem_of_cons. tauto.
Qed.

Lemma index_calls_inv (ns : list (node (Task:=Task))) :
  index_inv (index_calls ns) ∧ ∀ a, a ∈ node_values (index_calls ns) ↔ a ∈ ns.
Proof.
  destruct (foldl_index_inv ns _ index_inv_empty) as [Hinv Hin].
  split; [done|]. intros a. unfold index_calls. rewrite Hin. simpl.
  rewrite elem_of_nil. tauto.
Qed.

(** X4.  After any calls of [_index], a call for a node returns an index at
    which [node_values] holds that node; a second call for the node returns
    the same index and changes nothing; no other node gets this index; the
    nodes indexed before keep their place; and a call for a node that was
    indexed before changes nothing. *)
Theorem index_round_trip (ns : list (node (Task:=Task))) n :
  let st := index_calls ns in
  let i := (_index n st).1 in
  let st' := (_index n st).2 in
  node_values st' !! i = Some n ∧
  _index n st' = (i, st') ∧
  (∀ m, (_index m st').1 = i → m = n) ∧
  (∀ j a, node_values st !! j = Some a → node_values st' !! j = Some a) ∧
  (n ∈ ns → st' = st).
Proof.
  intros st i st'. destruct (index_calls_inv ns) as [Hinv Hin]. fold st in Hinv.
  destruct (_index_spec n st Hinv) as (Hinv' & Hlook & Hkeep & _).
  fold i st' in Hinv', Hlook, Hkeep.
  assert (node_indices st' !! n = Some i) as Hi
    by by apply (ii_lookup _ Hinv').
  split_and!.
  - done.
  - unfold _index. by rewrite Hi.
  - intros m Hm. unfold _index in Hm.
    destruct (node_indices st' !! m) as [j|] eqn:Hj; simpl in Hm.
    + subst j. apply (ii_lookup _ Hinv') in Hj. congruence.
    + rewrite (ii_size _ Hinv') in Hm. apply lookup_lt_Some in Hlook. lia.
  - done.
  - intros Hn%Hin. fold st in Hn.
    apply list_elem_of_lookup in Hn as [j Hj].
    apply (ii_lookup _ Hinv) in Hj. unfold st', _index. by rewrite Hj.
Qed.

End index_facts.

(** ** [_build_dependencies] *)

(** X5.  When finitely many tasks can be reached, [_build_dependencies]
    returns, whether the dependencies have a cycle or not: the loop visits a
    task once.  The dictionary it returns has one key for every task that is
    reached from the targets without going past a cached task; a cached task
    has the empty set, any other task the set of the tasks that are its
    arguments. *)
Theorem build_dependencies_any_graph `{TaskClass Task}
    (cached : gmap Task value) (targets : list Task) :
  pred_finite (reachable cached targets) →
  ∃ fuel0, ∀ fuel, fuel0 ≤ fuel →
    ∃ deps,
      _build_dependencies cached fuel targets = Some deps ∧
      NoDup deps.*1 ∧
      (∀ t, t ∈ deps.*1 ↔ reachable cached targets t) ∧
      (∀ t ds, (t, ds) ∈ deps →
         NoDup ds ∧
         (is_Some (cached !! t) → ds = []) ∧
         (cached !! t = None → ∀ d, d ∈ ds ↔ d ∈ (arguments t).*2)).
Proof.
  intros Hfin.
  destruct (_build_dependencies_returns cached targets Hfin) as [fuel0 Hfuel0].
  exists fuel0. intros fuel Hfuel.
  destruct (Hfuel0 fuel Hfuel) as (deps & Hbuild & Hdeps).
  exists deps. split_and!; [done|apply Hdeps..|].
  intros t ds Hin. split_and!.
  - by apply (ds_sets_nodup _ _ _ Hdeps t).
  - intros [v Hv]. apply list_empty_no_elem. intros d Hd.
    apply (ds_sets _ _ _ Hdeps t ds d Hin) in Hd as [Hnone _]. congruence.
  - intros Hnone d. rewrite (ds_sets _ _ _ Hdeps t ds d Hin). tauto.
Qed.

Lemma build_dependencies_any_graph_witness :
  ∃ fuel0, ∀ fuel, fuel0 ≤ fuel →
    ∃ deps,
      _build_dependencies (H0 := cycle_tasks) ∅ fuel ["A"] = Some deps ∧
      NoDup deps.*1 ∧
      (∀ t, t ∈ deps.*1 ↔ reachable (H0 := cycle_tasks) ∅ ["A"] t) ∧
      (∀ t ds, (t, ds) ∈ deps →
         NoDup ds ∧
         (is_Some ((∅ : gmap string value) !! t) → ds = []) ∧
         ((∅ : gmap string value) !! t = None →
          ∀ d, d ∈ ds ↔ d ∈ (arguments (TaskClass := cycle_tasks) t).*2)).
Proof.
  apply (build_dependencies_any_graph (H0 := cycle_tasks) ∅ ["A"]).
  exists ["A"; "B"].
  apply reachable_universe; apply (bool_decide_unpack _); by vm_compute.
Defined.

(** ** [_make_schedule] *)

Section cached_keys.
Context {Task : Type} `{TaskClass Task} `{!SetOrder Task}.
Context (cached cached' : gmap Task value).
Context (Hdom : dom cached = dom cached').

Lemma same_keys_is_Some t : is_Some (cached !! t) ↔ is_Some (cached' !! t).
Proof. by rewrite <-!elem_of_dom, Hdom. Qed.

Lemma same_keys_None t : cached !! t = None ↔ cached' !! t = None.
Proof. by rewrite <-!not_elem_of_dom, Hdom. Qed.

Lemma _build_dependencies_loop_keys fuel deps to_process :
  _build_dependencies_loop cached fuel deps to_process =
  _build_dependencies_loop cached' fuel deps to_process.
Proof.
  revert deps to_process. induction fuel as [|fuel IH]; intros deps to_process;
    [done|].
  cbn [_build_dependencies_loop].
  destruct (list_pop to_process) as [[child to_process']|]; [|done].
  case_decide; [done|].
  destruct (decide (is_Some (cached !! child))) as [Hc|Hc];
    destruct (decide (is_Some (cached' !! child))) as [Hc'|Hc']; try done.
  - by apply same_keys_is_Some in Hc.
  - by apply same_keys_is_Some in Hc'.
Qed.

Lemma _filter_schedule_keys (sg : schedule_graph (Task:=Task)) order :
  _filter_schedule cached sg order = _filter_schedule cached' sg order.
Proof.
  induction order as [|idx order IH]; [done|]. cbn [_filter_schedule].
  rewrite IH. destruct (sg_node_values sg !! idx) as [[t|]|]; [|done..].
  destruct (_filter_schedule cached' sg order) as [rest|e]; [|done].
  destruct (decide (idx ≠ sg_dummy_index sg ∧ cached !! t = None)) as [Hc|Hc];
    destruct (decide (idx ≠ sg_dummy_index sg ∧ cached' !! t = None))
      as [Hc'|Hc']; try done.
  - destruct Hc'. by rewrite <-same_keys_None.
  - destruct Hc. by rewrite same_keys_None.
Qed.

End cached_keys.

(** X6.  The dependencies and the schedule that [_make_schedule] computes
    depend on the cached values only through the tasks that are cached: two
    mappings with the same keys give the same result, whatever the values. *)
Theorem make_schedule_cached_keys `{TaskClass Task} `{!SetOrder Task}
    (cached cached' : gmap Task value) (fuel : nat) (targets : list Task) :
  dom cached = dom cached' →
  _make_schedule cached fuel targets = _make_schedule cached' fuel targets.
Proof.
  intros Hdom. unfold _make_schedule, _build_dependencies.
  rewrite (_build_dependencies_loop_keys cached cached' Hdom).
  destruct (_build_dependencies_loop cached' fuel [] targets) as [deps|];
    [|done].
  simpl. destruct (_topological_order (_make_graph deps targets))
    as [[order|e]|]; [|done..].
  simpl. by rewrite (_filter_schedule_keys cached cached' Hdom).
Qed.

Lemma make_schedule_cached_keys_witness :
  _make_schedule (H0 := cached_tasks) (SetOrder0 := insertion_order string)
    {[ "A" := VInt 5 ]} 10 ["B"] =
  _make_schedule (H0 := cached_tasks) (SetOrder0 := insertion_order string)
    {[ "A" := VInt 7 ]} 10 ["B"].
Proof.
  apply (make_schedule_cached_keys (H0 := cached_tasks)
           (SetOrder0 := insertion_order string)).
  by rewrite !dom_singleton_L.
Defined.

(** ** Targets that are all cached *)

Section all_cached.
Context {Task : Type} `{TaskClass Task} `{!SetOrder Task}.
Context (cached : gmap Task value) (targets : list Task).
Context (Hall : ∀ t, t ∈ targets → is_Some (cached !! t)).

Lemma all_cached_reachable t : reachable cached targets t → t ∈ targets.
Proof.
  induction 1 as [t Ht|t d _ IH Hnone _]; [done|].
  destruct (Hall t IH) as [v Hv]. congruence.
Qed.

Lemma all_cached_acyclic : acyclic cached targets.
Proof.
  intros t [y (Ht & Hnone & _)]%tc_last.
  destruct (Hall t (all_cached_reachable t Ht)) as [v Hv]. congruence.
Qed.

End all_cached.

(** X7.  When every requested target is cached, and so when no target is
    requested at all, the executor is built with an empty schedule, the
    dependencies hold the targets with empty sets, and a run executes no
    task, yields nothing and raises nothing. *)
Theorem all_targets_cached `{TaskClass Task} `{!SetOrder Task}
    (h : gmap loc (gmap Task value)) (tasks : list Task)
    (math_device storage_device : string) (cached_values : option loc) :
  (∀ t, t ∈ tasks → is_Some (cached_or_empty h cached_values !! t)) →
  ∃ fuel0, ∀ fuel, fuel0 ≤ fuel →
    ∃ self,
      __init__ h fuel tasks math_device storage_device cached_values
        = Some (Ok self) ∧
      schedule self = [] ∧
      (∀ t ds, (t, ds) ∈ dependencies self → t ∈ tasks ∧ ds = []) ∧
      st_executed (run self h) = [] ∧
      st_yielded (run self h) = [] ∧
      st_raised (run self h) = None ∧
      (Executor_execute self h).2 = Ok tt.
Proof.
  intros Hall. set (cached := cached_or_empty h cached_values) in *.
  destruct (_make_schedule_acyclic cached tasks) as [fuel0 Hfuel0].
  { exists tasks. apply all_cached_reachable, Hall. }
  { apply all_cached_acyclic, Hall. }
  exists fuel0. intros fuel Hfuel.
  destruct (Hfuel0 fuel Hfuel) as (deps & sched & Hmake).
  destruct (_make_schedule_Ok cached tasks fuel deps sched Hmake)
    as (Hdeps & Hsched & _).
  assert (sched = []) as ->.
  { apply list_empty_no_elem. intros t [Ht Hnone]%(ss_elem _ _ _ Hsched).
    destruct (Hall t (all_cached_reachable cached tasks Hall t Ht)) as [v Hv].
    congruence. }
  eexists. unfold __init__. fold cached. rewrite Hmake. simpl.
  split; [done|]. simpl. split_and!; try done.
  intros t ds Hin.
  assert (t ∈ tasks) as Ht.
  { apply (all_cached_reachable cached tasks Hall), (ds_keys _ _ _ Hdeps).
    apply list_elem_of_fmap. by exists (t, ds). }
  split; [done|]. apply list_empty_no_elem. intros d Hd.
  apply (ds_sets _ _ _ Hdeps t ds d Hin) in Hd as [Hnone _].
  destruct (Hall t Ht) as [v Hv]. congruence.
Qed.

Lemma all_targets_cached_witness :
  ∃ fuel0, ∀ fuel, fuel0 ≤ fuel →
    ∃ self,
      demo_init cached_tasks cached_heap fuel ["A"] (Some 1%positive)
        = Some (Ok self) ∧
      schedule self = [] ∧
      (∀ t ds, (t, ds) ∈ dependencies self → t ∈ ["A"] ∧ ds = []) ∧
      st_executed (demo_run cached_tasks self cached_heap) = [] ∧
      st_yielded (demo_run cached_tasks self cached_heap) = [] ∧
      st_raised (demo_run cached_tasks self cached_heap) = None ∧
      (Executor_execute (H0 := cached_tasks)
         (SetOrder0 := insertion_order string) self cached_heap).2 = Ok tt.
Proof.
  apply (all_targets_cached (H0 := cached_tasks)
           (SetOrder0 := insertion_order string)
           cached_heap ["A"] "cpu" "cpu" (Some 1%positive)).
  intros t ->%list_elem_of_singleton. vm_compute. eauto.
Defined.

(** ** The turns of [run] *)

Section run_outcome_facts.
Context {Task : Type} `{TaskClass Task} `{!SetOrder Task}.
Context (h : gmap loc (gmap Task value)) (self : Executor (Task:=Task)).

Abbreviation lui := (last_use_index self h).
Abbreviation vloc := (values_loc h).

Lemma foldl_run_turn_raised (st : run_state (Task:=Task)) l e :
  st_raised st = Some e → foldl (run_turn self lui vloc) st l = st.
Proof.
  intros He. induction l as [|it l IH]; [done|]. simpl.
  unfold run_turn at 2. by rewrite He.
Qed.

(** Once the run has raised, the later turns change nothing. *)
Lemma run_upto_frozen n m e :
  st_raised (run_upto self h n) = Some e → n ≤ m →
  run_upto self h m = run_upto self h n.
Proof.
  intros He Hle. unfold run_upto in *.
  rewrite <-(take_drop n (take m (enumerate (schedule self)))).
  rewrite take_take, Nat.min_l by done. rewrite foldl_app.
  by apply foldl_run_turn_raised with e.
Qed.

Lemma run_upto_raised_mono n m :
  n ≤ m → st_raised (run_upto self h m) = None →
  st_raised (run_upto self h n) = None.
Proof.
  intros Hle Hm. destruct (st_raised (run_upto self h n)) as [e|] eqn:He;
    [|done].
  rewrite (run_upto_frozen n m e He Hle) in Hm. congruence.
Qed.

Context (Hwf : executor_wf h self).

(** What a turn does to the state of the run, for an executor that was
    built. *)
Lemma run_turn_outcome n task :
  schedule self !! n = Some task →
  st_raised (run_upto self h n) = None →
  ∃ args,
    resolve_arguments self (values_after self h n) (uses_accelerator task)
      (arguments task) = Ok args ∧
    match execute task args with
    | Raises msg =>
        run_upto self h (S n) =
          mkRunState (st_heap (run_upto self h n))
            (st_yielded (run_upto self h n))
            (st_executed (run_upto self h n) ++ [task])
            (Some (TaskExecutionError msg))
    | Returns r =>
        st_raised (run_upto self h (S n)) = None ∧
        st_yielded (run_upto self h (S n)) =
          st_yielded (run_upto self h n) ++
          (if decide (task ∈ targets self)
           then [(task, _move_tensors r (storage_device self))] else []) ∧
        st_executed (run_upto self h (S n)) =
          st_executed (run_upto self h n) ++ [task] ∧
        ∀ k v, values_after self h (S n) !! k = Some v →
          <[task := _move_tensors r (storage_device self)]>
            (values_after self h n) !! k = Some v
    end.
Proof.
  intros Hn Hnone.
  assert (n ≤ length (schedule self)) as Hlen
    by (apply lookup_lt_Some in Hn; lia).
  pose proof (run_upto_inv h self Hwf n Hlen) as Hinv.
  pose proof (ri_values _ _ _ _ Hinv Hnone) as Hvalues.
  unfold values_after. rewrite (run_upto_S h self n task Hn).
  unfold run_turn. rewrite Hnone. unfold run_step.
  set (st := run_upto self h n) in *.
  set (values := st_heap st !!! vloc) in *.
  destruct (last_use_of_use h self n task task Hn) as (Lt & HLt & HLt_le & _);
    [by left|].
  destruct (resolve_arguments_Ok self values (uses_accelerator task)
              (arguments task)) as [resolved Hres].
  { intros dep Hdep. apply Hvalues. split.
    - by apply (scheduled_argument_stored h self Hwf n task).
    - destruct (last_use_of_use h self n task dep Hn) as (L & HL & Hle & _).
      { right. by apply (dependencies_get_scheduled h self Hwf n). }
      eauto. }
  rewrite Hres. exists resolved. split; [done|].
  destruct (execute task resolved) as [r|msg] eqn:Hexec; [|done].
  set (r' := _move_tensors r (storage_device self)).
  set (h1 := dict_setitem (st_heap st) vloc task r').
  assert (h1 !!! vloc = <[task := r']> values) as Hh1.
  { unfold h1, dict_setitem. by rewrite lookup_total_insert_eq. }
  destruct (expired_keys_Ok lui n (map_to_list (h1 !!! vloc)).*1)
    as (expired & -> & Hexpired).
  { intros k Hk%elem_of_map_keys. rewrite Hh1 in Hk.
    destruct (decide (k = task)) as [->|Hne]; [eauto|].
    rewrite lookup_insert_ne in Hk by done.
    apply Hvalues in Hk as (_ & L & -> & _). eauto. }
  simpl. split_and!; [done| |done|].
  - case_decide; [done|]. by rewrite app_nil_r.
  - intros k v. rewrite foldl_dict_delitem_lookup, Hh1. by case_decide.
Qed.

End run_outcome_facts.

(** ** The value of a task *)

Lemma Forall2_same_left {A B} (R R' : A → B → Prop) (l : list A)
    (k k' : list B) :
  (∀ a x y, R a x → R' a y → x = y) →
  Forall2 R l k → Forall2 R' l k' → k = k'.
Proof.
  intros Hfun HR. revert k'.
  induction HR as [|a x l k Hax _ IH]; intros k' HR'.
  - by apply Forall2_nil_inv_l in HR'.
  - apply Forall2_cons_inv_l in HR' as (y & k'' & Hay & HR' & ->).
    f_equal; [by apply (Hfun a)|by apply IH].
Qed.

Lemma Forall2_common_bound {A B} (P : nat → A → B → Prop) (l : list A)
    (k : list B) :
  (∀ n m a b, n ≤ m → P n a b → P m a b) →
  Forall2 (λ a b, ∃ n, P n a b) l k → ∃ n, Forall2 (P n) l k.
Proof.
  intros Hmono. induction 1 as [|a b l k [n Hn] _ [m Hm]].
  - exists 0. constructor.
  - exists (n `max` m). constructor.
    + apply (Hmono n); [lia|done].
    + eapply Forall2_impl; [done|]. intros a' b'. apply Hmono. lia.
Qed.

Section value_of_facts.
Context {Task : Type} `{TaskClass Task}.
Context (md sd : string) (cached : gmap Task value).

Lemma value_of_arguments t fuel args :
  mapM (λ a : string * Task,
          match value_of md sd cached fuel a.2 with
          | Some v =>
              Some (a.1, if uses_accelerator t then _move_tensors v md else v)
          | None => None
          end) (arguments t) = Some args ↔
  Forall2 (argument_of md sd cached t fuel) (arguments t) args.
Proof.
  rewrite mapM_Some.
  split; intros HF; (eapply Forall2_impl; [exact HF|]); intros a nv;
    unfold argument_of;
    destruct (value_of md sd cached fuel a.2) as [v|]; try done.
  - intros [= <-]. eauto.
  - by intros (w & [= <-] & ->).
  - by intros (w & ? & _).
Qed.

Lemma value_of_mono fuel fuel' t v :
  fuel ≤ fuel' → value_of md sd cached fuel t = Some v →
  value_of md sd cached fuel' t = Some v.
Proof.
  revert fuel' t v. induction fuel as [|fuel IH]; intros fuel' t v Hle;
    [done|].
  destruct fuel' as [|fuel']; [lia|]. cbn [value_of].
  destruct (cached !! t); [done|].
  destruct (mapM _ (arguments t)) as [args|] eqn:Hargs; [|done].
  intros Hexec. apply value_of_arguments in Hargs.
  assert (Forall2 (argument_of md sd cached t fuel') (arguments t) args) as Hargs'.
  { eapply Forall2_impl; [done|]. intros a nv (w & Hw & ->).
    exists w. split; [|done]. apply IH; [lia|done]. }
  apply value_of_arguments in Hargs'. by rewrite Hargs'.
Qed.

Lemma value_of_functional fuel fuel' t v v' :
  value_of md sd cached fuel t = Some v →
  value_of md sd cached fuel' t = Some v' → v = v'.
Proof.
  intros Hv Hv'.
  apply (value_of_mono _ (fuel `max` fuel')) in Hv; [|lia].
  apply (value_of_mono _ (fuel `max` fuel')) in Hv'; [|lia]. congruence.
Qed.

Lemma value_of_cached t v :
  cached !! t = Some v → value_of md sd cached 1 t = Some v.
Proof. intros Hv. simpl. by rewrite Hv. Qed.

Lemma value_of_task t args r :
  cached !! t = None →
  Forall2 (λ a nv, ∃ fuel, argument_of md sd cached t fuel a nv) (arguments t) args →
  execute t args = Returns r →
  ∃ fuel, value_of md sd cached fuel t = Some (_move_tensors r sd).
Proof.
  intros Hnone Hargs Hexec.
  apply Forall2_common_bound in Hargs as [fuel Hargs].
  - exists (S fuel). cbn [value_of]. rewrite Hnone.
    apply value_of_arguments in Hargs. by rewrite Hargs, Hexec.
  - intros n m a nv Hle (w & Hw & ->). exists w. split; [|done].
    by apply value_of_mono with n.
Qed.

Lemma value_of_task_inv fuel t v :
  cached !! t = None → value_of md sd cached fuel t = Some v →
  ∃ fuel' args r,
    Forall2 (argument_of md sd cached t fuel') (arguments t) args ∧
    execute t args = Returns r ∧ v = _move_tensors r sd.
Proof.
  intros Hnone. destruct fuel as [|fuel]; [done|]. cbn [value_of].
  rewrite Hnone.
  destruct (mapM _ (arguments t)) as [args|] eqn:Hargs; [|done].
  apply value_of_arguments in Hargs.
  destruct (execute t args) as [r|msg] eqn:Hexec; [|done].
  intros [= <-]. by exists fuel, args, r.
Qed.

End value_of_facts.

Lemma resolve_arguments_Forall2 `{TaskClass Task} (self : Executor (Task:=Task))
    (values : gmap Task value) (use : bool) (args : list (string * Task))
    (resolved : list (string * value)) :
  resolve_arguments self values use args = Ok resolved →
  Forall2 (λ a nv, ∃ w, values !! a.2 = Some w ∧
             nv = (a.1, if use then _move_tensors w (math_device self) else w))
          args resolved.
Proof.
  revert resolved. induction args as [|[name dep] args IH]; intros resolved.
  - intros [= <-]. constructor.
  - cbn [resolve_arguments]. destruct (values !! dep) as [w|] eqn:Hw; [|done].
    destruct (resolve_arguments self values use args) as [rest|e]; [|done].
    intros [= <-]. constructor; [|by apply IH]. eauto.
Qed.

Section run_value_facts.
Context {Task : Type} `{TaskClass Task} `{!SetOrder Task}.
Context (h : gmap loc (gmap Task value)) (self : Executor (Task:=Task)).
Context (Hwf : executor_wf h self).

Abbreviation cached := (cached_or_empty h (cached_values self)).
Abbreviation graph_value :=
  (value_of (math_device self) (storage_device self) cached).

(** The arguments that a turn resolves from the store are those that
    [value_of] gives, when the store holds values of the graph. *)
Lemma resolved_arguments_of n task args :
  (∀ k v, values_after self h n !! k = Some v →
          ∃ fuel, graph_value fuel k = Some v) →
  resolve_arguments self (values_after self h n) (uses_accelerator task)
    (arguments task) = Ok args →
  Forall2 (λ a nv, ∃ fuel,
             argument_of (math_device self) (storage_device self) cached
               task fuel a nv)
          (arguments task) args.
Proof.
  intros Hstore Hres%resolve_arguments_Forall2.
  eapply Forall2_impl; [done|]. intros a nv (w & Hw & ->).
  destruct (Hstore _ _ Hw) as [fuel Hfuel]. exists fuel, w. by split.
Qed.

(** All along the run, the store and the pairs yielded hold values of the
    graph, and the tasks of the turns that are over have one. *)
Lemma run_upto_value_of n :
  n ≤ length (schedule self) →
  (∀ k v, values_after self h n !! k = Some v →
          ∃ fuel, graph_value fuel k = Some v) ∧
  (∀ t v, (t, v) ∈ st_yielded (run_upto self h n) →
          ∃ fuel, graph_value fuel t = Some v) ∧
  (st_raised (run_upto self h n) = None →
   ∀ i t, i < n → schedule self !! i = Some t →
          ∃ fuel v, graph_value fuel t = Some v).
Proof.
  induction n as [|n IH]; intros Hn.
  - split_and!.
    + intros k v. unfold values_after, run_upto. rewrite take_0.
      cbn [foldl]. rewrite run_start_values. intros Hk. exists 1.
      by apply value_of_cached.
    + intros t v. unfold run_upto. rewrite take_0. cbn [foldl].
      by intros ?%elem_of_nil.
    + intros _ i t Hi. lia.
  - destruct IH as (Hstore & Hyielded & Hdone); [lia|].
    destruct (lookup_lt_is_Some_2 (schedule self) n) as [task Htask]; [lia|].
    destruct (st_raised (run_upto self h n)) as [e|] eqn:Hraised.
    { assert (run_upto self h (S n) = run_upto self h n) as Heq
        by (apply run_upto_frozen with e; [done|lia]).
      unfold values_after. rewrite Heq. split_and!; [done..|].
      intros Hnone. congruence. }
    destruct (run_turn_outcome h self Hwf n task Htask Hraised)
      as (args & Hres & Hout).
    pose proof (resolved_arguments_of n task args Hstore Hres) as Hargs.
    destruct (execute task args) as [r|msg] eqn:Hexec.
    + destruct Hout as (Hnone & Hy & _ & Hvalues).
      destruct (scheduled_reachable h self Hwf n task Htask) as [_ Hc].
      destruct (value_of_task _ _ _ task args r Hc Hargs Hexec)
        as [fuel Hfuel].
      split_and!.
      * intros k v Hk%Hvalues. destruct (decide (k = task)) as [->|Hne].
        -- rewrite lookup_insert_eq in Hk. injection Hk as <-. eauto.
        -- rewrite lookup_insert_ne in Hk by done. eauto.
      * intros t v. rewrite Hy. intros [Hin|Hin]%elem_of_app; [eauto|].
        case_decide; [|by apply elem_of_nil in Hin].
        apply list_elem_of_singleton in Hin as [= -> ->]. eauto.
      * intros _ i t Hi Hit. destruct (decide (i = n)) as [->|Hne].
        -- rewrite Htask in Hit. injection Hit as <-. eauto.
        -- apply (Hdone eq_refl i); [lia|done].
    + unfold values_after. rewrite Hout. simpl. split_and!; [done..|].
      intros Hnone. congruence.
Qed.

(** When every scheduled task has a value in the graph, no turn raises. *)
Lemma run_upto_no_raise n :
  (∀ t, t ∈ schedule self → ∃ fuel, is_Some (graph_value fuel t)) →
  n ≤ length (schedule self) → st_raised (run_upto self h n) = None.
Proof.
  intros Hall. induction n as [|n IH]; intros Hn; [done|].
  destruct (lookup_lt_is_Some_2 (schedule self) n) as [task Htask]; [lia|].
  specialize (IH ltac:(lia)).
  destruct (run_turn_outcome h self Hwf n task Htask IH)
    as (args & Hres & Hout).
  destruct (run_upto_value_of n ltac:(lia)) as (Hstore & _ & _).
  pose proof (resolved_arguments_of n task args Hstore Hres) as Hargs.
  destruct (scheduled_reachable h self Hwf n task Htask) as [_ Hc].
  destruct (Hall task) as (fuel & v & Hv);
    [by apply list_elem_of_lookup_2 with n|].
  destruct (value_of_task_inv _ _ _ fuel task v Hc Hv)
    as (fuel' & args' & r & Hargs' & Hexec & _).
  assert (args = args') as <-.
  { eapply Forall2_same_left; [|exact Hargs|exact Hargs'].
    intros a x y (fuel1 & w1 & Hw1 & ->) (w2 & Hw2 & ->).
    by rewrite (value_of_functional _ _ _ _ _ _ _ _ Hw1 Hw2). }
  rewrite Hexec in Hout. apply Hout.
Qed.

End run_value_facts.

(** ** [run] and [Executor.execute] *)

(** X8.  When the [execute] of the task of a turn raises, the run ends with
    that exception: the tasks executed are those of the schedule up to this
    one, no later task is executed, the pairs yielded are those of the turns
    before, the store is left as it was before the turn, and
    [Executor.execute] raises the same exception. *)
Theorem task_failure_aborts_run `{TaskClass Task} `{!SetOrder Task}
    (h : gmap loc (gmap Task value)) (fuel : nat) (tasks : list Task)
    (math_device storage_device : string) (cached_values : option loc)
    (self : Executor) (i : nat) (t : Task) (args : list (string * value))
    (msg : string) :
  __init__ h fuel tasks math_device storage_device cached_values
    = Some (Ok self) →
  schedule self !! i = Some t →
  st_raised (run_upto self h i) = None →
  resolve_arguments self (values_after self h i) (uses_accelerator t)
    (arguments t) = Ok args →
  execute t args = Raises msg →
  st_raised (run self h) = Some (TaskExecutionError msg) ∧
  st_executed (run self h) = take (S i) (schedule self) ∧
  st_yielded (run self h) = st_yielded (run_upto self h i) ∧
  (st_yielded (run self h)).*1 =
    filter (.∈ targets self) (take i (schedule self)) ∧
  st_heap (run self h) = st_heap (run_upto self h i) ∧
  (Executor_execute self h).2 = Raise (TaskExecutionError msg).
Proof.
  intros Hinit Hi Hnone Hres Hexec.
  pose proof (__init___wf _ _ _ _ _ _ _ Hinit) as Hwf.
  assert (i < length (schedule self)) as Hlen by by apply lookup_lt_Some in Hi.
  destruct (run_turn_outcome h self Hwf i t Hi Hnone) as (args' & Hres' & Hout).
  rewrite Hres in Hres'. injection Hres' as <-. rewrite Hexec in Hout.
  assert (run self h = run_upto self h (S i)) as Hrun.
  { unfold run. apply run_upto_frozen with (TaskExecutionError msg); [|lia].
    by rewrite Hout. }
  pose proof (run_upto_inv h self Hwf i ltac:(lia)) as Hinv.
  unfold Executor_execute. rewrite Hrun, Hout. simpl. split_and!; try done.
  - rewrite (ri_executed _ _ _ _ Hinv Hnone). symmetry. by apply take_S_r.
  - apply (ri_yielded _ _ _ _ Hinv Hnone).
Qed.

Lemma task_failure_aborts_run_witness :
  let self := mkExecutor "cpu" "cpu" ["C"] ["A"; "B"; "C"]
                [("C", ["B"]); ("B", ["A"]); ("A", [])] None in
  st_raised (demo_run failing_tasks self no_heap)
    = Some (TaskExecutionError "boom") ∧
  st_executed (demo_run failing_tasks self no_heap)
    = take 2 (schedule self) ∧
  st_yielded (demo_run failing_tasks self no_heap)
    = st_yielded (run_upto (H0 := failing_tasks)
                    (SetOrder0 := insertion_order string) self no_heap 1) ∧
  (st_yielded (demo_run failing_tasks self no_heap)).*1
    = filter (.∈ targets self) (take 1 (schedule self)) ∧
  st_heap (demo_run failing_tasks self no_heap)
    = st_heap (run_upto (H0 := failing_tasks)
                 (SetOrder0 := insertion_order string) self no_heap 1) ∧
  (Executor_execute (H0 := failing_tasks)
     (SetOrder0 := insertion_order string) self no_heap).2
    = Raise (TaskExecutionError "boom").
Proof.
  apply (task_failure_aborts_run (H0 := failing_tasks)
           (SetOrder0 := insertion_order string)
           no_heap 20 ["C"] "cpu" "cpu" None _ 1 "B" [("A", VInt 1)] "boom");
    by vm_compute.
Defined.

(** X9.  In a run of an executor that was built, every value in the store
    and every value yielded is the value that the graph gives to its task:
    the cached value of a cached task, and for any other task what its
    [execute] returns on the values of its arguments.  The order of the
    schedule and the eviction do not change what a task is given. *)
Theorem run_computes_graph_values `{TaskClass Task} `{!SetOrder Task}
    (h : gmap loc (gmap Task value)) (fuel : nat) (tasks : list Task)
    (math_device storage_device : string) (cached_values : option loc)
    (self : Executor) :
  __init__ h fuel tasks math_device storage_device cached_values
    = Some (Ok self) →
  (∀ n t v, (t, v) ∈ st_yielded (run_upto self h n) →
     ∃ fuel', value_of math_device storage_device
                (cached_or_empty h cached_values) fuel' t = Some v) ∧
  (∀ n k v, values_after self h n !! k = Some v →
     ∃ fuel', value_of math_device storage_device
                (cached_or_empty h cached_values) fuel' k = Some v).
Proof.
  intros Hinit. pose proof (__init___wf _ _ _ _ _ _ _ Hinit) as Hwf.
  apply __init___Ok in Hinit as (_ & <- & <- & <- & _).
  assert (∀ n, ∃ m, m ≤ length (schedule self) ∧
            run_upto self h n = run_upto self h m) as Hle.
  { intros n. destruct (decide (n ≤ length (schedule self))); [by exists n|].
    exists (length (schedule self)). split; [done|].
    rewrite !(run_upto_ge h self) by lia. done. }
  split.
  - intros n t v. destruct (Hle n) as (m & Hm & ->).
    apply (run_upto_value_of h self Hwf m Hm).
  - intros n k v. unfold values_after. destruct (Hle n) as (m & Hm & ->).
    apply (run_upto_value_of h self Hwf m Hm).
Qed.

Lemma run_computes_graph_values_witness :
  let self := mkExecutor "cpu" "cpu" ["D"] ["A"; "B"; "C"; "D"]
                [("D", ["C"]); ("C", ["B"]); ("B", ["A"]); ("A", [])] None in
  (∀ n t v,
     (t, v) ∈ st_yielded (run_upto (H0 := chain_tasks)
                            (SetOrder0 := insertion_order string)
                            self no_heap n) →
     ∃ fuel', value_of (H0 := chain_tasks) "cpu" "cpu"
                (cached_or_empty no_heap None) fuel' t = Some v) ∧
  (∀ n k v, demo_values chain_tasks self no_heap n !! k = Some v →
     ∃ fuel', value_of (H0 := chain_tasks) "cpu" "cpu"
                (cached_or_empty no_heap None) fuel' k = Some v).
Proof.
  apply (run_computes_graph_values (H0 := chain_tasks)
           (SetOrder0 := insertion_order string)
           no_heap 20 ["D"] "cpu" "cpu" None).
  by vm_compute.
Defined.

(** X10.  When [Executor.execute], for an executor that was built, returns
    without an exception, every scheduled task was executed once, in the
    order of the schedule, and each of them has a value in the graph: its
    [execute] returned on the values of its arguments.  When every scheduled
    task has a value in the graph, no exception of the [execute] of a task
    ends the call.  Whatever the outcome, the dictionaries that were there
    before the call are left as they were. *)
Theorem execute_runs_every_scheduled_task `{TaskClass Task}
    `{!SetOrder Task}
    (h : gmap loc (gmap Task value)) (fuel : nat) (tasks : list Task)
    (math_device storage_device : string) (cached_values : option loc)
    (self : Executor) :
  __init__ h fuel tasks math_device storage_device cached_values
    = Some (Ok self) →
  ((Executor_execute self h).2 = Ok tt →
   st_executed (run self h) = schedule self ∧
   ∀ t, t ∈ schedule self →
     ∃ fuel', is_Some (value_of math_device storage_device
                         (cached_or_empty h cached_values) fuel' t)) ∧
  ((∀ t, t ∈ schedule self →
      ∃ fuel', is_Some (value_of math_device storage_device
                          (cached_or_empty h cached_values) fuel' t)) →
   ∀ msg, (Executor_execute self h).2 ≠ Raise (TaskExecutionError msg)) ∧
  (∀ l, is_Some (h !! l) → (Executor_execute self h).1 !! l = h !! l).
Proof.
  intros Hinit. pose proof (__init___wf _ _ _ _ _ _ _ Hinit) as Hwf.
  apply __init___Ok in Hinit as (_ & <- & <- & <- & _).
  pose proof (run_upto_inv h self Hwf _ (Nat.le_refl _)) as Hinv.
  assert ((Executor_execute self h).2 = Ok tt ↔ st_raised (run self h) = None)
    as Hok.
  { unfold Executor_execute. simpl. by destruct (st_raised (run self h)). }
  split_and!.
  - intros Hnone%Hok. split.
    + unfold run in *. rewrite (ri_executed _ _ _ _ Hinv Hnone).
      by rewrite take_ge.
    + intros t [i Hi]%list_elem_of_lookup.
      destruct (run_upto_value_of h self Hwf _ (Nat.le_refl _))
        as (_ & _ & Hdone).
      destruct (Hdone Hnone i t) as (fuel' & v & Hv);
        [by apply lookup_lt_Some in Hi|done|].
      exists fuel'. by rewrite Hv.
  - intros Hall msg. unfold Executor_execute. simpl.
    assert (st_raised (run self h) = None) as ->; [|done].
    by apply (run_upto_no_raise h self Hwf).
  - intros l Hl. unfold Executor_execute, run. simpl.
    by apply run_upto_frame.
Qed.

Lemma execute_runs_every_scheduled_task_witness :
  let self := mkExecutor "cpu" "cpu" ["D"] ["A"; "B"; "C"; "D"]
                [("D", ["C"]); ("C", ["B"]); ("B", ["A"]); ("A", [])] None in
  (Executor_execute (H0 := chain_tasks)
     (SetOrder0 := insertion_order string) self no_heap).2 = Ok tt ∧
  ((Executor_execute (H0 := chain_tasks)
      (SetOrder0 := insertion_order string) self no_heap).2 = Ok tt →
   st_executed (demo_run chain_tasks self no_heap) = schedule self ∧
   ∀ t, t ∈ schedule self →
     ∃ fuel', is_Some (value_of (H0 := chain_tasks) "cpu" "cpu"
                         (cached_or_empty no_heap None) fuel' t)) ∧
  ((∀ t, t ∈ schedule self →
      ∃ fuel', is_Some (value_of (H0 := chain_tasks) "cpu" "cpu"
                          (cached_or_empty no_heap None) fuel' t)) →
   ∀ msg, (Executor_execute (H0 := chain_tasks)
             (SetOrder0 := insertion_order string) self no_heap).2
          ≠ Raise (TaskExecutionError msg)) ∧
  (∀ l, is_Some (no_heap !! l) →
        (Executor_execute (H0 := chain_tasks)
           (SetOrder0 := insertion_order string) self no_heap).1 !! l
          = no_heap !! l).
Proof.
  intros self. split; [by vm_compute|].
  apply (execute_runs_every_scheduled_task (H0 := chain_tasks)
           (SetOrder0 := insertion_order string)
           no_heap 20 ["D"] "cpu" "cpu" None).
  by vm_compute.
Defined.

(** X11.  The store of a run holds no value that is not needed any more:
    after every turn, a value in the store is read by the task of a turn to
    come, or it is a cached value that no scheduled task reads.  At the end
    of a run that raised no exception, no value computed by the run is left
    in the store. *)
Theorem store_holds_no_dead_value `{TaskClass Task} `{!SetOrder Task}
    (h : gmap loc (gmap Task value)) (fuel : nat) (tasks : list Task)
    (math_device storage_device : string) (cached_values : option loc)
    (self : Executor) :
  __init__ h fuel tasks math_device storage_device cached_values
    = Some (Ok self) →
  (∀ n k, n ≤ length (schedule self) →
     st_raised (run_upto self h n) = None →
     is_Some (values_after self h n !! k) →
     (∃ j task, n ≤ j ∧ schedule self !! j = Some task ∧
                k ∈ (arguments task).*2) ∨
     (is_Some (cached_or_empty h cached_values !! k) ∧
      ∀ task, task ∈ schedule self → k ∉ (arguments task).*2)) ∧
  (st_raised (run self h) = None →
   ∀ t, t ∈ schedule self →
        values_after self h (length (schedule self)) !! t = None).
Proof.
  intros Hinit. pose proof (__init___wf _ _ _ _ _ _ _ Hinit) as Hwf.
  apply __init___Ok in Hinit as (_ & <- & _ & _ & _).
  assert (∀ n k, n ≤ length (schedule self) →
     st_raised (run_upto self h n) = None →
     is_Some (values_after self h n !! k) →
     (∃ j task, n ≤ j ∧ schedule self !! j = Some task ∧
                k ∈ (arguments task).*2) ∨
     (is_Some (cached_or_empty h (cached_values self) !! k) ∧
      ∀ task, task ∈ schedule self → k ∉ (arguments task).*2)) as Hlive.
  { intros n k Hn Hnone Hk.
    apply (values_after_Some h self Hwf n k Hn Hnone) in Hk
      as (Hstored & last & Hlast & Hle).
    apply last_use_index_Some in Hlast
      as [[(task & Htask & Huse) _]|(Hunused & Hc & _)].
    - left. exists last, task. split_and!; [done..|].
      destruct Huse as [Heq|Huse];
        [|by apply (dependencies_get_scheduled h self Hwf last)].
      exfalso. rewrite <-Heq in Htask.
      destruct Hstored as [Hc|(i & Hi & Hik)].
      + by destruct (cached_not_scheduled h self Hwf last k Hc).
      + pose proof (NoDup_lookup _ _ _ _
                      (ss_nodup _ _ _ (ew_sched _ _ Hwf)) Hik Htask). lia.
    - right. split; [done|]. intros task [j Hj]%list_elem_of_lookup Hin.
      apply (Hunused j task Hj). right.
      by apply (dependencies_get_scheduled h self Hwf j). }
  split; [done|].
  intros Hnone t [i Hi]%list_elem_of_lookup. apply eq_None_not_Some. intros Ht.
  destruct (Hlive _ t (Nat.le_refl _) Hnone Ht)
    as [(j & task & Hj & Hjt & _)|[Hc _]].
  - apply lookup_lt_Some in Hjt. lia.
  - by destruct (cached_not_scheduled h self Hwf i t Hc).
Qed.

Lemma store_holds_no_dead_value_witness :
  let self := mkExecutor "cpu" "cpu" ["D"] ["A"; "B"; "C"; "D"]
                [("D", ["C"]); ("C", ["B"]); ("B", ["A"]); ("A", [])] None in
  (∀ n k, n ≤ length (schedule self) →
     st_raised (run_upto (H0 := chain_tasks)
                  (SetOrder0 := insertion_order string) self no_heap n)
       = None →
     is_Some (demo_values chain_tasks self no_heap n !! k) →
     (∃ j task, n ≤ j ∧ schedule self !! j = Some task ∧
                k ∈ (arguments (TaskClass := chain_tasks) task).*2) ∨
     (is_Some (cached_or_empty no_heap None !! k) ∧
      ∀ task, task ∈ schedule self →
              k ∉ (arguments (TaskClass := chain_tasks) task).*2)) ∧
  (st_raised (demo_run chain_tasks self no_heap) = None →
   ∀ t, t ∈ schedule self →
        demo_values chain_tasks self no_heap (length (schedule self)) !! t
          = None).
Proof.
  apply (store_holds_no_dead_value (H0 := chain_tasks)
           (SetOrder0 := insertion_order string)
           no_heap 20 ["D"] "cpu" "cpu" None).
  by vm_compute.
Defined.

(** ** What a run never does *)

Section run_prefix_facts.
Context {Task : Type} `{TaskClass Task} `{!SetOrder Task}.
Context (h : gmap loc (gmap Task value)) (self : Executor (Task:=Task)).

(** What is known after [n] turns of any executor: the tasks executed are
    the first tasks of the schedule, all of them as long as nothing was
    raised, and the tasks of the pairs yielded are targets that were
    executed. *)
Lemma run_upto_executed n :
  n ≤ length (schedule self) →
  st_executed (run_upto self h n) `prefix_of` take n (schedule self) ∧
  (st_raised (run_upto self h n) = None →
   st_executed (run_upto self h n) = take n (schedule self)) ∧
  (∀ t v, (t, v) ∈ st_yielded (run_upto self h n) →
          t ∈ targets self ∧ t ∈ st_executed (run_upto self h n)).
Proof.
  induction n as [|n IH]; intros Hn.
  - unfold run_upto. rewrite take_0. cbn [foldl]. simpl. split_and!; [done..|].
    by intros t v ?%elem_of_nil.
  - destruct IH as (Hpre & Hall & Hy); [lia|].
    destruct (lookup_lt_is_Some_2 (schedule self) n) as [task Htask]; [lia|].
    assert (take n (schedule self) `prefix_of` take (S n) (schedule self))
      as Htake.
    { rewrite (take_S_r _ _ task) by done. by apply prefix_app_r. }
    rewrite (run_upto_S h self n task Htask). unfold run_turn.
    destruct (st_raised (run_upto self h n)) as [e|] eqn:Hraised.
    { split_and!; [by trans (take n (schedule self))| |done].
      intros Hnone. congruence. }
    specialize (Hall eq_refl). unfold run_step.
    destruct (resolve_arguments _ _ _ _) as [args|e]; simpl.
    2: { split_and!; [by trans (take n (schedule self))|done|done]. }
    assert (st_executed (run_upto self h n) ++ [task]
            = take (S n) (schedule self)) as Hexec.
    { rewrite Hall. symmetry. by apply take_S_r. }
    assert (∀ t v, (t, v) ∈ st_yielded (run_upto self h n) →
              t ∈ targets self ∧ t ∈ st_executed (run_upto self h n) ++ [task])
      as Hy'.
    { intros t v [? ?]%Hy. split; [done|]. apply elem_of_app. by left. }
    destruct (execute task args) as [r|msg]; simpl.
    2: { split_and!; [by rewrite Hexec|done|exact Hy']. }
    assert (∀ t v,
              (t, v) ∈ (if decide (task ∈ targets self)
                        then st_yielded (run_upto self h n) ++
                             [(task, _move_tensors r (storage_device self))]
                        else st_yielded (run_upto self h n)) →
              t ∈ targets self ∧ t ∈ st_executed (run_upto self h n) ++ [task])
      as Hy''.
    { intros t v. case_decide as Ht; [|by apply Hy'].
      intros [Hin|[= -> ->]%list_elem_of_singleton]%elem_of_app;
        [by apply (Hy' t v)|].
      split; [done|]. apply elem_of_app. right. by left. }
    destruct (expired_keys _ _ _) as [expired|e]; simpl;
      (split_and!; [by rewrite Hexec|done|exact Hy'']).
Qed.

End run_prefix_facts.

Section run_monotone_facts.
Context {Task : Type} `{TaskClass Task} `{!SetOrder Task}.
Context (h : gmap loc (gmap Task value)) (self : Executor (Task:=Task)).

Lemma run_turn_extends (lui : gmap Task nat) (vloc : loc)
    (st : run_state (Task:=Task)) it :
  st_executed st `prefix_of` st_executed (run_turn self lui vloc st it) ∧
  st_yielded st `prefix_of` st_yielded (run_turn self lui vloc st it).
Proof.
  unfold run_turn. destruct (st_raised st); [done|].
  destruct it as [idx task]. unfold run_step.
  destruct (resolve_arguments _ _ _ _) as [args|e]; [|done].
  destruct (execute task args) as [r|msg]; simpl;
    [|split; [by apply prefix_app_r|done]].
  assert (st_yielded st `prefix_of`
            (if decide (task ∈ targets self)
             then st_yielded st ++
                  [(task, _move_tensors r (storage_device self))]
             else st_yielded st)) as Hy
    by (case_decide; [by apply prefix_app_r|done]).
  destruct (expired_keys _ _ _) as [expired|e]; simpl;
    (split; [by apply prefix_app_r|exact Hy]).
Qed.

Lemma foldl_run_turn_extends (lui : gmap Task nat) (vloc : loc)
    (st : run_state (Task:=Task)) l :
  st_executed st `prefix_of` st_executed (foldl (run_turn self lui vloc) st l) ∧
  st_yielded st `prefix_of` st_yielded (foldl (run_turn self lui vloc) st l).
Proof.
  revert st. induction l as [|it l IH]; intros st; [done|]. cbn [foldl].
  destruct (run_turn_extends lui vloc st it) as [He Hy].
  destruct (IH (run_turn self lui vloc st it)) as [He' Hy'].
  split; [by trans (st_executed (run_turn self lui vloc st it))|
          by trans (st_yielded (run_turn self lui vloc st it))].
Qed.

Lemma run_upto_extends n m :
  n ≤ m →
  st_executed (run_upto self h n) `prefix_of` st_executed (run_upto self h m) ∧
  st_yielded (run_upto self h n) `prefix_of` st_yielded (run_upto self h m).
Proof.
  intros Hle. unfold run_upto.
  rewrite <-(take_drop n (take m (enumerate (schedule self)))).
  rewrite take_take, Nat.min_l by done. rewrite foldl_app.
  apply foldl_run_turn_extends.
Qed.

Lemma run_upto_capped n :
  ∃ m, m ≤ length (schedule self) ∧ m ≤ n ∧
       run_upto self h n = run_upto self h m.
Proof.
  destruct (decide (n ≤ length (schedule self))); [by exists n|].
  exists (length (schedule self)). split_and!; [done|lia|].
  unfold run_upto.
  by rewrite !take_ge by (unfold enumerate; rewrite length_imap; lia).
Qed.

End run_monotone_facts.

(** X13.  A run follows the schedule, whatever the executor: after any
    number of turns the tasks executed are the first tasks of the schedule,
    in its order, and all those of the turns made when nothing was raised;
    later turns only add to the tasks executed and to the pairs yielded; and
    a pair is yielded only for a target, after the task was executed. *)
Theorem run_follows_schedule `{TaskClass Task} `{!SetOrder Task}
    (h : gmap loc (gmap Task value)) (self : Executor) :
  (∀ n, st_executed (run_upto self h n) `prefix_of` schedule self) ∧
  (∀ n, n ≤ length (schedule self) →
        st_raised (run_upto self h n) = None →
        st_executed (run_upto self h n) = take n (schedule self)) ∧
  (∀ n m, n ≤ m →
     st_executed (run_upto self h n)
       `prefix_of` st_executed (run_upto self h m) ∧
     st_yielded (run_upto self h n)
       `prefix_of` st_yielded (run_upto self h m)) ∧
  (∀ n t v, (t, v) ∈ st_yielded (run_upto self h n) →
            t ∈ targets self ∧ t ∈ st_executed (run_upto self h n)).
Proof.
  split_and!.
  - intros n. destruct (run_upto_capped h self n) as (m & Hm & _ & ->).
    destruct (run_upto_executed h self m Hm) as (Hpre & _ & _).
    trans (take m (schedule self)); [done|]. apply prefix_take.
  - intros n Hn. by apply run_upto_executed.
  - intros n m. apply run_upto_extends.
  - intros n. destruct (run_upto_capped h self n) as (m & Hm & _ & ->).
    by apply run_upto_executed.
Qed.

(** ** The iteration order of sets *)

Section set_order_facts.
Context {Task : Type} `{TaskClass Task} (o1 o2 : SetOrder Task).
Context (h : gmap loc (gmap Task value)) (self : Executor (Task:=Task)).

Lemma uses_set_order deps task k :
  uses (SetOrder0 := o1) deps task k ↔ uses (SetOrder0 := o2) deps task k.
Proof.
  unfold uses, dependencies_get.
  destruct (alist_lookup task deps) as [ds|]; simpl; [|done].
  by rewrite !set_iter_perm.
Qed.

Lemma is_last_use_set_order deps sched k v :
  is_last_use (SetOrder0 := o1) deps sched k v →
  is_last_use (SetOrder0 := o2) deps sched k v.
Proof.
  intros [(task & Ht & Hu) Hl]. split.
  - exists task. split; [done|]. by apply uses_set_order.
  - intros j task' Hj Hj' Hu'. apply (Hl j task' Hj Hj').
    by apply uses_set_order.
Qed.

End set_order_facts.

Lemma last_use_index_set_order `{TaskClass Task} (o1 o2 : SetOrder Task)
    (h : gmap loc (gmap Task value)) (self : Executor (Task:=Task)) k v :
  last_use_index (SetOrder0 := o1) self h !! k = Some v →
  last_use_index (SetOrder0 := o2) self h !! k = Some v.
Proof.
  rewrite !last_use_index_Some. intros [Hl|(Hunused & Hc & ->)].
  - left. by apply (is_last_use_set_order o1 o2).
  - right. split_and!; [|done..]. intros i task Hi Hu.
    apply (Hunused i task Hi). by apply (uses_set_order o1 o2).
Qed.

(** X14.  The sets of dependencies are iterated in an order that Python does
    not fix.  The last uses that [run] computes, the run of an executor and
    [Executor.execute] do not depend on that order. *)
Theorem run_independent_of_set_order `{TaskClass Task}
    (o1 o2 : SetOrder Task)
    (h : gmap loc (gmap Task value)) (self : Executor) :
  last_use_index (SetOrder0 := o1) self h
    = last_use_index (SetOrder0 := o2) self h ∧
  (∀ n, run_upto (SetOrder0 := o1) self h n
        = run_upto (SetOrder0 := o2) self h n) ∧
  Executor_execute (SetOrder0 := o1) self h
    = Executor_execute (SetOrder0 := o2) self h.
Proof.
  assert (last_use_index (SetOrder0 := o1) self h
          = last_use_index (SetOrder0 := o2) self h) as Heq.
  { apply map_eq. intros k. apply option_eq. intros v.
    split; apply last_use_index_set_order. }
  split_and!; [done| |].
  - intros n. unfold run_upto. by rewrite Heq.
  - unfold Executor_execute, run, run_upto. by rewrite Heq.
Qed.

(** ** Cached values *)

Lemma value_of_without_cache `{TaskClass Task} (md sd : string)
    (cached : gmap Task value) :
  (∀ t v, cached !! t = Some v → ∃ fuel, value_of md sd ∅ fuel t = Some v) →
  ∀ fuel t v, value_of md sd cached fuel t = Some v →
              ∃ fuel', value_of md sd ∅ fuel' t = Some v.
Proof.
  intros Hcached. induction fuel as [|fuel IH]; intros t v; [done|].
  cbn [value_of]. destruct (cached !! t) as [c|] eqn:Hc.
  { intros [= <-]. eauto. }
  destruct (mapM _ (arguments t)) as [args|] eqn:Hargs; [|done].
  destruct (execute t args) as [r|msg] eqn:Hexec; [|done].
  intros [= <-]. apply value_of_arguments in Hargs.
  apply (value_of_task md sd ∅ t args r); [apply lookup_empty| |done].
  eapply Forall2_impl; [done|]. intros a nv (w & Hw & ->).
  destruct (IH _ _ Hw) as [fuel' Hfuel']. by exists fuel', w.
Qed.

(** X15.  Cached values stand for tasks that were executed before.  When
    every cached value is the value that the graph gives to its task without
    a cache, the values that a run with the cache yields and keeps in its
    store are the values that the graph gives without a cache: the cache
    saves the calls of [execute] and changes no result. *)
Theorem cache_changes_no_result `{TaskClass Task} `{!SetOrder Task}
    (h : gmap loc (gmap Task value)) (fuel : nat) (tasks : list Task)
    (math_device storage_device : string) (cached_values : option loc)
    (self : Executor) :
  __init__ h fuel tasks math_device storage_device cached_values
    = Some (Ok self) →
  (∀ t v, cached_or_empty h cached_values !! t = Some v →
          ∃ fuel', value_of math_device storage_device ∅ fuel' t = Some v) →
  (∀ n t v, (t, v) ∈ st_yielded (run_upto self h n) →
     ∃ fuel', value_of math_device storage_device ∅ fuel' t = Some v) ∧
  (∀ n k v, values_after self h n !! k = Some v →
     ∃ fuel', value_of math_device storage_device ∅ fuel' k = Some v).
Proof.
  intros Hinit Hcached.
  pose proof (__init___wf _ _ _ _ _ _ _ Hinit) as Hwf.
  apply __init___Ok in Hinit as (_ & <- & <- & <- & _).
  split.
  - intros n t v. destruct (run_upto_capped h self n) as (m & Hm & _ & ->).
    intros Hin.
    destruct (run_upto_value_of h self Hwf m Hm) as (_ & Hyielded & _).
    destruct (Hyielded t v Hin) as [fuel' Hv].
    by apply (value_of_without_cache _ _ _ Hcached fuel').
  - intros n k v. unfold values_after.
    destruct (run_upto_capped h self n) as (m & Hm & _ & ->). intros Hk.
    destruct (run_upto_value_of h self Hwf m Hm) as (Hstore & _ & _).
    destruct (Hstore k v Hk) as [fuel' Hv].
    by apply (value_of_without_cache _ _ _ Hcached fuel').
Qed.

Lemma cache_changes_no_result_witness :
  let h : gmap loc (gmap string value) :=
    {[ 1%positive := {[ "A" := VInt 1 ]} ]} in
  let self := mkExecutor "cpu" "cpu" ["B"] ["B"] [("B", ["A"]); ("A", [])]
                (Some 1%positive) in
  (∀ n t v,
     (t, v) ∈ st_yielded (run_upto (H0 := cached_tasks)
                            (SetOrder0 := insertion_order string) self h n) →
     ∃ fuel', value_of (H0 := cached_tasks) "cpu" "cpu" ∅ fuel' t = Some v) ∧
  (∀ n k v, demo_values cached_tasks self h n !! k = Some v →
     ∃ fuel', value_of (H0 := cached_tasks) "cpu" "cpu" ∅ fuel' k = Some v).
Proof.
  apply (cache_changes_no_result (H0 := cached_tasks)
           (SetOrder0 := insertion_order string)
           {[ 1%positive := {[ "A" := VInt 1 ]} ]} 20 ["B"] "cpu" "cpu"
           (Some 1%positive)).
  - by vm_compute.
  - intros t v. unfold cached_or_empty. rewrite lookup_total_singleton.
    intros [<- <-]%lookup_singleton_Some. by exists 1.
Defined.

(** ** Running an executor again *)

Section run_again_facts.
Context {Task : Type} `{TaskClass Task} `{!SetOrder Task}.
Context (self : Executor (Task:=Task)).
Implicit Types (hp : gmap loc (gmap Task value)) (st : run_state (Task:=Task)).





End run_again_facts.


